(** * llxprt-code core: retry engine, template engine, profile manager
      and provider manager

    A shallow embedding of

    - [packages/core/src/utils/retry.ts]
    - [packages/core/src/prompt-config/TemplateEngine.ts]
    - [packages/core/src/config/profileManager.ts]
    - [packages/core/src/providers/ProviderManager.ts]

    and the properties of these modules stated by the specification.

    Conventions of the embedding.

    - A JavaScript string is a [string]: a sequence of code units in the
      range 0..255.  [toLowerCase] and [toUpperCase] map the ASCII letters
      and leave every other code unit unchanged.
    - A JavaScript number that is a count or a status is a [Z]; a duration
      in milliseconds is a [Q] (exact arithmetic, no rounding).
    - JavaScript objects live in a store ([heap]) and are denoted by
      references, so that sharing and cycles between error objects can be
      expressed. *)

From Stdlib Require Import ZArith QArith Qminmax Qabs Lia Lqa Bool Ascii String.
From stdpp Require Import base gmap strings list pretty.

Set Warnings "-register-all,-clear-no-such-hyp".

Local Open Scope Z_scope.

(* ===================================================================== *)
(** ** JavaScript strings *)
(* ===================================================================== *)

Module JsString.

Definition code (c : ascii) : nat := nat_of_ascii c.

Definition is_upper (c : ascii) : bool :=
  (65 <=? code c)%nat && (code c <=? 90)%nat.
Definition is_lower (c : ascii) : bool :=
  (97 <=? code c)%nat && (code c <=? 122)%nat.
Definition is_digit (c : ascii) : bool :=
  (48 <=? code c)%nat && (code c <=? 57)%nat.

Definition lower_char (c : ascii) : ascii :=
  if is_upper c then ascii_of_nat (code c + 32) else c.
Definition upper_char (c : ascii) : ascii :=
  if is_lower c then ascii_of_nat (code c - 32) else c.

(** [s.toLowerCase()] and [s.toUpperCase()]. *)
Fixpoint toLowerCase (s : string) : string :=
  match s with
  | EmptyString => EmptyString
  | String c r => String (lower_char c) (toLowerCase r)
  end.
Fixpoint toUpperCase (s : string) : string :=
  match s with
  | EmptyString => EmptyString
  | String c r => String (upper_char c) (toUpperCase r)
  end.

(** [s.startsWith(p)]. *)
Fixpoint startsWith (p s : string) : bool :=
  match p, s with
  | EmptyString, _ => true
  | String a p', String b s' => if decide (a = b) then startsWith p' s' else false
  | String _ _, EmptyString => false
  end.

(** [s.includes(needle)]. *)
Fixpoint includes (s needle : string) : bool :=
  startsWith needle s ||
  match s with
  | EmptyString => false
  | String _ r => includes r needle
  end.

(** The suffix of [s] that starts at index [n] ([s.substring(n)]). *)
Fixpoint drop (n : nat) (s : string) : string :=
  match n, s with
  | O, _ => s
  | S n', String _ r => drop n' r
  | S _, EmptyString => EmptyString
  end.

(** The prefix of [s] of length [n] ([s.substring(0, n)]). *)
Fixpoint take (n : nat) (s : string) : string :=
  match n, s with
  | O, _ => EmptyString
  | S n', String c r => String c (take n' r)
  | S _, EmptyString => EmptyString
  end.

(** [s.substring(a, b)] for [a <= b]; the source never calls it with
    [a > b]. *)
Definition substring (a b : nat) (s : string) : string :=
  take (b - a) (drop a s).

(** First index [>= i] of an occurrence of [needle] in the suffix [s]
    that starts at index [i]. *)
Fixpoint indexOf_from (needle s : string) (i : nat) : option nat :=
  if startsWith needle s then Some i
  else match s with
       | EmptyString => None
       | String _ r => indexOf_from needle r (S i)
       end.

(** [s.indexOf(needle, from)]; [None] stands for [-1]. *)
Definition indexOf (needle s : string) (from : nat) : option nat :=
  indexOf_from needle (drop from s) (Nat.min from (String.length s)).

(** White space and line terminators removed by [trim] and skipped by
    [parseInt], restricted to the code units below 256. *)
Definition is_white (c : ascii) : bool :=
  match code c with
  | 9%nat | 10%nat | 11%nat | 12%nat | 13%nat | 32%nat | 160%nat => true
  | _ => false
  end.

Fixpoint trimStart (s : string) : string :=
  match s with
  | EmptyString => EmptyString
  | String c r => if is_white c then trimStart r else s
  end.

Fixpoint trimEnd (s : string) : string :=
  match s with
  | EmptyString => EmptyString
  | String c r =>
      match trimEnd r with
      | EmptyString => if is_white c then EmptyString else String c EmptyString
      | r' => String c r'
      end
  end.

(** [s.trim()]. *)
Definition trim (s : string) : string := trimEnd (trimStart s).

Definition digit_value (c : ascii) : Z := Z.of_nat (code c) - 48.

(** Value of the longest prefix of decimal digits, [None] when the
    string does not start with a digit. *)
Fixpoint read_digits (acc : option Z) (s : string) : option Z :=
  match s with
  | EmptyString => acc
  | String c r =>
      if is_digit c
      then read_digits (Some (10 * default 0 acc + digit_value c)) r
      else acc
  end.

(** [parseInt(s, 10)]; [None] stands for [NaN]. *)
Definition parseInt10 (s : string) : option Z :=
  match trimStart s with
  | String "-" r => Z.opp <$> read_digits None r
  | String "+" r => read_digits None r
  | r => read_digits None r
  end.

(** A non-empty string of decimal digits and the integer it denotes. *)
Definition all_digits (s : string) : bool :=
  negb (String.eqb s EmptyString) && forallb is_digit (list_ascii_of_string s).

Definition decimal_value (s : string) : Z :=
  fold_left (fun acc c => 10 * acc + digit_value c) (list_ascii_of_string s) 0.

(** Strings without white space, such as the two braces of a template,
    and strings of white space only. *)
Definition no_white (p : string) : Prop :=
  forallb (fun c => negb (is_white c)) (list_ascii_of_string p) = true.
Definition all_white (s : string) : Prop :=
  forallb is_white (list_ascii_of_string s) = true.

End JsString.

(* ===================================================================== *)
(** ** Regular expressions (the fragment used by [retry.ts]) *)
(* ===================================================================== *)

Module Regex.
Import JsString.

Inductive regex : Type :=
| Empty                         (* matches nothing *)
| Eps                           (* matches the empty string *)
| Chr (c : ascii)               (* a literal character *)
| Dot                           (* [.]: any character but a line terminator *)
| Digit                         (* [\d] *)
| Seq (r1 r2 : regex)
| Alt (r1 r2 : regex)
| Star (r : regex).

Fixpoint Lit (s : string) : regex :=
  match s with
  | EmptyString => Eps
  | String c r => Seq (Chr c) (Lit r)
  end.

Fixpoint nullable (r : regex) : bool :=
  match r with
  | Empty | Chr _ | Dot | Digit => false
  | Eps | Star _ => true
  | Seq r1 r2 => nullable r1 && nullable r2
  | Alt r1 r2 => nullable r1 || nullable r2
  end.

Definition is_line_terminator (c : ascii) : bool :=
  match code c with 10%nat | 13%nat => true | _ => false end.

(** Brzozowski derivative; [ci] is the [i] flag. *)
Fixpoint deriv (ci : bool) (a : ascii) (r : regex) : regex :=
  match r with
  | Empty | Eps => Empty
  | Chr c =>
      if ci then (if decide (lower_char a = lower_char c) then Eps else Empty)
      else (if decide (a = c) then Eps else Empty)
  | Dot => if is_line_terminator a then Empty else Eps
  | Digit => if is_digit a then Eps else Empty
  | Seq r1 r2 =>
      if nullable r1
      then Alt (Seq (deriv ci a r1) r2) (deriv ci a r2)
      else Seq (deriv ci a r1) r2
  | Alt r1 r2 => Alt (deriv ci a r1) (deriv ci a r2)
  | Star r1 => Seq (deriv ci a r1) (Star r1)
  end.

(** Some prefix of [s] matches [r]. *)
Fixpoint matches_prefix (ci : bool) (r : regex) (s : string) : bool :=
  nullable r ||
  match s with
  | EmptyString => false
  | String a s' => matches_prefix ci (deriv ci a r) s'
  end.

(** [r.test(s)] for a regex without anchors and without the [g] flag:
    some substring of [s] matches. *)
Fixpoint test (ci : bool) (r : regex) (s : string) : bool :=
  matches_prefix ci r s ||
  match s with
  | EmptyString => false
  | String _ s' => test ci r s'
  end.

End Regex.

(* ===================================================================== *)
(** ** JavaScript values and the object store *)
(* ===================================================================== *)

Module Js.

(** A value; [VRef a] is a reference to the object at address [a]. *)
Inductive value : Type :=
| VUndefined
| VNull
| VBool (b : bool)
| VNum (n : Z)
| VStr (s : string)
| VRef (a : nat).

Global Instance value_eq_dec : EqDecision value.
Proof. solve_decision. Defined.

(** An object: its properties, and whether it is an [Error] instance. *)
Record object : Type := Object {
  props : gmap string value;
  is_error : bool;
}.

Definition heap : Type := list object.

(** [o[k]]: [undefined] when the property is absent. *)
Definition get (o : object) (k : string) : value :=
  default VUndefined (props o !! k).

(** [typeof v === 'object' && v !== null], giving the object denoted.
    A reference outside the store denotes no object. *)
Definition as_object (h : heap) (v : value) : option object :=
  match v with
  | VRef a => h !! a
  | _ => None
  end.

(** Truthiness of a value in a condition. *)
Definition truthy (v : value) : bool :=
  match v with
  | VUndefined | VNull => false
  | VBool b => b
  | VNum n => negb (n =? 0)
  | VStr s => negb (String.eqb s EmptyString)
  | VRef _ => true
  end.

(** Allocation of a fresh object ([new ...]). *)
Definition alloc (h : heap) (o : object) : heap * value :=
  (h ++ [o], VRef (length h)).

End Js.

(* ===================================================================== *)
(** ** [utils/retry.ts] *)
(* ===================================================================== *)

Module Retry.
Import JsString Regex Js.

Definition STREAM_INTERRUPTED_ERROR_CODE : string := "LLXPRT_STREAM_INTERRUPTED".

Definition TRANSIENT_ERROR_PHRASES : list string :=
  [ "connection error"; "connection terminated"; "connection reset";
    "socket hang up"; "socket hung up"; "socket closed"; "socket timeout";
    "network timeout"; "network error"; "fetch failed"; "request aborted";
    "request timeout"; "stream closed"; "stream prematurely closed";
    "read econnreset"; "write econnreset" ].

(** [/econn(reset|refused|aborted)/i], [/etimedout/i],
    [/und_err_(socket|connect|headers_timeout|body_timeout)/i],
    [/tcp connection.*(reset|closed)/i]. *)
Definition TRANSIENT_ERROR_REGEXES : list regex :=
  [ Seq (Lit "econn") (Alt (Lit "reset") (Alt (Lit "refused") (Lit "aborted")));
    Lit "etimedout";
    Seq (Lit "und_err_")
        (Alt (Lit "socket")
             (Alt (Lit "connect") (Alt (Lit "headers_timeout") (Lit "body_timeout"))));
    Seq (Lit "tcp connection")
        (Seq (Star Dot) (Alt (Lit "reset") (Lit "closed"))) ].

Definition TRANSIENT_ERROR_CODES : gset string :=
  list_to_set
    [ "ECONNRESET"; "ECONNREFUSED"; "ECONNABORTED"; "ENETUNREACH";
      "EHOSTUNREACH"; "ETIMEDOUT"; "EPIPE"; "EAI_AGAIN"; "UND_ERR_SOCKET";
      "UND_ERR_CONNECT_TIMEOUT"; "UND_ERR_HEADERS_TIMEOUT";
      "UND_ERR_BODY_TIMEOUT"; STREAM_INTERRUPTED_ERROR_CODE ].

(** The three fields followed by [collectErrorDetails], in the order in
    which they are pushed. *)
Definition possibleNestedErrors (o : object) : list value :=
  [ get o "cause"; get o "originalError"; get o "error" ].

(** [nested && nested !== current], for [current] the object at [a]. *)
Definition followed (a : nat) (nested : value) : bool :=
  truthy nested && negb (bool_decide (nested = VRef a)).

(** The [while (stack.length > 0)] loop of [collectErrorDetails].  The
    head of [stack] is the top of the source's stack (its last element);
    [fuel] bounds the number of iterations. *)
Fixpoint collect_loop (fuel : nat) (h : heap) (stack : list value)
    (visited : gset nat) (messages codes : list string)
    : option (list string * list string) :=
  match fuel with
  | O => None
  | S fuel =>
      match stack with
      | [] => Some (messages, codes)
      | current :: stack =>
          match current with
          | VUndefined | VNull =>
              collect_loop fuel h stack visited messages codes
          | VStr s =>
              collect_loop fuel h stack visited (messages ++ [s]) codes
          | VRef a =>
              match h !! a with
              | None => collect_loop fuel h stack visited messages codes
              | Some errorObject =>
                  if decide (a ∈ visited)
                  then collect_loop fuel h stack visited messages codes
                  else
                    let messages :=
                      match get errorObject "message" with
                      | VStr m => messages ++ [m]
                      | _ => messages
                      end in
                    let codes :=
                      match get errorObject "code" with
                      | VStr c => codes ++ [c]
                      | _ => codes
                      end in
                    let pushed :=
                      filter (fun v => Is_true (followed a v))
                             (possibleNestedErrors errorObject) in
                    collect_loop fuel h (reverse pushed ++ stack)
                                 ({[a]} ∪ visited) messages codes
              end
          | VBool _ | VNum _ =>
              collect_loop fuel h stack visited messages codes
          end
      end
  end.

(** Every iteration pops one value, and at most three values are pushed
    for each object of the store, once. *)
Definition collect_fuel (h : heap) : nat := 3 * length h + 2.

Definition collectErrorDetails (h : heap) (error : value)
    : option (list string * list string) :=
  collect_loop (collect_fuel h) h [error] ∅ [] [].

(** [createStreamInterruptionError(message, details, cause)]; an absent
    optional argument is [VUndefined]. *)
Definition createStreamInterruptionError (h : heap)
    (message : string) (details cause : value) : heap * value :=
  let error : gmap string value :=
    {[ "message" := VStr message ]} in
  let error := <["name" := VStr "StreamInterruptionError"]> error in
  let error := <["code" := VStr STREAM_INTERRUPTED_ERROR_CODE]> error in
  let error := if truthy details then <["details" := details]> error else error in
  let error :=
    if truthy cause && negb (truthy (default VUndefined (error !! "cause")))
    then <["cause" := cause]> error else error in
  alloc h (Object error true).

(** [getErrorCode]. *)
Definition getErrorCode (h : heap) (error : value) : option string :=
  match as_object h error with
  | Some o =>
      match get o "code" with
      | VStr c => Some c
      | _ =>
          match as_object h (get o "error") with
          | Some inner =>
              match get inner "code" with
              | VStr c => Some c
              | _ => None
              end
          | None => None
          end
      end
  | None => None
  end.

Definition some_phrase (msg : string) : bool :=
  existsb (fun phrase => includes msg phrase) TRANSIENT_ERROR_PHRASES.
Definition some_regex (msg : string) : bool :=
  existsb (fun regex => test true regex msg) TRANSIENT_ERROR_REGEXES.

Definition classify (messages codes : list string) : bool :=
  let lowerMessages := map toLowerCase messages in
  if existsb some_phrase lowerMessages then true
  else if existsb some_regex messages then true
  else if existsb (fun code => bool_decide (code ∈ TRANSIENT_ERROR_CODES))
                  (map toUpperCase codes) then true
  else false.

(** [isNetworkTransientError]; [None] only if the traversal ran out of
    fuel, which [collect_loop_terminates] excludes. *)
Definition isNetworkTransientError (h : heap) (error : value) : option bool :=
  match collectErrorDetails h error with
  | Some (messages, codes) => Some (classify messages codes)
  | None => None
  end.

(** The error chain of [root]: the objects reached from it through
    [cause], [originalError] and [error]. *)
Inductive in_chain (h : heap) (root : value) : nat -> Prop :=
| chain_root a : root = VRef a -> in_chain h root a
| chain_nested a b o :
    in_chain h root a -> h !! a = Some o ->
    VRef b ∈ possibleNestedErrors o -> in_chain h root b.

(** An object that the classification recognises: its code, upper-cased,
    is a transient code, or its message contains a transient phrase or
    matches a transient regex. *)
Definition transient_node (o : object) : Prop :=
  (exists c, get o "code" = VStr c /\ toUpperCase c ∈ TRANSIENT_ERROR_CODES) \/
  (exists m phrase,
     get o "message" = VStr m /\ phrase ∈ TRANSIENT_ERROR_PHRASES /\
     (includes m phrase = true \/ includes (toLowerCase m) phrase = true)) \/
  (exists m r,
     get o "message" = VStr m /\ r ∈ TRANSIENT_ERROR_REGEXES /\
     test true r m = true).

Section Traversal.
Variable h : heap.
Variable root : value.

(** The object at [a] has been read, and each of its nested errors is
    visited, pending on the stack, or not an object of the store. *)
Definition settled (stack : list value) (visited : gset nat)
    (messages codes : list string) (a : nat) : Prop :=
  exists o, h !! a = Some o /\
    (forall m, get o "message" = VStr m -> m ∈ messages) /\
    (forall c, get o "code" = VStr c -> c ∈ codes) /\
    (forall b, VRef b ∈ possibleNestedErrors o ->
       b ∈ visited \/ VRef b ∈ stack \/ h !! b = None).

(** The invariant of the loop of [collectErrorDetails]. *)
Definition traversal_inv (stack : list value) (visited : gset nat)
    (messages codes : list string) : Prop :=
  (forall a, a ∈ visited -> settled stack visited messages codes a) /\
  (root ∈ stack \/ forall a, root = VRef a -> a ∈ visited \/ h !! a = None).

(** What bounds the iterations still to come. *)
Definition potential (stack : list value) (visited : gset nat) : nat :=
  (length stack + 3 * size (set_seq 0 (length h) ∖ visited : gset nat))%nat.
End Traversal.

(** [getErrorStatus]. *)
Definition getErrorStatus (h : heap) (error : value) : option Z :=
  match as_object h error with
  | Some o =>
      match get o "status" with
      | VNum status => Some status
      | _ =>
          match as_object h (get o "response") with
          | Some response =>
              match get response "status" with
              | VNum status => Some status
              | _ => None
              end
          | None => None
          end
      end
  | None => None
  end.

(** [defaultShouldRetry]; the [message] of an [Error] instance is a
    string, as its type declares.  [/5\d{2}/] is the regex below. *)
Definition FIVE_XX : regex := Seq (Chr "5") (Seq Digit Digit).

Definition defaultShouldRetry (h : heap) (error : value) : bool :=
  let by_status :=
    match as_object h error with
    | Some o =>
        match get o "status" with
        | VNum status => (status =? 429) || ((500 <=? status) && (status <? 600))
        | _ => false
        end
    | None => false
    end in
  let by_message :=
    match as_object h error with
    | Some o =>
        if is_error o then
          match get o "message" with
          | VStr message =>
              truthy (VStr message) &&
              (includes message "429" || test false FIVE_XX message)
          | _ => false
          end
        else false
    | None => false
    end in
  if by_status then true
  else if by_message then true
  else if default false (isNetworkTransientError h error) then true
  else false.

Section Delay.
(** The platform's date parser: [new Date(s).getTime()], [None] for
    [NaN]. *)
Variable Date_parse : string -> option Z.

(** [getRetryAfterDelayMs]; [now] is the reading of [Date.now()]. *)
Definition getRetryAfterDelayMs (now : Z) (h : heap) (error : value) : Z :=
  match as_object h error with
  | Some o =>
      match as_object h (get o "response") with
      | Some response =>
          match as_object h (get response "headers") with
          | Some headers =>
              match get headers "retry-after" with
              | VStr retryAfterHeader =>
                  match parseInt10 retryAfterHeader with
                  | Some retryAfterSeconds => retryAfterSeconds * 1000
                  | None =>
                      match Date_parse retryAfterHeader with
                      | Some retryAfterDate => Z.max 0 (retryAfterDate - now)
                      | None => 0
                      end
                  end
              | _ => 0
              end
          | None => 0
          end
      | None => 0
      end
  | None => 0
  end.

(** [getDelayDurationAndStatus]. *)
Definition getDelayDurationAndStatus (now : Z) (h : heap) (error : value)
    : Z * option Z :=
  let errorStatus := getErrorStatus h error in
  let delayDurationMs :=
    if bool_decide (errorStatus = Some 429)
    then getRetryAfterDelayMs now h error
    else 0 in
  (delayDurationMs, errorStatus).
End Delay.

(** The [Retry-After] header that the response of an error exposes:
    [error.response.headers['retry-after']]. *)
Definition retryAfterHeader (h : heap) (error : value) : option value :=
  o ← as_object h error;
  response ← as_object h (get o "response");
  headers ← as_object h (get response "headers");
  Some (get headers "retry-after").

Record RetryOptions : Type := {
  maxAttempts : Z;
  initialDelayMs : Q;
  maxDelayMs : Q;
  shouldRetry : value -> bool;
}.

(** [Partial<RetryOptions>]: [None] is an absent key.  The optional
    callback [trackThrottleWaitTime] is represented by its presence; its
    calls are recorded in the trace. *)
Record PartialRetryOptions : Type := {
  opt_maxAttempts : option Z;
  opt_initialDelayMs : option Q;
  opt_maxDelayMs : option Q;
  opt_shouldRetry : option (value -> bool);
  opt_trackThrottleWaitTime : bool;
}.

Definition DEFAULT_RETRY_OPTIONS (h : heap) : RetryOptions := {|
  maxAttempts := 5;
  initialDelayMs := 5000;
  maxDelayMs := 30000;
  shouldRetry := defaultShouldRetry h;
|}.

(** [{ ...DEFAULT_RETRY_OPTIONS, ...options }]. *)
Definition merge_options (d : RetryOptions) (options : option PartialRetryOptions)
    : RetryOptions :=
  match options with
  | None => d
  | Some o => {|
      maxAttempts := default (maxAttempts d) (opt_maxAttempts o);
      initialDelayMs := default (initialDelayMs d) (opt_initialDelayMs o);
      maxDelayMs := default (maxDelayMs d) (opt_maxDelayMs o);
      shouldRetry := default (shouldRetry d) (opt_shouldRetry o);
    |}
  end.

(** [options?.trackThrottleWaitTime]. *)
Definition tracker (options : option PartialRetryOptions) : bool :=
  match options with
  | None => false
  | Some o => opt_trackThrottleWaitTime o
  end.

(** What one invocation of [fn] does. *)
Inductive outcome (T : Type) : Type :=
| Returned (v : T)
| Threw (error : value).
Global Arguments Returned {T} v.
Global Arguments Threw {T} error.

(** What [retryWithBackoff] throws: an error thrown by [fn], or its own
    [new Error('Retry attempts exhausted')]. *)
Inductive thrown : Type :=
| ThrownError (error : value)
| RetryAttemptsExhausted.

Inductive result (T : Type) : Type :=
| Resolved (v : T)
| Rejected (e : thrown).
Global Arguments Resolved {T} v.
Global Arguments Rejected {T} e.

(** Observable effects, in order. *)
Inductive event : Type :=
| EvInvoke                (* fn() *)
| EvSleep (ms : Q)        (* delay(ms) *)
| EvTrack (ms : Q).       (* options.trackThrottleWaitTime(ms) *)

Record loop_state : Type := {
  attempt : Z;
  currentDelay : Q;
  calls : nat;              (* invocations of fn so far *)
  draws : nat;              (* calls of Math.random so far *)
  trace : list event;
}.

Section Engine.
Context {T : Type}.
Variable Date_parse : string -> option Z.
(** Reading of the clock during the handling of the n-th failure. *)
Variable Date_now : nat -> Z.
(** The n-th result of [Math.random()]. *)
Variable random : nat -> Q.
(** The store in which the thrown errors live. *)
Variable h : heap.
(** The n-th invocation of [fn] (from 0). *)
Variable fn : nat -> outcome T.
Variable options : option PartialRetryOptions.

Definition merged : RetryOptions :=
  merge_options (DEFAULT_RETRY_OPTIONS h) options.

Definition track (ms : Q) : list event :=
  if tracker options then [EvTrack ms] else [].

(** The [while (attempt < maxAttempts)] loop. *)
Fixpoint retry_loop (fuel : nat) (st : loop_state)
    : option (result T * loop_state) :=
  match fuel with
  | O => None
  | S fuel =>
      if attempt st <? maxAttempts merged then
        let attempt' := attempt st + 1 in
        let invoked := trace st ++ [EvInvoke] in
        match fn (calls st) with
        | Returned v =>
            Some (Resolved v,
                  {| attempt := attempt'; currentDelay := currentDelay st;
                     calls := S (calls st); draws := draws st;
                     trace := invoked |})
        | Threw error =>
            if (attempt' >=? maxAttempts merged) || negb (shouldRetry merged error)
            then
              Some (Rejected (ThrownError error),
                    {| attempt := attempt'; currentDelay := currentDelay st;
                       calls := S (calls st); draws := draws st;
                       trace := invoked |})
            else
              let '(delayDurationMs, _) :=
                getDelayDurationAndStatus Date_parse (Date_now (calls st)) h error in
              if 0 <? delayDurationMs then
                let ms := inject_Z delayDurationMs in
                retry_loop fuel
                  {| attempt := attempt';
                     currentDelay := initialDelayMs merged;
                     calls := S (calls st); draws := draws st;
                     trace := invoked ++ [EvSleep ms] ++ track ms |}
              else
                let jitter :=
                  (currentDelay st * (3 # 10) * (random (draws st) * 2 - 1))%Q in
                let delayWithJitter := Qmax 0 (currentDelay st + jitter) in
                retry_loop fuel
                  {| attempt := attempt';
                     currentDelay := Qmin (maxDelayMs merged) (currentDelay st * 2);
                     calls := S (calls st); draws := S (draws st);
                     trace := invoked ++ [EvSleep delayWithJitter]
                                      ++ track delayWithJitter |}
        end
      else Some (Rejected RetryAttemptsExhausted, st)
  end.

Definition initial_state : loop_state := {|
  attempt := 0;
  currentDelay := initialDelayMs merged;
  calls := O; draws := O; trace := [];
|}.

(** [retryWithBackoff(fn, options)]: every iteration but the last
    increments [attempt] below [maxAttempts], so [maxAttempts + 1]
    iterations suffice. *)
Definition retryWithBackoff : option (result T * loop_state) :=
  retry_loop (S (Z.to_nat (maxAttempts merged))) initial_state.
End Engine.

End Retry.

(* ===================================================================== *)
(** ** [prompt-config/TemplateEngine.ts] *)
(* ===================================================================== *)

Module TemplateEngine.
Import JsString Js.

(** A value of the variable map. *)
Inductive tvalue : Type :=
| TNull
| TUndefined
| TString (s : string).

(** [TemplateVariables]: the properties of the object that [in] sees,
    each with its value, a value that is not a string standing as the
    string that [String] makes of it. *)
Abbreviation TemplateVariables := (gmap string tvalue).

Record TemplateProcessingOptions : Type := {
  debug : option bool;
}.

Section Process.
(** [process.env.DEBUG]. *)
Variable env_DEBUG : option string.
Variable options : option TemplateProcessingOptions.

(** [logSubstitution]: the lines written to the console. *)
Definition logSubstitution (variable value : string) : list string :=
  let debugEnabled :=
    bool_decide (env_DEBUG = Some "1") ||
    bool_decide (options ≫= debug = Some true) in
  if debugEnabled
  then ["Template substitution: " +:+ variable +:+ " -> " +:+ value]
  else [].

Variable content : string.
Variable vars : TemplateVariables.

(** How one iteration of the loop ends: with [break], or with the
    state of the next iteration. *)
Inductive iteration : Type :=
| Break (result : string) (log : list string)
| Continue (result : string) (currentPosition : nat) (log : list string).

(** The body of the [while] loop: the result so far, the position, the
    console lines so far. *)
Definition loop_body (result : string) (currentPosition : nat)
    (log : list string) : iteration :=
  match indexOf "{{" content currentPosition with
  | None =>
      Break (result +:+ drop currentPosition content) log
  | Some openBracketPos =>
      let result :=
        result +:+ substring currentPosition openBracketPos content in
      match indexOf "}}" content (openBracketPos + 2) with
      | None =>
          Break (result +:+ drop openBracketPos content) log
      | Some closeBracketPos =>
          let variableName :=
            trim (substring (openBracketPos + 2) closeBracketPos content) in
          if String.eqb variableName EmptyString then
            Continue
              (result +:+ substring openBracketPos (closeBracketPos + 2) content)
              (closeBracketPos + 2) log
          else if includes variableName "{{" || includes variableName "}}" then
            Continue
              (result +:+ substring openBracketPos (openBracketPos + 2) content)
              (openBracketPos + 2) log
          else
            match vars !! variableName with
            | Some (TString variableValue) =>
                Continue (result +:+ variableValue) (closeBracketPos + 2)
                  (log ++ logSubstitution variableName variableValue)
            | Some TNull | Some TUndefined =>
                Continue result (closeBracketPos + 2) log
            | None =>
                Continue result (closeBracketPos + 2)
                  (log ++ logSubstitution variableName EmptyString)
            end
      end
  end.

(** The [while (currentPosition < contentLength)] loop. *)
Fixpoint process_loop (fuel : nat) (result : string) (currentPosition : nat)
    (log : list string) : option (string * list string) :=
  match fuel with
  | O => None
  | S fuel =>
      let contentLength := String.length content in
      if (currentPosition <? contentLength)%nat then
        match loop_body result currentPosition log with
        | Break result log => Some (result, log)
        | Continue result currentPosition log =>
            process_loop fuel result currentPosition log
        end
      else Some (result, log)
  end.
End Process.

(** An iteration that starts from the result [result], the position
    [pos] and the lines [log], in terms of the same iteration started
    from nothing on the suffix at [pos]. *)
Definition shifted (result : string) (pos : nat) (log : list string)
    (it : iteration) : iteration :=
  match it with
  | Break o lg => Break (result +:+ o) (log ++ lg)
  | Continue piece p lg => Continue (result +:+ piece) (pos + p) (log ++ lg)
  end.

Definition extend (result : string) (log : list string)
    (r : string * list string) : string * list string :=
  (result +:+ r.1, log ++ r.2).

(** [processTemplate(content, variables, options)]: the returned value
    and the console lines.  Every iteration advances the position, so
    [length content + 1] iterations suffice. *)
Definition processTemplate (env_DEBUG : option string) (content : value)
    (variables : option TemplateVariables)
    (options : option TemplateProcessingOptions)
    : option (value * list string) :=
  match content with
  | VNull | VUndefined => Some (VStr EmptyString, [])
  | VStr content =>
      let vars := default ∅ variables in
      match process_loop env_DEBUG options content vars
              (S (String.length content)) EmptyString 0 [] with
      | Some (result, log) => Some (VStr result, log)
      | None => None
      end
  | _ => Some (content, [])
  end.

(** The string returned for a string template. *)
Definition render (env_DEBUG : option string)
    (options : option TemplateProcessingOptions)
    (content : string) (vars : TemplateVariables) : option string :=
  match processTemplate env_DEBUG (VStr content) (Some vars) options with
  | Some (VStr result, _) => Some result
  | _ => None
  end.

End TemplateEngine.

(* ===================================================================== *)
(** ** JSON values *)
(* ===================================================================== *)

Module Json.
Import JsString.

(** A number with a finite decimal expansion: [mantissa * 10^exponent].
    It is canonical when the mantissa is zero and so is the exponent, or
    the mantissa is not a multiple of ten. *)
Record number : Type := Number {
  mantissa : Z;
  exponent : Z;
}.

Inductive json : Type :=
| JNull
| JBool (b : bool)
| JNumber (n : number)
| JString (s : string)
| JArray (items : list json)
| JObject (fields : list (string * json)).

Definition number_value (n : number) : Q :=
  (inject_Z (mantissa n) * Qpower 10 (exponent n))%Q.

Fixpoint lookup_field (fields : list (string * json)) (k : string) : option json :=
  match fields with
  | [] => None
  | (k', v) :: rest => if String.eqb k' k then Some v else lookup_field rest k
  end.

(** [v[k]] for a key that is not a built-in property of strings,
    numbers, booleans or arrays; [None] is [undefined].  Not defined on
    [null], where the access throws. *)
Definition prop (v : json) (k : string) : option json :=
  match v with
  | JObject fields => lookup_field fields k
  | _ => None
  end.

(** Truthiness of [v[k]]. *)
Definition truthy (v : option json) : bool :=
  match v with
  | None | Some JNull => false
  | Some (JBool b) => b
  | Some (JNumber n) => negb (mantissa n =? 0)
  | Some (JString s) => negb (String.eqb s EmptyString)
  | Some (JArray _) | Some (JObject _) => true
  end.

(** [v === 1]. *)
Definition is_one (v : option json) : bool :=
  match v with
  | Some (JNumber n) => Qeq_bool (number_value n) 1
  | _ => false
  end.

End Json.

(* ===================================================================== *)
(** ** [config/profileManager.ts] *)
(* ===================================================================== *)

Module ProfileManager.
Import JsString Json.

Inductive error_class : Type := ClsError | ClsSyntaxError | ClsTypeError.

(** A thrown error: its constructor and its message.  Every class is a
    subclass of [Error]. *)
Record js_error : Type := JsError {
  cls : error_class;
  message : string;
}.

Global Instance error_class_eq_dec : EqDecision error_class.
Proof. solve_decision. Defined.

(** The files of the disk, by path.  Reading a missing file fails with
    [ENOENT]; other failures of the file system are not modelled, and
    [mkdir] with [recursive] changes nothing that is observed here. *)
Abbreviation filesystem := (gmap string string).

Definition readFile (fs : filesystem) (path : string) : js_error + string :=
  match fs !! path with
  | Some content => inr content
  | None =>
      inl (JsError ClsError
             ("ENOENT: no such file or directory, open '" +:+ path +:+ "'"))
  end.

Definition writeFile (fs : filesystem) (path content : string) : filesystem :=
  <[path := content]> fs.

(** The five fields that [loadProfile] requires are all truthy. *)
Definition required_fields_truthy (p : json) : bool :=
  truthy (prop p "version") && truthy (prop p "provider") &&
  truthy (prop p "model") && truthy (prop p "modelParams") &&
  truthy (prop p "ephemeralSettings").

Section Manager.
(** The platform: [path.join], [os.homedir()], [JSON.stringify(v, null, 2)]
    and [JSON.parse], which returns the value or the message of the
    [SyntaxError] it throws. *)
Variable path_join : list string -> string.
Variable homedir : string.
Variable JSON_stringify : json -> string.
Variable JSON_parse : string -> string + json.

Record ProfileManager : Type := {
  profilesDir : string;
}.

(** [new ProfileManager(profilesDir?)]: an empty string is falsy. *)
Definition new_ProfileManager (dir : option string) : ProfileManager :=
  match dir with
  | Some d =>
      if String.eqb d EmptyString
      then {| profilesDir := path_join [homedir; ".llxprt"; "profiles"] |}
      else {| profilesDir := d |}
  | None => {| profilesDir := path_join [homedir; ".llxprt"; "profiles"] |}
  end.

Definition profile_path (this : ProfileManager) (profileName : string) : string :=
  path_join [profilesDir this; profileName +:+ ".json"].

(** [saveProfile(profileName, profile)]. *)
Definition saveProfile (this : ProfileManager) (fs : filesystem)
    (profileName : string) (profile : json) : filesystem :=
  let filePath := profile_path this profileName in
  writeFile fs filePath (JSON_stringify profile).

(** The [try] block of [loadProfile]. *)
Definition loadProfile_try (fs : filesystem) (filePath : string)
    : js_error + json :=
  match readFile fs filePath with
  | inl e => inl e
  | inr content =>
      match JSON_parse content with
      | inl msg => inl (JsError ClsSyntaxError msg)
      | inr JNull =>
          inl (JsError ClsTypeError
                 "Cannot read properties of null (reading 'version')")
      | inr profile =>
          if negb (truthy (prop profile "version")) ||
             negb (truthy (prop profile "provider")) ||
             negb (truthy (prop profile "model")) ||
             negb (truthy (prop profile "modelParams")) ||
             negb (truthy (prop profile "ephemeralSettings"))
          then inl (JsError ClsError "missing required fields")
          else if negb (is_one (prop profile "version"))
          then inl (JsError ClsError "unsupported profile version")
          else inr profile
      end
  end.

(** [loadProfile(profileName)]: the [try] block and its [catch]. *)
Definition loadProfile (this : ProfileManager) (fs : filesystem)
    (profileName : string) : js_error + json :=
  let filePath := profile_path this profileName in
  match loadProfile_try fs filePath with
  | inr profile => inr profile
  | inl error =>
      if includes (message error) "ENOENT" then
        inl (JsError ClsError ("Profile '" +:+ profileName +:+ "' not found"))
      else if bool_decide (cls error = ClsSyntaxError) then
        inl (JsError ClsError ("Profile '" +:+ profileName +:+ "' is corrupted"))
      else if String.eqb (message error) "missing required fields" then
        inl (JsError ClsError
               ("Profile '" +:+ profileName +:+
                "' is invalid: missing required fields"))
      else inl error
  end.
End Manager.

End ProfileManager.

(* ===================================================================== *)
(** ** JSON text: an executable [JSON.stringify(v, null, 2)] and
       [JSON.parse] *)
(* ===================================================================== *)

(** These follow ECMAScript's [SerializeJSONProperty] with a gap of two
    spaces and the JSON grammar, over strings of code units below 256 and
    numbers with a finite decimal expansion.  They instantiate the
    platform functions of [ProfileManager] on concrete inputs. *)
Module JsonText.
Import JsString Json.

Definition dquote : ascii := ascii_of_nat 34.
Definition backslash : ascii := ascii_of_nat 92.
Definition newline : string := String (ascii_of_nat 10) EmptyString.

Definition hex_digit (n : nat) : ascii :=
  if (n <? 10)%nat then ascii_of_nat (48 + n) else ascii_of_nat (87 + n).

(** The escape of one code unit in [QuoteJSONString]. *)
Definition quote_char (c : ascii) : string :=
  let n := code c in
  if decide (c = dquote) then String backslash (String dquote EmptyString)
  else if decide (c = backslash) then String backslash (String backslash EmptyString)
  else match n with
       | 8%nat => String backslash "b"
       | 9%nat => String backslash "t"
       | 10%nat => String backslash "n"
       | 12%nat => String backslash "f"
       | 13%nat => String backslash "r"
       | _ =>
           if (n <? 32)%nat
           then String backslash
                  ("u00" +:+ String (hex_digit (n / 16))
                               (String (hex_digit (n mod 16)) EmptyString))
           else String c EmptyString
       end.

Fixpoint quote_body (s : string) : string :=
  match s with
  | EmptyString => String dquote EmptyString
  | String c r => quote_char c +:+ quote_body r
  end.

Definition quote (s : string) : string := String dquote (quote_body s).

Fixpoint zeros (k : nat) : string :=
  match k with
  | O => EmptyString
  | S k => String "0" (zeros k)
  end.

(** [Number::toString] for [mantissa * 10^exponent]. *)
Definition number_to_string (x : number) : string :=
  let m := mantissa x in
  if m =? 0 then "0"
  else
    let s := pretty (Z.abs_N m) in
    let k := Z.of_nat (String.length s) in
    let n := k + exponent x in
    let sign := if m <? 0 then "-" else EmptyString in
    sign +:+
    (if (k <=? n) && (n <=? 21) then s +:+ zeros (Z.to_nat (n - k))
     else if (0 <? n) && (n <=? 21)
     then take (Z.to_nat n) s +:+ "." +:+ drop (Z.to_nat n) s
     else if (-6 <? n) && (n <=? 0) then "0." +:+ zeros (Z.to_nat (- n)) +:+ s
     else
       let e := n - 1 in
       let es := (if e <? 0 then "-" else "+") +:+ pretty (Z.abs_N e) in
       if k =? 1 then s +:+ "e" +:+ es
       else take 1 s +:+ "." +:+ drop 1 s +:+ "e" +:+ es).

Fixpoint join (sep : string) (l : list string) : string :=
  match l with
  | [] => EmptyString
  | [x] => x
  | x :: rest => x +:+ sep +:+ join sep rest
  end.

(** [SerializeJSONProperty] at the given indentation. *)
Fixpoint stringify_at (indent : string) (v : json) : string :=
  match v with
  | JNull => "null"
  | JBool true => "true"
  | JBool false => "false"
  | JNumber n => number_to_string n
  | JString s => quote s
  | JArray [] => "[]"
  | JArray items =>
      let inner := indent +:+ "  " in
      "[" +:+ newline +:+ inner +:+
      join ("," +:+ newline +:+ inner) (map (stringify_at inner) items) +:+
      newline +:+ indent +:+ "]"
  | JObject [] => "{}"
  | JObject fields =>
      let inner := indent +:+ "  " in
      "{" +:+ newline +:+ inner +:+
      join ("," +:+ newline +:+ inner)
           (map (fun kv => quote (fst kv) +:+ ": " +:+ stringify_at inner (snd kv))
                fields) +:+
      newline +:+ indent +:+ "}"
  end.

(** [JSON.stringify(v, null, 2)]. *)
Definition stringify (v : json) : string := stringify_at EmptyString v.

Definition is_ws (c : ascii) : bool :=
  match code c with
  | 9%nat | 10%nat | 13%nat | 32%nat => true
  | _ => false
  end.

Fixpoint skip_ws (s : string) : string :=
  match s with
  | EmptyString => EmptyString
  | String c r => if is_ws c then skip_ws r else s
  end.

Definition hex_value (c : ascii) : option nat :=
  let n := code c in
  if is_digit c then Some (n - 48)%nat
  else if (97 <=? n)%nat && (n <=? 102)%nat then Some (n - 87)%nat
  else if (65 <=? n)%nat && (n <=? 70)%nat then Some (n - 55)%nat
  else None.

(** The characters of a string literal after its opening quote, and the
    text after its closing quote. *)
Fixpoint parse_string_body (s : string) : option (string * string) :=
  match s with
  | EmptyString => None
  | String c r =>
      if decide (c = dquote) then Some (EmptyString, r)
      else if decide (c = backslash) then
        match r with
        | String e r' =>
            let simple (x : ascii) :=
              match parse_string_body r' with
              | Some (str, rest) => Some (String x str, rest)
              | None => None
              end in
            if decide (e = dquote) then simple dquote
            else if decide (e = backslash) then simple backslash
            else if decide (e = "/"%char) then simple "/"%char
            else if decide (e = "b"%char) then simple (ascii_of_nat 8)
            else if decide (e = "f"%char) then simple (ascii_of_nat 12)
            else if decide (e = "n"%char) then simple (ascii_of_nat 10)
            else if decide (e = "r"%char) then simple (ascii_of_nat 13)
            else if decide (e = "t"%char) then simple (ascii_of_nat 9)
            else if decide (e = "u"%char) then
              match r' with
              | String h1 (String h2 (String h3 (String h4 r''))) =>
                  match hex_value h1, hex_value h2, hex_value h3, hex_value h4 with
                  | Some 0%nat, Some 0%nat, Some a, Some b =>
                      match parse_string_body r'' with
                      | Some (str, rest) =>
                          Some (String (ascii_of_nat (16 * a + b)) str, rest)
                      | None => None
                      end
                  | _, _, _, _ => None
                  end
              | _ => None
              end
            else None
        | EmptyString => None
        end
      else if (code c <? 32)%nat then None
      else
        match parse_string_body r with
        | Some (str, rest) => Some (String c str, rest)
        | None => None
        end
  end.

(** The longest prefix of decimal digits, and the rest. *)
Fixpoint span_digits (s : string) : string * string :=
  match s with
  | EmptyString => (EmptyString, EmptyString)
  | String c r =>
      if is_digit c
      then let '(ds, rest) := span_digits r in (String c ds, rest)
      else (EmptyString, s)
  end.

(** Removal of the trailing zeros of a mantissa. *)
Fixpoint normalize (fuel : nat) (m e : Z) : number :=
  match fuel with
  | O => Number m e
  | S fuel =>
      if m =? 0 then Number 0 0
      else if m mod 10 =? 0 then normalize fuel (m / 10) (e + 1)
      else Number m e
  end.

(** The text after the character [c], when the text starts with it. *)
Definition expect (c : ascii) (s : string) : option string :=
  match s with
  | String a r => if decide (a = c) then Some r else None
  | EmptyString => None
  end.

Definition literal (word : string) (v : json) (s : string)
    : option (json * string) :=
  if startsWith word s then Some (v, drop (String.length word) s) else None.

(** A JSON number: [-? int frac? exp?]. *)
Definition parse_sign (s : string) : bool * string :=
  match expect "-" s with
  | Some r => (true, r)
  | None => (false, s)
  end.

Definition parse_int (s : string) : option (string * string) :=
  let '(int, rest) := span_digits s in
  if String.eqb int EmptyString then None
  else if startsWith "0" int && negb (String.eqb int "0") then None
  else Some (int, rest).

Definition parse_frac (s : string) : option (string * string) :=
  match expect "." s with
  | Some r =>
      let '(frac, rest) := span_digits r in
      if String.eqb frac EmptyString then None else Some (frac, rest)
  | None => Some (EmptyString, s)
  end.

Definition exp_marker (s : string) : option string :=
  match expect "e" s with
  | Some r => Some r
  | None => expect "E" s
  end.

Definition exp_sign (s : string) : Z * string :=
  match expect "-" s with
  | Some r => (-1, r)
  | None =>
      match expect "+" s with
      | Some r => (1, r)
      | None => (1, s)
      end
  end.

Definition parse_exp (s : string) : option (Z * string) :=
  match exp_marker s with
  | Some r =>
      let '(esign, r) := exp_sign r in
      let '(ds, rest) := span_digits r in
      if String.eqb ds EmptyString then None
      else Some (esign * decimal_value ds, rest)
  | None => Some (0, s)
  end.

Definition parse_number (s : string) : option (number * string) :=
  let '(negative, s) := parse_sign s in
  match parse_int s with
  | None => None
  | Some (int, s) =>
      match parse_frac s with
      | None => None
      | Some (frac, s) =>
          match parse_exp s with
          | None => None
          | Some (e, rest) =>
              let digits := int +:+ frac in
              let m := decimal_value digits in
              let m := if negative then - m else m in
              Some (normalize (String.length digits) m
                              (e - Z.of_nat (String.length frac)), rest)
          end
      end
  end.

(** [obj[k] = v] during parsing: a repeated key keeps its place and
    takes the later value. *)
Fixpoint set_field (fields : list (string * json)) (k : string) (v : json)
    : list (string * json) :=
  match fields with
  | [] => [(k, v)]
  | (k', v') :: rest =>
      if String.eqb k' k then (k', v) :: rest
      else (k', v') :: set_field rest k v
  end.

Fixpoint parse_value (fuel : nat) (s : string) : option (json * string) :=
  match fuel with
  | O => None
  | S fuel =>
      match skip_ws s with
      | EmptyString => None
      | String c r as s' =>
          if decide (c = "n"%char) then literal "null" JNull s'
          else if decide (c = "t"%char) then literal "true" (JBool true) s'
          else if decide (c = "f"%char) then literal "false" (JBool false) s'
          else if decide (c = dquote) then
            match parse_string_body r with
            | Some (str, rest) => Some (JString str, rest)
            | None => None
            end
          else if decide (c = "["%char) then
            match expect "]" (skip_ws r) with
            | Some rest => Some (JArray [], rest)
            | None =>
                match parse_elements fuel r with
                | Some (items, rest) => Some (JArray items, rest)
                | None => None
                end
            end
          else if decide (c = "{"%char) then
            match expect "}" (skip_ws r) with
            | Some rest => Some (JObject [], rest)
            | None =>
                match parse_members fuel r [] with
                | Some (fields, rest) => Some (JObject fields, rest)
                | None => None
                end
            end
          else
            match parse_number s' with
            | Some (n, rest) => Some (JNumber n, rest)
            | None => None
            end
      end
  end
with parse_elements (fuel : nat) (s : string) : option (list json * string) :=
  match fuel with
  | O => None
  | S fuel =>
      match parse_value fuel s with
      | Some (v, rest) =>
          let rest := skip_ws rest in
          match expect "," rest with
          | Some rest' =>
              match parse_elements fuel rest' with
              | Some (vs, rest'') => Some (v :: vs, rest'')
              | None => None
              end
          | None =>
              match expect "]" rest with
              | Some rest' => Some ([v], rest')
              | None => None
              end
          end
      | None => None
      end
  end
with parse_members (fuel : nat) (s : string) (acc : list (string * json))
    : option (list (string * json) * string) :=
  match fuel with
  | O => None
  | S fuel =>
      match expect dquote (skip_ws s) with
      | Some r =>
          match parse_string_body r with
          | Some (k, rest) =>
              match expect ":" (skip_ws rest) with
              | Some rest' =>
                  match parse_value fuel rest' with
                  | Some (v, rest'') =>
                      let acc := set_field acc k v in
                      let rest'' := skip_ws rest'' in
                      match expect "," rest'' with
                      | Some rest3 => parse_members fuel rest3 acc
                      | None =>
                          match expect "}" rest'' with
                          | Some rest3 => Some (acc, rest3)
                          | None => None
                          end
                      end
                  | None => None
                  end
              | None => None
              end
          | None => None
          end
      | None => None
      end
  end.

(** The values that the text round trip is proved for: every number is
    read back from its own text, and the keys of an object are
    distinct. *)
Global Instance number_eq_dec : EqDecision number.
Proof. solve_decision. Defined.

Definition number_ok (n : number) : bool :=
  match parse_number (number_to_string n) with
  | Some (n', rest) => bool_decide (n' = n) && String.eqb rest EmptyString
  | None => false
  end.

Fixpoint json_ok (v : json) : bool :=
  match v with
  | JNumber n => number_ok n
  | JArray items => forallb json_ok items
  | JObject fields =>
      bool_decide (NoDup (map fst fields)) &&
      forallb (fun kv => json_ok (snd kv)) fields
  | _ => true
  end.

(** A bound on the iterations that parsing the text of [v] takes. *)
Fixpoint json_size (v : json) : nat :=
  match v with
  | JArray items => S (list_sum (map (fun x => S (json_size x)) items))
  | JObject fields => S (list_sum (map (fun kv => S (json_size (snd kv))) fields))
  | _ => 1%nat
  end.

(** Text that cannot continue a number. *)
Definition terminated (rest : string) : Prop :=
  match rest with
  | EmptyString => True
  | String c _ =>
      is_digit c = false /\ c <> "."%char /\ c <> "e"%char /\ c <> "E"%char
  end.

Definition ws_only (s : string) : Prop :=
  forallb is_ws (list_ascii_of_string s) = true.

(** [JSON.parse(text)]; [None] when it throws a [SyntaxError]. *)
Definition parse (text : string) : option json :=
  match parse_value (S (String.length text)) text with
  | Some (v, rest) =>
      if String.eqb (skip_ws rest) EmptyString then Some v else None
  | None => None
  end.

(** Text that does not start with a digit. *)
Definition no_digit_head (rest : string) : Prop :=
  match rest with
  | EmptyString => True
  | String c _ => is_digit c = false
  end.

(** The text of [x] is read back as [x], whatever follows. *)
Definition reads (x : json) : Prop :=
  forall indent rest fuel,
    ws_only indent -> terminated rest -> (json_size x <= fuel)%nat ->
    parse_value fuel (stringify_at indent x +:+ rest) = Some (x, rest).

(** What [stringify_at] puts between the items written at [inner]. *)
Definition separator (inner : string) : string := "," +:+ newline +:+ inner.

(** The text of one member of an object. *)
Definition member_text (inner : string) (kv : string * json) : string :=
  quote kv.1 +:+ ": " +:+ stringify_at inner kv.2.

End JsonText.

(* ===================================================================== *)
(** ** [providers/ProviderManager.ts] *)
(* ===================================================================== *)

Module ProviderManager.
Import JsString.

(** A registered provider object: its identity, its [name], and whether
    it has a [clearState] method. *)
Record IProvider : Type := {
  ident : nat;
  name : string;
  has_clearState : bool;
}.

Global Instance IProvider_eq_dec : EqDecision IProvider.
Proof. solve_decision. Defined.

(** The part of [Config] that the manager consults: the result of
    [getProvider?.()] ([None] when absent or [undefined]) and of
    [getConversationLoggingEnabled()]. *)
Record Config : Type := {
  getProvider : option string;
  getConversationLoggingEnabled : bool;
}.

(** A component of a usage report: absent, [NaN], or an integer count. *)
Inductive count : Type :=
| CUndefined
| CNaN
| CNum (n : Z).

Record usage : Type := {
  u_input : count;
  u_output : count;
  u_cache : count;
  u_tool : count;
  u_thought : count;
}.

Record token_usage : Type := {
  input : Z;
  output : Z;
  cache : Z;
  tool : Z;
  thought : Z;
  total : Z;
}.

(** Effects on the collaborators, in order. *)
Inductive effect : Type :=
| ClearState (provider : nat)
| LogProviderSwitch (previous next : string).

(** The manager together with its [SettingsService], a key-value store.
    [providers] is a [Map]: its keys are distinct and in insertion
    order. *)
Record manager : Type := {
  providers : list (string * IProvider);
  serverToolsProvider : option IProvider;
  config : option Config;
  settings : gmap string string;
  sessionTokenUsage : token_usage;
  effects : list effect;
}.

(** [this.providers.get(name)] and [this.providers.has(name)]. *)
Fixpoint providers_get (ps : list (string * IProvider)) (n : string)
    : option IProvider :=
  match ps with
  | [] => None
  | (k, p) :: rest => if String.eqb k n then Some p else providers_get rest n
  end.
Definition providers_has (ps : list (string * IProvider)) (n : string) : bool :=
  bool_decide (is_Some (providers_get ps n)).

(** [(this.settingsService.get('activeProvider') as string) || ''] *)
Definition settings_activeProvider (m : manager) : string :=
  default EmptyString (settings m !! "activeProvider").

Definition nonempty (s : string) : bool := negb (String.eqb s EmptyString).

Definition with_settings (m : manager) (s : gmap string string) : manager :=
  {| providers := providers m; serverToolsProvider := serverToolsProvider m;
     config := config m; settings := s;
     sessionTokenUsage := sessionTokenUsage m; effects := effects m |}.
Definition with_serverToolsProvider (m : manager) (p : option IProvider) : manager :=
  {| providers := providers m; serverToolsProvider := p;
     config := config m; settings := settings m;
     sessionTokenUsage := sessionTokenUsage m; effects := effects m |}.
Definition with_sessionTokenUsage (m : manager) (u : token_usage) : manager :=
  {| providers := providers m; serverToolsProvider := serverToolsProvider m;
     config := config m; settings := settings m;
     sessionTokenUsage := u; effects := effects m |}.
Definition emit (m : manager) (e : list effect) : manager :=
  {| providers := providers m; serverToolsProvider := serverToolsProvider m;
     config := config m; settings := settings m;
     sessionTokenUsage := sessionTokenUsage m; effects := effects m ++ e |}.

(** [setActiveProvider(name)]: the message of the error thrown, or the
    new state. *)
Definition setActiveProvider (m : manager) (n : string) : string + manager :=
  if negb (providers_has (providers m) n) then inl "Provider not found"
  else
    let previousProviderName := settings_activeProvider m in
    let switching :=
      nonempty previousProviderName && negb (String.eqb previousProviderName n) in
    let cleared :=
      if switching then
        match providers_get (providers m) previousProviderName with
        | Some previousProvider =>
            if negb (bool_decide (Some previousProvider = serverToolsProvider m))
               && has_clearState previousProvider
            then [ClearState (ident previousProvider)]
            else []
        | None => []
        end
      else [] in
    let logged :=
      if default false (getConversationLoggingEnabled <$> config m) && switching
      then [LogProviderSwitch previousProviderName n]
      else [] in
    let m := emit m (cleared ++ logged) in
    let m := with_settings m (<["activeProvider" := n]> (settings m)) in
    let m :=
      if String.eqb n "gemini" then
        match serverToolsProvider m with
        | Some p =>
            if String.eqb (name p) "gemini" then m
            else with_serverToolsProvider m (providers_get (providers m) n)
        | None => with_serverToolsProvider m (providers_get (providers m) n)
        end
      else
        match serverToolsProvider m with
        | None =>
            if providers_has (providers m) "gemini"
            then with_serverToolsProvider m (providers_get (providers m) "gemini")
            else m
        | Some _ => m
        end in
    inr m.

(** [clearActiveProvider()]. *)
Definition clearActiveProvider (m : manager) : manager :=
  with_settings m (<["activeProvider" := EmptyString]> (settings m)).

(** The name chosen by [getActiveProvider] when the settings hold none:
    the chain of [if]s that assigns [resolvedName]. *)
Definition fallbackName (m : manager) : string :=
  let preferredFromConfig := default EmptyString (config m ≫= getProvider) in
  if nonempty preferredFromConfig && providers_has (providers m) preferredFromConfig
  then preferredFromConfig
  else if providers_has (providers m) "openai" then "openai"
  else match providers m with
       | [] => EmptyString
       | (k, _) :: _ => k
       end.

(** [getActiveProvider()]: the provider or the message of the error
    thrown, and the state afterwards. *)
Definition getActiveProvider (m : manager) : (string + IProvider) * manager :=
  let activeProviderName := settings_activeProvider m in
  let resolved : (string + string) * manager :=
    if negb (nonempty activeProviderName) then
      let resolvedName := fallbackName m in
      if nonempty resolvedName then
        match setActiveProvider m resolvedName with
        | inr m' => (inr resolvedName, m')
        | inl error =>
            (inl ("Unable to set default provider '" +:+ resolvedName +:+
                  "': Error: " +:+ error), m)
        end
      else (inr resolvedName, m)
    else (inr activeProviderName, m) in
  match resolved with
  | (inl error, m') => (inl error, m')
  | (inr resolvedName, m') =>
      if negb (nonempty resolvedName) then (inl "No active provider set", m')
      else
        match providers_get (providers m') resolvedName with
        | Some provider => (inr provider, m')
        | None => (inl "Active provider not found", m')
        end
  end.

(** [x || 0] followed by [Math.max(0, _)]. *)
Definition or_zero (c : count) : Z :=
  match c with
  | CUndefined | CNaN => 0
  | CNum n => n
  end.
Definition clamp (c : count) : Z := Z.max 0 (or_zero c).

(** [accumulateSessionTokens(providerName, usage)]. *)
Definition accumulateSessionTokens (m : manager) (providerName : string)
    (u : usage) : manager :=
  let s := sessionTokenUsage m in
  with_sessionTokenUsage m {|
    input := input s + clamp (u_input u);
    output := output s + clamp (u_output u);
    cache := cache s + clamp (u_cache u);
    tool := tool s + clamp (u_tool u);
    thought := thought s + clamp (u_thought u);
    total := total s +
             (clamp (u_input u) + clamp (u_output u) + clamp (u_cache u) +
              clamp (u_tool u) + clamp (u_thought u));
  |}.

Definition zero_usage : token_usage :=
  {| input := 0; output := 0; cache := 0; tool := 0; thought := 0; total := 0 |}.

(** [resetSessionTokenUsage()]. *)
Definition resetSessionTokenUsage (m : manager) : manager :=
  with_sessionTokenUsage m zero_usage.

(** [getSessionTokenUsage()]: each field read with [|| 0]. *)
Definition getSessionTokenUsage (m : manager) : token_usage :=
  let s := sessionTokenUsage m in
  {| input := or_zero (CNum (input s));
     output := or_zero (CNum (output s));
     cache := or_zero (CNum (cache s));
     tool := or_zero (CNum (tool s));
     thought := or_zero (CNum (thought s));
     total := or_zero (CNum (total s)) |}.

(** A manager as its constructor leaves it. *)
Definition new_manager (cfg : option Config) (s : gmap string string) : manager :=
  {| providers := []; serverToolsProvider := None; config := cfg;
     settings := s; sessionTokenUsage := zero_usage; effects := [] |}.

(** The operations on the session counters. *)
Inductive token_op : Type :=
| Accumulate (providerName : string) (u : usage)
| Reset.

Definition apply_op (m : manager) (op : token_op) : manager :=
  match op with
  | Accumulate n u => accumulateSessionTokens m n u
  | Reset => resetSessionTokenUsage m
  end.

Definition run (m : manager) (ops : list token_op) : manager :=
  fold_left apply_op ops m.

(** No counter is negative and the total is the sum of the others. *)
Definition consistent (s : token_usage) : Prop :=
  0 <= input s /\ 0 <= output s /\ 0 <= cache s /\ 0 <= tool s /\
  0 <= thought s /\ 0 <= total s /\
  total s = input s + output s + cache s + tool s + thought s.

(** A name that is set: the empty string counts as unset. *)
Definition set_name (s : string) : option string :=
  if nonempty s then Some s else None.

(** The specification's ladder, in its words: the settings key if set;
    else [config.getProvider()] when that name is registered; else
    ["openai"] when registered; else the first registered provider. *)
Definition ladder_spec (settingsName cfgName : option string)
    (registered : list string) : option string :=
  match settingsName with
  | Some n => Some n
  | None =>
      match cfgName with
      | Some c =>
          if bool_decide (c ∈ registered) then Some c
          else if bool_decide ("openai" ∈ registered) then Some "openai"
          else head registered
      | None =>
          if bool_decide ("openai" ∈ registered) then Some "openai"
          else head registered
      end
  end.

End ProviderManager.

(* ===================================================================== *)
(** ** Concrete inputs *)
(* ===================================================================== *)

(** A platform on which the functions above run, and the values at which
    the theorems below are exercised. *)
Module NodePlatform.
Import JsString Json JsonText ProfileManager.

(** [path.join] on segments that need no normalisation. *)
Definition path_join (segments : list string) : string := join "/" segments.

(** [JSON.parse], with one message for every [SyntaxError]. *)
Definition JSON_parse (text : string) : string + json :=
  match parse text with
  | Some v => inr v
  | None => inl "Unexpected token in JSON"
  end.

Definition manager : ProfileManager :=
  {| profilesDir := "/home/u/.llxprt/profiles" |}.

Definition save : filesystem -> string -> json -> filesystem :=
  saveProfile path_join stringify manager.
Definition load : filesystem -> string -> js_error + json :=
  loadProfile path_join JSON_parse manager.

Definition one : json := JNumber (Number 1 0).

(** The profile of scenario S6. *)
Definition demo : json :=
  JObject [ ("version", one); ("provider", JString "openai");
            ("model", JString "gpt-x");
            ("modelParams", JObject [("temperature", JNumber (Number 2 (-1)))]);
            ("ephemeralSettings",
             JObject [("base-url", JString "https://api.example")]) ].

(** A profile whose provider is the empty string. *)
Definition no_provider : json :=
  JObject [ ("version", one); ("provider", JString EmptyString);
            ("model", JString "gpt-x");
            ("modelParams", JObject []);
            ("ephemeralSettings", JObject []) ].

(** A profile of version 2. *)
Definition version_two : json :=
  JObject [ ("version", JNumber (Number 2 0)); ("provider", JString "openai");
            ("model", JString "gpt-x");
            ("modelParams", JObject []);
            ("ephemeralSettings", JObject []) ].

Definition demo_path : string := "/home/u/.llxprt/profiles/demo.json".
End NodePlatform.

Module RetryExamples.
Import Js Retry.

(** A throttled response: headers, response and error. *)
Definition retry_after_headers : object :=
  Object {[ "retry-after" := VStr "2" ]} false.
Definition response_429 : object :=
  Object {[ "status" := VNum 429; "headers" := VRef 0%nat ]} false.
Definition too_many_requests : object :=
  Object {[ "message" := VStr "Too Many Requests"; "status" := VNum 429;
            "response" := VRef 1%nat ]} true.

(** Two errors that refer to each other. *)
Definition request_failed : object :=
  Object {[ "message" := VStr "request failed"; "cause" := VRef 4%nat ]} true.
Definition connection_reset : object :=
  Object {[ "code" := VStr "econnreset"; "error" := VRef 3%nat ]} false.

(** A server error. *)
Definition service_unavailable : object :=
  Object {[ "message" := VStr "Service Unavailable"; "status" := VNum 503 ]} true.

Definition store : heap :=
  [ retry_after_headers; response_429; too_many_requests;
    request_failed; connection_reset; service_unavailable ].

Definition throttled : value := VRef 2%nat.
Definition unavailable : value := VRef 5%nat.

Definition throttled_then_ok (n : nat) : outcome string :=
  match n with
  | O => Threw throttled
  | S _ => Returned "ok"
  end.

Definition always_unavailable (n : nat) : outcome string := Threw unavailable.

Definition no_date (s : string) : option Z := None.
Definition epoch (n : nat) : Z := 0.
Definition quarter (n : nat) : Q := 1 # 4.

Definition attempts (n : Z) : option PartialRetryOptions :=
  Some {| opt_maxAttempts := Some n; opt_initialDelayMs := None;
          opt_maxDelayMs := None; opt_shouldRetry := None;
          opt_trackThrottleWaitTime := true |}.
End RetryExamples.

Module TemplateExamples.
Import TemplateEngine.

Definition model_only : TemplateVariables := {[ "MODEL" := TString "gpt-x" ]}.
End TemplateExamples.

(* ===================================================================== *)
(** ** Observations on the trace of [retryWithBackoff] *)
(* ===================================================================== *)

Module RetryTrace.
Import Js Retry.

(** The durations passed to [delay], in order. *)
Definition sleeps (t : list event) : list Q :=
  omap (fun e => match e with EvSleep ms => Some ms | _ => None end) t.

(** The durations passed to [options.trackThrottleWaitTime], in order. *)
Definition tracks (t : list event) : list Q :=
  omap (fun e => match e with EvTrack ms => Some ms | _ => None end) t.

(** The number of invocations of [fn]. *)
Definition invocations (t : list event) : nat :=
  length (omap (fun e => match e with EvInvoke => Some tt | _ => None end) t).

(** The delay from which the [k]-th consecutive backoff wait is drawn
    (from 0): [initialDelayMs], then its doublings capped by
    [maxDelayMs]. *)
Definition base_delay (o : RetryOptions) (k : nat) : Q :=
  match k with
  | O => initialDelayMs o
  | S _ => Qmin (maxDelayMs o) (initialDelayMs o * inject_Z (2 ^ Z.of_nat k))
  end.

Section Steps.
Context {T : Type}.
Variable Date_parse : string -> option Z.
Variable Date_now : nat -> Z.
Variable random : nat -> Q.
Variable h : heap.
Variable fn : nat -> outcome T.
Variable options : option PartialRetryOptions.

(** The state in which [retryWithBackoff] settles after the
    invocation made in [st]. *)
Definition invoked (st : loop_state) : loop_state :=
  {| attempt := attempt st + 1; currentDelay := currentDelay st;
     calls := S (calls st); draws := draws st;
     trace := trace st ++ [EvInvoke] |}.

(** The state of the next iteration after the invocation made in [st]
    threw [error] and the [catch] block waited. *)
Definition retried (st : loop_state) (error : value) : loop_state :=
  let delayDurationMs :=
    fst (getDelayDurationAndStatus Date_parse (Date_now (calls st)) h error) in
  if 0 <? delayDurationMs then
    let ms := inject_Z delayDurationMs in
    {| attempt := attempt st + 1;
       currentDelay := initialDelayMs (merged h options);
       calls := S (calls st); draws := draws st;
       trace := (trace st ++ [EvInvoke]) ++ [EvSleep ms] ++ track options ms |}
  else
    let jitter :=
      (currentDelay st * (3 # 10) * (random (draws st) * 2 - 1))%Q in
    let delayWithJitter := Qmax 0 (currentDelay st + jitter) in
    {| attempt := attempt st + 1;
       currentDelay := Qmin (maxDelayMs (merged h options)) (currentDelay st * 2);
       calls := S (calls st); draws := S (draws st);
       trace := (trace st ++ [EvInvoke]) ++ [EvSleep delayWithJitter]
                  ++ track options delayWithJitter |}.

(** The invocation made in [st] fails and the loop goes round. *)
Definition retries (st : loop_state) (error : value) : Prop :=
  attempt st + 1 < maxAttempts (merged h options) /\
  fn (calls st) = Threw error /\
  shouldRetry (merged h options) error = true.

(** The loop settles in [st'] with [res] from the state [st]. *)
Definition settles (st : loop_state) (res : result T) (st' : loop_state) : Prop :=
  (maxAttempts (merged h options) <= attempt st /\
   res = Rejected RetryAttemptsExhausted /\ st' = st)
  \/
  (attempt st < maxAttempts (merged h options) /\ st' = invoked st /\
   ((exists v, fn (calls st) = Returned v /\ res = Resolved v) \/
    (exists e, fn (calls st) = Threw e /\ res = Rejected (ThrownError e) /\
       (maxAttempts (merged h options) <= attempt st + 1 \/
        shouldRetry (merged h options) e = false)))).
End Steps.
End RetryTrace.

Module RetryAfterExamples.
Import Js Retry.

(** A throttled response whose [Retry-After] header is an HTTP date, and
    one whose header starts with a number. *)
Definition dated_headers : object :=
  Object {[ "retry-after" := VStr "Wed, 21 Oct 2015 07:28:00 GMT" ]} false.
Definition dated_response : object :=
  Object {[ "status" := VNum 429; "headers" := VRef 0%nat ]} false.
Definition dated_error : object :=
  Object {[ "message" := VStr "Too Many Requests"; "status" := VNum 429;
            "response" := VRef 1%nat ]} true.
Definition prefixed_headers : object :=
  Object {[ "retry-after" := VStr "2030-01-01" ]} false.
Definition prefixed_response : object :=
  Object {[ "headers" := VRef 3%nat ]} false.
Definition prefixed_error : object :=
  Object {[ "status" := VNum 429; "response" := VRef 4%nat ]} true.

Definition dated_store : heap :=
  [ dated_headers; dated_response; dated_error;
    prefixed_headers; prefixed_response; prefixed_error ].

(** A date parser that knows one date, and a clock 30 s before it. *)
Definition one_date (s : string) : option Z :=
  if String.eqb s "Wed, 21 Oct 2015 07:28:00 GMT" then Some 1445412480000
  else None.
Definition before (n : nat) : Z := 1445412450000.

Definition dated_then_ok (n : nat) : outcome string :=
  match n with
  | O => Threw (VRef 2%nat)
  | S _ => Returned "ok"
  end.
End RetryAfterExamples.

(* ===================================================================== *)
(** ** What [collectErrorDetails] reads *)
(* ===================================================================== *)

Module RetryChain.
Import JsString Regex Js Retry.

(** The values that the traversal meets: the error itself and the
    [cause], [originalError] and [error] of the objects of its chain. *)
Inductive reachable (h : heap) (root : value) : value -> Prop :=
| reach_root : reachable h root root
| reach_nested a o v :
    in_chain h root a -> h !! a = Some o ->
    v ∈ possibleNestedErrors o -> reachable h root v.

(** The strings of the chain: a string met by the traversal, or the
    [message] of an object of the chain. *)
Definition chain_text (h : heap) (root : value) (s : string) : Prop :=
  reachable h root (VStr s) \/
  exists a o, in_chain h root a /\ h !! a = Some o /\ get o "message" = VStr s.

(** The codes of the chain. *)
Definition chain_code (h : heap) (root : value) (c : string) : Prop :=
  exists a o, in_chain h root a /\ h !! a = Some o /\ get o "code" = VStr c.

(** A message that the classification recognises. *)
Definition transient_text (s : string) : bool :=
  some_phrase (toLowerCase s) || some_regex s.

(** What the traversal keeps, besides [traversal_inv]: it only meets
    values of the chain, it only collects strings and codes of the
    chain, and every non-empty string of the chain that it has met is
    collected or pending. *)
Definition collected_inv (h : heap) (root : value) (stack : list value)
    (visited : gset nat) (messages codes : list string) : Prop :=
  (forall v, v ∈ stack -> reachable h root v) /\
  (forall m, m ∈ messages -> chain_text h root m) /\
  (forall c, c ∈ codes -> chain_code h root c) /\
  (forall s, root = VStr s -> s ∈ messages \/ VStr s ∈ stack) /\
  (forall a o s, a ∈ visited -> h !! a = Some o ->
     VStr s ∈ possibleNestedErrors o -> s <> EmptyString ->
     s ∈ messages \/ VStr s ∈ stack).

(** Two errors that refer to each other, one of which has a string as
    its cause. *)
Definition upload_failed : object :=
  Object {[ "message" := VStr "upload failed"; "error" := VRef 1%nat ]} true.
Definition wrapped : object :=
  Object {[ "cause" := VStr "Socket Hang Up"; "originalError" := VRef 0%nat ]} false.
Definition quiet : object :=
  Object {[ "message" := VStr "bad request"; "code" := VStr "E_BAD" ]} true.
Definition chain_store : heap := [ upload_failed; wrapped; quiet ].
End RetryChain.

(* ===================================================================== *)
(** ** [TemplateEngine.createVariablesFromContext] *)
(* ===================================================================== *)

Module PromptVariables.
Import JsString TemplateEngine.

(** [context.environment], as the function reads it.  The three flags
    are read for their truthiness only; [None] is an absent field. *)
Record PromptEnvironment : Type := {
  isGitRepository : bool;
  isSandboxed : bool;
  hasIdeCompanion : bool;
  sandboxType : option string;
  workingDirectory : option string;
  folderStructure : option string;
  workspaceName : option string;
  workspaceRoot : option string;
  workspaceDirectories : option (list string);
}.

Record PromptContext : Type := {
  provider : option string;
  model : option string;
  environment : option PromptEnvironment;
}.

(** Truthiness of an optional string, and [s || ''].  *)
Definition given (s : option string) : bool :=
  match s with
  | Some s => negb (String.eqb s EmptyString)
  | None => false
  end.
Definition or_empty (s : option string) : string := default EmptyString s.

(** [a || b] on optional strings. *)
Definition or_else (a b : option string) : option string :=
  if given a then a else b.

Definition is_alnum (c : ascii) : bool := is_lower c || is_upper c || is_digit c.

(** [s.replace(/[^a-zA-Z0-9]/g, '_')]. *)
Fixpoint sanitize (s : string) : string :=
  match s with
  | EmptyString => EmptyString
  | String c r => String (if is_alnum c then c else "_"%char) (sanitize r)
  end.

Definition bool_text (b : bool) : string := if b then "true" else "false".

(** [variables[k] = v]. *)
Definition assign (k v : string) (variables : TemplateVariables) : TemplateVariables :=
  <[k := TString v]> variables.

(** [if (v) variables[k] = v]. *)
Definition assign_if_given (k : string) (v : option string)
    (variables : TemplateVariables) : TemplateVariables :=
  if given v then assign k (or_empty v) variables else variables.

Section Platform.
(** [path.basename], the three renderings of [new Date()] and
    [process.platform]. *)
Variable basename : string -> string.
Variable localeDate localeTime localeDateTime : string.
Variable platform : string.

(** The block guarded by [if (context.environment)]. *)
Definition environment_variables (env : PromptEnvironment)
    (variables : TemplateVariables) : TemplateVariables :=
  let variables := assign "IS_GIT_REPO" (bool_text (isGitRepository env)) variables in
  let variables := assign "IS_SANDBOXED" (bool_text (isSandboxed env)) variables in
  let variables := assign "HAS_IDE" (bool_text (hasIdeCompanion env)) variables in
  let variables := assign_if_given "WORKING_DIRECTORY" (workingDirectory env) variables in
  let variables := assign_if_given "FOLDER_STRUCTURE" (folderStructure env) variables in
  let variables :=
    if given (sandboxType env)
    then assign "SANDBOX_TYPE" (or_empty (sandboxType env)) variables
    else assign "SANDBOX_TYPE" (if isSandboxed env then "unknown" else "none")
           variables in
  let workspaceName :=
    or_else (workspaceName env)
      (Some (if given (workingDirectory env)
             then basename (or_empty (workingDirectory env))
             else EmptyString)) in
  let variables :=
    if given workspaceName
    then assign "WORKSPACE_NAME" (or_empty workspaceName) variables
    else assign "WORKSPACE_NAME" "unknown" variables in
  let workspaceRoot := or_else (workspaceRoot env) (workingDirectory env) in
  let variables :=
    if given workspaceRoot
    then assign "WORKSPACE_ROOT" (or_empty workspaceRoot) variables
    else assign "WORKSPACE_ROOT" "unknown" variables in
  let workspaceDirectories :=
    match workspaceDirectories env with
    | Some dirs => dirs
    | None =>
        if given (workingDirectory env)
        then [or_empty (workingDirectory env)] else []
    end in
  if (0 <? length workspaceDirectories)%nat
  then assign "WORKSPACE_DIRECTORIES" (JsonText.join ", " workspaceDirectories)
         variables
  else assign "WORKSPACE_DIRECTORIES" "unknown" variables.

(** [createVariablesFromContext(context, currentTool)]; [None] is
    [null] or [undefined]. *)
Definition createVariablesFromContext (context : option PromptContext)
    (currentTool : option string) : TemplateVariables :=
  match context with
  | None =>
      assign "PROVIDER" EmptyString (assign "MODEL" EmptyString ∅)
  | Some context =>
      let variables :=
        assign "PROVIDER" (or_empty (provider context))
          (assign "MODEL" (or_empty (model context)) ∅) in
      let variables :=
        if given currentTool && given (trim <$> currentTool)
        then assign "TOOL_NAME" (or_empty currentTool) variables
        else variables in
      let variables :=
        match environment context with
        | Some env => environment_variables env variables
        | None => variables
        end in
      let variables :=
        if given (provider context)
        then assign "PROVIDER_UPPER" (toUpperCase (or_empty (provider context)))
               variables
        else variables in
      let variables :=
        if given (model context)
        then assign "MODEL_SAFE" (sanitize (or_empty (model context))) variables
        else variables in
      let variables := assign "CURRENT_DATE" localeDate variables in
      let variables := assign "CURRENT_TIME" localeTime variables in
      let variables := assign "CURRENT_DATETIME" localeDateTime variables in
      assign "PLATFORM" platform variables
  end.
End Platform.

(** The text that [processTemplate] puts for a name. *)
Definition substituted (variables : TemplateVariables) (name : string) : string :=
  match variables !! name with
  | Some (TString v) => v
  | _ => EmptyString
  end.

(** A context, and a platform, for the examples. *)
Definition last_segment (path : string) : string :=
  if String.eqb path "/home/u/app" then "app" else path.
Definition sandboxed : PromptEnvironment :=
  {| isGitRepository := true; isSandboxed := true; hasIdeCompanion := false;
     sandboxType := None; workingDirectory := Some "/home/u/app";
     folderStructure := None; workspaceName := None; workspaceRoot := None;
     workspaceDirectories := None |}.
Definition gpt_context : PromptContext :=
  {| provider := Some "openai"; model := Some "gpt-4.1 mini";
     environment := Some sandboxed |}.
Definition variables_of (context : option PromptContext) (tool : option string)
    : TemplateVariables :=
  createVariablesFromContext last_segment "Monday, November 2, 2026"
    "9:00:00 AM" "11/2/2026, 9:00:00 AM" "linux" context tool.
End PromptVariables.

(* ===================================================================== *)
(** ** [ProfileManager]: deleting, probing and listing profiles *)
(* ===================================================================== *)

Module ProfileStore.
Import JsString Json ProfileManager.

(** [fs.unlink(path)]: a missing file fails with [ENOENT]. *)
Definition unlink (fs : filesystem) (path : string) : js_error + filesystem :=
  match fs !! path with
  | Some _ => inr (delete path fs)
  | None =>
      inl (JsError ClsError
             ("ENOENT: no such file or directory, unlink '" +:+ path +:+ "'"))
  end.

(** [fs.access(path)] resolves. *)
Definition access (fs : filesystem) (path : string) : bool :=
  bool_decide (is_Some (fs !! path)).

(** [s.endsWith(suffix)] and [s.slice(0, -5)]. *)
Definition endsWith (s suffix : string) : bool :=
  (String.length suffix <=? String.length s)%nat &&
  String.eqb (drop (String.length s - String.length suffix) s) suffix.
Definition slice_0_minus5 (s : string) : string :=
  take (String.length s - 5) s.

(** The error that names a missing profile. *)
Definition not_found (name : string) : js_error :=
  JsError ClsError ("Profile '" +:+ name +:+ "' not found").

Section Manager.
Variable path_join : list string -> string.
(** [fs.readdir(dir)]: the names of the entries of [dir], or the error
    thrown. *)
Variable readdir : filesystem -> string -> js_error + list string.

(** [deleteProfile(profileName)]. *)
Definition deleteProfile (this : ProfileManager) (fs : filesystem)
    (profileName : string) : js_error + filesystem :=
  let filePath := profile_path path_join this profileName in
  match unlink fs filePath with
  | inr fs' => inr fs'
  | inl error =>
      if includes (message error) "ENOENT" then
        inl (JsError ClsError ("Profile '" +:+ profileName +:+ "' not found"))
      else inl error
  end.

(** [profileExists(profileName)]. *)
Definition profileExists (this : ProfileManager) (fs : filesystem)
    (profileName : string) : bool :=
  access fs (profile_path path_join this profileName).

(** [listProfiles()]; [mkdir] with [recursive] changes nothing that is
    observed here. *)
Definition listProfiles (this : ProfileManager) (fs : filesystem) : list string :=
  match readdir fs (profilesDir this) with
  | inr files =>
      map slice_0_minus5 (List.filter (fun file => endsWith file ".json") files)
  | inl _ => []
  end.
End Manager.

(** A directory listing for the examples. *)
Definition listing (fs : filesystem) (dir : string) : js_error + list string :=
  if String.eqb dir "/home/u/.llxprt/profiles"
  then inr [ "demo.json"; "notes.txt"; ".json"; "work.json" ]
  else inl (JsError ClsError "ENOENT: no such file or directory, scandir").
End ProfileStore.

(* ===================================================================== *)
(** * Properties *)
(* ===================================================================== *)

(** ** Facts about strings *)

Module JsStringFacts.
Import JsString.
Local Open Scope nat_scope.
Lemma str_app_nil_l s : EmptyString +:+ s = s.
Proof. reflexivity. Qed.

Lemma str_app_cons c s t : String c s +:+ t = String c (s +:+ t).
Proof. reflexivity. Qed.

Lemma str_app_nil_r s : s +:+ EmptyString = s.
Proof. induction s as [|c s IH]; [reflexivity|]. rewrite str_app_cons. now f_equal. Qed.

Lemma str_app_assoc s t u : (s +:+ t) +:+ u = s +:+ (t +:+ u).
Proof. induction s as [|c s IH]; [reflexivity|]. rewrite !str_app_cons. now f_equal. Qed.

Lemma str_length_app s t : String.length (s +:+ t) = String.length s + String.length t.
Proof. induction s as [|c s IH]; [reflexivity|]. rewrite str_app_cons. simpl. now f_equal. Qed.

Lemma str_drop_0 s : drop 0 s = s.
Proof. now destruct s. Qed.

Lemma str_drop_app s t : drop (String.length s) (s +:+ t) = t.
Proof. induction s as [|c s IH]; [apply str_drop_0|]. rewrite str_app_cons. exact IH. Qed.

Lemma str_take_app s t : take (String.length s) (s +:+ t) = s.
Proof.
  induction s as [|c s IH]; [now destruct t|]. rewrite str_app_cons. simpl. now f_equal.
Qed.

Lemma str_length_drop n : forall s, String.length (drop n s) = String.length s - n.
Proof. induction n as [|n IH]; intros [|c s]; simpl; auto. Qed.

Lemma str_drop_drop a : forall b s, drop a (drop b s) = drop (b + a) s.
Proof.
  intros b. induction b as [|b IH]; intros s.
  - now rewrite str_drop_0.
  - destruct s as [|c s]; simpl; [now destruct a|]. apply IH.
Qed.

Lemma str_drop_all n s : String.length s <= n -> drop n s = EmptyString.
Proof.
  revert s. induction n as [|n IH]; intros [|c s] H; simpl in *; auto; try lia.
  apply IH. lia.
Qed.

Lemma str_take_drop n : forall s, take n s +:+ drop n s = s.
Proof.
  induction n as [|n IH]; intros [|c s]; simpl; auto.
  rewrite str_app_cons. now f_equal.
Qed.

Lemma startsWith_length p : forall s,
  startsWith p s = true -> String.length p <= String.length s.
Proof.
  induction p as [|a p IH]; intros [|b s]; simpl; try lia; try discriminate.
  destruct (decide (a = b)); [|discriminate]. intros H. apply IH in H. lia.
Qed.

Lemma startsWith_app p s : startsWith p (p +:+ s) = true.
Proof.
  induction p as [|a p IH]; [reflexivity|]. rewrite str_app_cons. simpl.
  now rewrite decide_True.
Qed.

Lemma indexOf_from_shift needle s : forall i,
  indexOf_from needle s i = (fun k => i + k) <$> indexOf_from needle s 0.
Proof.
  induction s as [|c s IH]; intros i; simpl.
  - destruct (startsWith needle EmptyString); simpl; [f_equal; lia | reflexivity].
  - destruct (startsWith needle (String c s)); simpl; [f_equal; lia|].
    rewrite (IH (S i)), (IH 1).
    destruct (indexOf_from needle s 0); simpl; [f_equal; lia | reflexivity].
Qed.

Lemma indexOf_from_bound needle s : forall n,
  indexOf_from needle s 0 = Some n ->
  n + String.length needle <= String.length s /\ startsWith needle (drop n s) = true.
Proof.
  induction s as [|c s IH]; intros n; simpl.
  - destruct (startsWith needle EmptyString) eqn:E; [|discriminate].
    intros [= <-]. apply startsWith_length in E as E'. simpl in *. split; [lia|exact E].
  - destruct (startsWith needle (String c s)) eqn:E.
    + intros [= <-]. apply startsWith_length in E as E'. simpl in *. split; [lia|exact E].
    + rewrite indexOf_from_shift.
      destruct (indexOf_from needle s 0) as [k|]; [|discriminate]. simpl.
      intros [= <-]. destruct (IH k eq_refl). simpl. split; [lia|assumption].
Qed.

Lemma indexOf_0 needle s : indexOf needle s 0 = indexOf_from needle s 0.
Proof. unfold indexOf. now rewrite str_drop_0. Qed.

(** Searching from [p + from] is searching from [from] in the suffix at
    [p]. *)
Lemma indexOf_drop needle s p from :
  p + from <= String.length s ->
  indexOf needle s (p + from) = (fun k => p + k) <$> indexOf needle (drop p s) from.
Proof.
  intros H. unfold indexOf.
  rewrite str_drop_drop, str_length_drop.
  rewrite (Nat.min_l (p + from)) by lia.
  rewrite (Nat.min_l from) by lia.
  rewrite (indexOf_from_shift needle _ (p + from)).
  rewrite (indexOf_from_shift needle _ from).
  destruct (indexOf_from needle (drop (p + from) s) 0); simpl; [f_equal; lia|reflexivity].
Qed.

Lemma indexOf_bound needle s from k :
  from <= String.length s ->
  indexOf needle s from = Some k ->
  from <= k /\ k + String.length needle <= String.length s.
Proof.
  intros H. unfold indexOf. rewrite Nat.min_l by lia.
  rewrite indexOf_from_shift.
  destruct (indexOf_from needle (drop from s) 0) as [j|] eqn:E; [|discriminate].
  simpl. intros [= <-]. apply indexOf_from_bound in E as [E _].
  rewrite str_length_drop in E. lia.
Qed.

Lemma substring_drop p a b s :
  substring (p + a) (p + b) s = substring a b (drop p s).
Proof.
  unfold substring. rewrite str_drop_drop. f_equal. lia.
Qed.

Lemma substring_0 b s : substring 0 b s = take b s.
Proof. unfold substring. now rewrite str_drop_0, Nat.sub_0_r. Qed.

Lemma str_drop_add p a s : drop (p + a) s = drop a (drop p s).
Proof. now rewrite str_drop_drop. Qed.

Lemma trimEnd_empty s : trimEnd s = EmptyString <-> all_white s.
Proof.
  unfold all_white. induction s as [|c s IH]; simpl; [tauto|].
  destruct (trimEnd s) eqn:E.
  - destruct (is_white c); simpl; [|split; discriminate].
    split; intros _; [now apply IH | reflexivity].
  - split; [discriminate|]. intros H. apply andb_true_iff in H as [_ H].
    apply IH in H. discriminate.
Qed.

Lemma startsWith_all_white p s :
  no_white p -> all_white s -> startsWith p s = startsWith p EmptyString.
Proof.
  unfold no_white, all_white.
  destruct p as [|a p]; [reflexivity|]. destruct s as [|c s]; [reflexivity|].
  simpl. intros Hp Hs.
  apply andb_true_iff in Hp as [Ha _]. apply andb_true_iff in Hs as [Hc _].
  destruct (decide (a = c)) as [->|]; [|reflexivity].
  rewrite Hc in Ha. discriminate.
Qed.

Lemma startsWith_trimEnd s : forall p,
  no_white p -> startsWith p (trimEnd s) = startsWith p s.
Proof.
  induction s as [|c s IH]; intros p Hp; [reflexivity|].
  destruct p as [|a p]; [reflexivity|].
  assert (Hp' : no_white p).
  { unfold no_white in *. simpl in Hp. now apply andb_true_iff in Hp as [_ ?]. }
  assert (Ha : is_white a = false).
  { unfold no_white in Hp. simpl in Hp. apply andb_true_iff in Hp as [Ha _].
    now destruct (is_white a). }
  simpl. destruct (trimEnd s) eqn:E.
  - apply trimEnd_empty in E.
    destruct (is_white c) eqn:Hc; simpl.
    + destruct (decide (a = c)) as [->|]; [congruence|reflexivity].
    + destruct (decide (a = c)); [|reflexivity].
      symmetry. now apply startsWith_all_white.
  - simpl. destruct (decide (a = c)); [|reflexivity].
    now apply IH.
Qed.

Lemma includes_trimEnd s p :
  no_white p -> p <> EmptyString -> includes (trimEnd s) p = includes s p.
Proof.
  intros Hp Hne. induction s as [|c s IH]; [reflexivity|].
  change (includes (String c s) p) with (startsWith p (String c s) || includes s p).
  rewrite <- IH, <- (startsWith_trimEnd (String c s) p Hp).
  simpl. destruct (trimEnd s) eqn:E.
  - destruct (is_white c); simpl.
    + destruct p; [congruence|reflexivity].
    + destruct p; [congruence|]. simpl. now rewrite !orb_false_r.
  - reflexivity.
Qed.

Lemma includes_trimStart s p :
  no_white p -> p <> EmptyString -> includes (trimStart s) p = includes s p.
Proof.
  intros Hp Hne. induction s as [|c s IH]; [reflexivity|].
  simpl. destruct (is_white c) eqn:Hc; [|reflexivity].
  rewrite IH. destruct p as [|a p]; [congruence|].
  unfold no_white in Hp. simpl in Hp. apply andb_true_iff in Hp as [Ha _].
  simpl. destruct (decide (a = c)) as [->|]; [|reflexivity].
  rewrite Hc in Ha. discriminate.
Qed.

Lemma includes_trim s p :
  no_white p -> p <> EmptyString -> includes (trim s) p = includes s p.
Proof.
  intros Hp Hne. unfold trim.
  now rewrite includes_trimEnd, includes_trimStart.
Qed.

Lemma startsWith_app_l p : forall s t,
  startsWith p s = true -> startsWith p (s +:+ t) = true.
Proof.
  induction p as [|a p IH]; intros [|c s] t; try (simpl; congruence).
  rewrite str_app_cons. simpl. destruct (decide (a = c)); [apply IH|discriminate].
Qed.

(** An occurrence inside [s] is found before the end of [s]. *)
Lemma includes_indexOf s p t :
  p <> EmptyString -> includes s p = true ->
  exists k, indexOf_from p (s +:+ t) 0 = Some k /\ k < String.length s.
Proof.
  intros Hne. induction s as [|c s IH].
  - simpl. destruct p; [congruence|]. discriminate.
  - intros H. simpl in H.
    destruct (startsWith p (String c s +:+ t)) eqn:E'.
    + exists 0. rewrite str_app_cons in *. simpl. rewrite E'.
      split; [reflexivity|lia].
    + destruct (startsWith p (String c s)) eqn:E.
      * rewrite (startsWith_app_l p (String c s) t E) in E'. discriminate.
      * simpl in H. destruct (IH H) as (k & Hk & Hlt).
        exists (S k). rewrite str_app_cons in *. simpl. rewrite E'.
        rewrite indexOf_from_shift, Hk. simpl. split; [reflexivity|lia].
Qed.
Lemma startsWith_lower p s :
  startsWith p s = true -> startsWith (toLowerCase p) (toLowerCase s) = true.
Proof.
  revert s. induction p as [|a p IH]; intros [|b s]; simpl; try congruence.
  destruct (decide (a = b)) as [->|]; [|discriminate].
  intros H. rewrite decide_True by reflexivity. auto.
Qed.

Lemma includes_lower s p :
  includes s p = true -> includes (toLowerCase s) (toLowerCase p) = true.
Proof.
  induction s as [|c s IH]; simpl; intros H.
  - apply orb_true_iff in H as [H|H]; [|discriminate].
    apply startsWith_lower in H. simpl in H. now rewrite H.
  - apply orb_true_iff in H as [H|H].
    + apply startsWith_lower in H. simpl in H. now rewrite H.
    + rewrite (IH H). apply orb_true_r.
Qed.
Lemma includes_app_r a s p : includes s p = true -> includes (a +:+ s) p = true.
Proof.
  intros H. induction a as [|c a IH]; [exact H|].
  change (String c a +:+ s) with (String c (a +:+ s)). simpl.
  rewrite IH. apply orb_true_r.
Qed.

Lemma includes_prefix p s : includes (p +:+ s) p = true.
Proof.
  destruct p as [|c p]; [now destruct s|].
  change (String c p +:+ s) with (String c (p +:+ s)).
  change (includes (String c (p +:+ s)) (String c p))
    with (startsWith (String c p) (String c p +:+ s) || includes (p +:+ s) (String c p)).
  now rewrite startsWith_app.
Qed.

(** A message built around the profile name contains it. *)
Lemma includes_name a name b : includes (a +:+ name +:+ b) name = true.
Proof. apply includes_app_r, includes_prefix. Qed.

Lemma digit_not_white c : is_digit c = true -> is_white c = false.
Proof.
  destruct c as [[] [] [] [] [] [] [] []]; vm_compute; congruence.
Qed.

Lemma read_digits_all s : forall a,
  forallb is_digit (list_ascii_of_string s) = true ->
  read_digits (Some a) s =
  Some (fold_left (fun acc c => (10 * acc + digit_value c)%Z) (list_ascii_of_string s) a).
Proof.
  induction s as [|c s IH]; intros a H; simpl in *.
  - reflexivity.
  - apply andb_true_iff in H as [Hc Hs]. rewrite Hc. simpl. now apply IH.
Qed.

Lemma parseInt10_digits s :
  all_digits s = true -> parseInt10 s = Some (decimal_value s).
Proof.
  unfold all_digits, parseInt10, decimal_value.
  destruct s as [|c s]; [discriminate|]. simpl.
  intros H. apply andb_true_iff in H as [Hc Hs].
  rewrite (digit_not_white c Hc).
  assert (Hread : read_digits None (String c s) =
                  Some (fold_left (fun acc c => (10 * acc + digit_value c)%Z)
                          (list_ascii_of_string s) (10 * 0 + digit_value c)%Z)).
  { simpl. rewrite Hc. now apply read_digits_all. }
  destruct c as [[] [] [] [] [] [] [] []]; try discriminate Hc; exact Hread.
Qed.
End JsStringFacts.
(** ** The text of JSON values *)

Module JsonTextProofs.
Import JsString Json JsonText.
Local Open Scope nat_scope.

Lemma sapp_cons c s t : String c s +:+ t = String c (s +:+ t).
Proof. reflexivity. Qed.
Lemma sapp_nil_l s : EmptyString +:+ s = s.
Proof. reflexivity. Qed.
Lemma sapp_assoc s t u : (s +:+ t) +:+ u = s +:+ (t +:+ u).
Proof. induction s as [|c s IH]; [reflexivity|]. rewrite !sapp_cons. now f_equal. Qed.
Lemma sapp_nil_r s : s +:+ EmptyString = s.
Proof. induction s as [|c s IH]; [reflexivity|]. rewrite sapp_cons. now f_equal. Qed.
Lemma slength_app s t : String.length (s +:+ t) = String.length s + String.length t.
Proof. induction s as [|c s IH]; [reflexivity|]. rewrite sapp_cons. simpl. now f_equal. Qed.

Lemma expect_same c r : expect c (String c r) = Some r.
Proof. unfold expect. now rewrite decide_True. Qed.

Lemma expect_other c a r : a <> c -> expect c (String a r) = None.
Proof. intros H. unfold expect. now rewrite decide_False. Qed.

Lemma ws_only_app a b : ws_only a -> ws_only b -> ws_only (a +:+ b).
Proof.
  unfold ws_only. induction a as [|c a IH]; intros Ha Hb; [exact Hb|].
  rewrite sapp_cons. simpl in *. apply andb_true_iff in Ha as [Hc Ha].
  rewrite Hc. simpl. now apply IH.
Qed.

Lemma skip_ws_app w s : ws_only w -> skip_ws (w +:+ s) = skip_ws s.
Proof.
  unfold ws_only. induction w as [|c w IH]; intros H; [reflexivity|].
  rewrite sapp_cons. simpl in *. apply andb_true_iff in H as [Hc H].
  rewrite Hc. now apply IH.
Qed.

Lemma skip_ws_head c r : is_ws c = false -> skip_ws (String c r) = String c r.
Proof. intros H. simpl. now rewrite H. Qed.

(** Reading the escape of one character. *)
Lemma parse_quote_char c x :
  parse_string_body (quote_char c +:+ x) =
  match parse_string_body x with
  | Some (str, rest) => Some (String c str, rest)
  | None => None
  end.
Proof.
  destruct c as [[] [] [] [] [] [] [] []]; reflexivity.
Qed.

Lemma parse_quote_body s rest :
  parse_string_body (quote_body s +:+ rest) = Some (s, rest).
Proof.
  induction s as [|c s IH].
  - reflexivity.
  - change (quote_body (String c s)) with (quote_char c +:+ quote_body s).
    now rewrite sapp_assoc, parse_quote_char, IH.
Qed.

Lemma terminated_no_digit rest : terminated rest -> no_digit_head rest.
Proof. destruct rest; simpl; tauto. Qed.

Lemma span_digits_app s rest : forall ds r,
  span_digits s = (ds, r) ->
  (r = EmptyString -> no_digit_head rest) ->
  span_digits (s +:+ rest) = (ds, r +:+ rest).
Proof.
  induction s as [|c s IH]; intros ds r Hs Hr.
  - simpl in Hs. injection Hs as <- <-. specialize (Hr eq_refl).
    destruct rest as [|c rest]; [reflexivity|]. simpl in *. now rewrite Hr.
  - rewrite sapp_cons. simpl in *. destruct (is_digit c).
    + destruct (span_digits s) as [ds' r'] eqn:E. injection Hs as <- <-.
      now rewrite (IH ds' r' eq_refl Hr).
    + now injection Hs as <- <-.
Qed.

Lemma expect_app c s r rest :
  expect c s = Some r -> expect c (s +:+ rest) = Some (r +:+ rest).
Proof.
  destruct s as [|a s]; [discriminate|]. rewrite sapp_cons. simpl.
  destruct (decide (a = c)); [|discriminate]. now intros [= <-].
Qed.

Lemma expect_app_none c s rest :
  s <> EmptyString -> expect c s = None -> expect c (s +:+ rest) = None.
Proof.
  destruct s as [|a s]; [congruence|]. intros _. rewrite sapp_cons. simpl.
  now destruct (decide (a = c)).
Qed.

Lemma expect_terminated c rest :
  terminated rest -> c = "."%char \/ c = "e"%char \/ c = "E"%char ->
  expect c rest = None.
Proof.
  destruct rest as [|a rest]; [reflexivity|]. simpl.
  intros (_ & H1 & H2 & H3) Hc. destruct (decide (a = c)); [|reflexivity].
  subst. tauto.
Qed.

Lemma parse_int_app s rest int r :
  parse_int s = Some (int, r) ->
  (r = EmptyString -> terminated rest) ->
  parse_int (s +:+ rest) = Some (int, r +:+ rest).
Proof.
  unfold parse_int. destruct (span_digits s) as [ds r'] eqn:E.
  intros H Hr.
  destruct (String.eqb ds EmptyString) eqn:E1; [discriminate|].
  destruct (startsWith "0" ds && negb (String.eqb ds "0")) eqn:E0; [discriminate|].
  injection H as <- <-.
  rewrite (span_digits_app s rest ds r' E)
    by (intros ?; apply terminated_no_digit; auto).
  now rewrite E1, E0.
Qed.

Lemma parse_frac_app s rest frac r :
  parse_frac s = Some (frac, r) ->
  (r = EmptyString -> terminated rest) ->
  parse_frac (s +:+ rest) = Some (frac, r +:+ rest).
Proof.
  unfold parse_frac. intros H Hr.
  destruct (expect "." s) as [s'|] eqn:E.
  - rewrite (expect_app _ _ _ rest E).
    destruct (span_digits s') as [ds r'] eqn:Es.
    destruct (String.eqb ds EmptyString) eqn:E1; [discriminate|].
    injection H as <- <-.
    rewrite (span_digits_app s' rest ds r' Es)
      by (intros ?; apply terminated_no_digit; auto).
    now rewrite E1.
  - injection H as <- <-.
    destruct s as [|a s].
    + rewrite !sapp_nil_l. now rewrite (expect_terminated "." rest) by auto.
    + now rewrite expect_app_none.
Qed.

Lemma exp_marker_app s rest :
  s <> EmptyString ->
  exp_marker (s +:+ rest) = (fun x => x +:+ rest) <$> exp_marker s.
Proof.
  intros Hne. unfold exp_marker. destruct s as [|a s]; [congruence|].
  rewrite sapp_cons. simpl.
  destruct (decide (a = "e"%char)); [reflexivity|].
  destruct (decide (a = "E"%char)); reflexivity.
Qed.

Lemma exp_sign_app s rest :
  s <> EmptyString ->
  exp_sign (s +:+ rest) = ((exp_sign s).1, (exp_sign s).2 +:+ rest).
Proof.
  intros Hne. unfold exp_sign. destruct s as [|b s]; [congruence|].
  rewrite sapp_cons. simpl.
  destruct (decide (b = "-"%char)); [reflexivity|].
  destruct (decide (b = "+"%char)); reflexivity.
Qed.

Lemma parse_exp_app s rest e r :
  parse_exp s = Some (e, r) ->
  (r = EmptyString -> terminated rest) ->
  parse_exp (s +:+ rest) = Some (e, r +:+ rest).
Proof.
  unfold parse_exp. intros H Hr.
  destruct s as [|a s].
  - simpl in H. injection H as <- <-. specialize (Hr eq_refl).
    rewrite !sapp_nil_l. unfold exp_marker.
    now rewrite (expect_terminated "e" rest), (expect_terminated "E" rest) by auto.
  - rewrite exp_marker_app by discriminate.
    destruct (exp_marker (String a s)) as [s'|]; simpl.
    2:{ now injection H as <- <-. }
    destruct s' as [|b s'].
    { simpl in H. discriminate. }
    rewrite exp_sign_app by discriminate.
    destruct (exp_sign (String b s')) as [esign r0]. simpl.
    destruct (span_digits r0) as [ds r'] eqn:Es.
    destruct (String.eqb ds EmptyString) eqn:E1; [discriminate|].
    injection H as <- <-.
    rewrite (span_digits_app r0 rest ds r' Es)
      by (intros ?; apply terminated_no_digit; auto).
    now rewrite E1.
Qed.

Lemma parse_sign_app s rest :
  s <> EmptyString ->
  parse_sign (s +:+ rest) = ((parse_sign s).1, (parse_sign s).2 +:+ rest).
Proof.
  intros Hne. unfold parse_sign. destruct s as [|a s]; [congruence|].
  rewrite sapp_cons. simpl. now destruct (decide (a = "-"%char)).
Qed.

Lemma parse_frac_empty_rest s frac r :
  parse_frac s = Some (frac, r) -> s = EmptyString -> r = EmptyString.
Proof. intros H ->. simpl in H. now injection H. Qed.

Lemma parse_exp_empty_rest s e r :
  parse_exp s = Some (e, r) -> s = EmptyString -> r = EmptyString.
Proof. intros H ->. simpl in H. now injection H. Qed.

(** A number is read alike when text that cannot continue it follows. *)
Lemma parse_number_app s rest n :
  parse_number s = Some (n, EmptyString) ->
  terminated rest ->
  parse_number (s +:+ rest) = Some (n, rest).
Proof.
  unfold parse_number. intros H Hrest.
  destruct s as [|a s].
  { simpl in H. discriminate. }
  rewrite parse_sign_app by discriminate.
  destruct (parse_sign (String a s)) as [negative s1]. simpl.
  destruct (parse_int s1) as [[int s2]|] eqn:Ei; [|discriminate].
  destruct (parse_frac s2) as [[frac s3]|] eqn:Ef; [|discriminate].
  destruct (parse_exp s3) as [[e s4]|] eqn:Ee; [|discriminate].
  injection H as <- ->.
  assert (H3 : s3 = EmptyString -> terminated rest) by auto.
  assert (H2 : s2 = EmptyString -> terminated rest) by auto.
  rewrite (parse_int_app s1 rest int s2 Ei H2).
  rewrite (parse_frac_app s2 rest frac s3 Ef H3).
  rewrite (parse_exp_app s3 rest e EmptyString Ee) by auto.
  reflexivity.
Qed.

Lemma number_ok_parse n rest :
  number_ok n = true -> terminated rest ->
  parse_number (number_to_string n +:+ rest) = Some (n, rest).
Proof.
  unfold number_ok. intros H Hrest.
  destruct (parse_number (number_to_string n)) as [[n' r]|] eqn:E; [|discriminate].
  apply andb_true_iff in H as [Hn Hr].
  apply bool_decide_eq_true in Hn. apply String.eqb_eq in Hr. subst.
  now apply parse_number_app.
Qed.

Lemma parse_number_head s n r :
  parse_number s = Some (n, r) ->
  exists c t, s = String c t /\ (c = "-"%char \/ is_digit c = true).
Proof.
  destruct s as [|c t]; [discriminate|]. intros H. exists c, t. split; [reflexivity|].
  destruct (decide (c = "-"%char)) as [|Hc]; [now left|]. right.
  unfold parse_number, parse_sign in H. rewrite expect_other in H by exact Hc.
  unfold parse_int in H. simpl in H. destruct (is_digit c); [reflexivity|].
  simpl in H. discriminate.
Qed.

(** A character that starts a number starts no other value. *)
Lemma number_start c :
  c = "-"%char \/ is_digit c = true ->
  is_ws c = false /\ c <> "n"%char /\ c <> "t"%char /\ c <> "f"%char /\
  c <> dquote /\ c <> "["%char /\ c <> "{"%char /\ c <> "]"%char /\ c <> "}"%char.
Proof.
  intros [->|H]; [repeat split; discriminate|].
  destruct c as [[] [] [] [] [] [] [] []]; try discriminate H;
    repeat split; discriminate.
Qed.

Lemma parse_value_ws fuel w s :
  ws_only w -> parse_value fuel (w +:+ s) = parse_value fuel s.
Proof.
  intros H. destruct fuel; [reflexivity|]. simpl. now rewrite skip_ws_app.
Qed.

Lemma parse_value_number fuel n rest :
  number_ok n = true -> terminated rest ->
  parse_value (S fuel) (number_to_string n +:+ rest) = Some (JNumber n, rest).
Proof.
  intros Hn Hrest.
  pose proof (number_ok_parse n rest Hn Hrest) as Hp.
  assert (Hhead : exists c t, number_to_string n = String c t /\
                              (c = "-"%char \/ is_digit c = true)).
  { unfold number_ok in Hn.
    destruct (parse_number (number_to_string n)) as [[n' r]|] eqn:E; [|discriminate].
    eapply parse_number_head; eauto. }
  destruct Hhead as (c & t & Hs & Hc).
  rewrite Hs in *. rewrite sapp_cons in *.
  destruct (number_start c Hc) as (Hw & H1 & H2 & H3 & H4 & H5 & H6 & _).
  simpl. rewrite Hw.
  rewrite !decide_False by assumption.
  simpl in Hp. now rewrite Hp.
Qed.

Lemma ws_only_newline : ws_only newline.
Proof. reflexivity. Qed.

Lemma ws_only_indent indent : ws_only indent -> ws_only (indent +:+ "  ").
Proof. intros H. apply ws_only_app; [exact H | reflexivity]. Qed.

Lemma terminated_newline x : terminated (newline +:+ x).
Proof. repeat split; discriminate. Qed.

Lemma terminated_separator inner x : terminated (separator inner +:+ x).
Proof. repeat split; discriminate. Qed.

Lemma join_cons sep a b l : join sep (a :: b :: l) = a +:+ sep +:+ join sep (b :: l).
Proof. reflexivity. Qed.

Lemma size_elem (items : list json) x :
  x ∈ items -> S (json_size x) <= list_sum (map (fun x => S (json_size x)) items).
Proof.
  induction items as [|y ys IH]; intros H; [inversion H|].
  apply elem_of_cons in H as [->|H]; simpl; [lia|]. specialize (IH H). lia.
Qed.

Lemma parse_elements_text items :
  items <> [] -> (forall x, x ∈ items -> reads x) ->
  forall fuel w inner indent rest,
    ws_only w -> ws_only inner -> ws_only indent ->
    list_sum (map (fun x => S (json_size x)) items) <= fuel ->
    parse_elements fuel
      (w +:+ join (separator inner) (map (stringify_at inner) items) +:+
       newline +:+ indent +:+ "]" +:+ rest)
    = Some (items, rest).
Proof.
  induction items as [|x xs IH]; [congruence|].
  intros _ Hreads fuel w inner indent rest Hw Hinner Hindent Hfuel.
  destruct fuel as [|fuel]; [simpl in Hfuel; lia|].
  assert (Hx : reads x) by (apply Hreads; left).
  cbn [parse_elements]. rewrite parse_value_ws by exact Hw.
  destruct xs as [|y ys].
  - cbn [map join].
    rewrite (Hx inner _ fuel Hinner (terminated_newline _))
      by (simpl in Hfuel; lia).
    cbv zeta. rewrite <- sapp_assoc.
    rewrite skip_ws_app by (apply ws_only_app; [apply ws_only_newline | exact Hindent]).
    reflexivity.
  - cbn [map]. rewrite join_cons, !sapp_assoc.
    rewrite (Hx inner _ fuel Hinner (terminated_separator _ _))
      by (simpl in Hfuel; lia).
    cbv zeta. unfold separator at 1. rewrite !sapp_assoc.
    change ("," +:+ ?x) with (String "," x).
    rewrite skip_ws_head by reflexivity. rewrite expect_same.
    rewrite <- (sapp_assoc newline inner).
    change (stringify_at inner y :: map (stringify_at inner) ys)
      with (map (stringify_at inner) (y :: ys)).
    rewrite (IH ltac:(discriminate)
               (fun z Hz => Hreads z (list_elem_of_further _ _ _ Hz))
               fuel (newline +:+ inner) inner indent rest).
    + reflexivity.
    + apply ws_only_app; [apply ws_only_newline | exact Hinner].
    + exact Hinner.
    + exact Hindent.
    + simpl in Hfuel |- *. lia.
Qed.

Lemma set_field_fresh acc k v :
  k ∉ map fst acc -> set_field acc k v = acc ++ [(k, v)].
Proof.
  induction acc as [|[k' v'] acc IH]; intros H; [reflexivity|].
  simpl in *. apply not_elem_of_cons in H as [Hne H].
  destruct (String.eqb_spec k' k) as [->|_]; [congruence|].
  now rewrite IH.
Qed.

Lemma size_member (fields : list (string * json)) kv :
  kv ∈ fields ->
  S (json_size kv.2) <= list_sum (map (fun kv => S (json_size (snd kv))) fields).
Proof.
  induction fields as [|y ys IH]; intros H; [inversion H|].
  apply elem_of_cons in H as [->|H]; simpl; [lia|]. specialize (IH H). lia.
Qed.

Lemma parse_member_key fuel w k x acc :
  ws_only w ->
  parse_members (S fuel) (w +:+ quote k +:+ ": " +:+ x) acc =
  match parse_value fuel x with
  | Some (v, rest'') =>
      let acc := set_field acc k v in
      let rest'' := skip_ws rest'' in
      match expect "," rest'' with
      | Some rest3 => parse_members fuel rest3 acc
      | None =>
          match expect "}" rest'' with
          | Some rest3 => Some (acc, rest3)
          | None => None
          end
      end
  | None => None
  end.
Proof.
  intros Hw. cbn [parse_members]. rewrite skip_ws_app by exact Hw.
  unfold quote. rewrite sapp_cons, skip_ws_head by reflexivity.
  rewrite expect_same, parse_quote_body.
  change (": " +:+ x) with (String ":" (" " +:+ x)).
  rewrite skip_ws_head by reflexivity. rewrite expect_same.
  now rewrite parse_value_ws by reflexivity.
Qed.

Lemma parse_members_text fields :
  fields <> [] -> (forall kv, kv ∈ fields -> reads kv.2) ->
  forall fuel w inner indent rest acc,
    ws_only w -> ws_only inner -> ws_only indent ->
    NoDup (map fst (acc ++ fields)) ->
    list_sum (map (fun kv => S (json_size (snd kv))) fields) <= fuel ->
    parse_members fuel
      (w +:+ join (separator inner) (map (member_text inner) fields) +:+
       newline +:+ indent +:+ "}" +:+ rest) acc
    = Some (acc ++ fields, rest).
Proof.
  induction fields as [|[k x] xs IH]; [congruence|].
  intros _ Hreads fuel w inner indent rest acc Hw Hinner Hindent Hnodup Hfuel.
  destruct fuel as [|fuel]; [simpl in Hfuel; lia|].
  assert (Hx : reads x) by (apply (Hreads (k, x)); left).
  assert (Hfresh : k ∉ map fst acc).
  { rewrite map_app in Hnodup. apply NoDup_app in Hnodup as (_ & Hdis & _).
    intros Hin. apply (Hdis k Hin). simpl. left. }
  destruct xs as [|y ys].
  - cbn [map join]. unfold member_text at 1. cbn [fst snd].
    rewrite !sapp_assoc, parse_member_key by exact Hw.
    rewrite (Hx inner _ fuel Hinner (terminated_newline _))
      by (simpl in Hfuel; lia).
    cbv zeta. rewrite <- sapp_assoc.
    rewrite skip_ws_app by (apply ws_only_app; [apply ws_only_newline | exact Hindent]).
    now rewrite set_field_fresh.
  - cbn [map]. rewrite join_cons. unfold member_text at 1. cbn [fst snd].
    rewrite !sapp_assoc, parse_member_key by exact Hw.
    rewrite (Hx inner _ fuel Hinner (terminated_separator _ _))
      by (simpl in Hfuel; lia).
    cbv zeta. unfold separator at 1. rewrite !sapp_assoc.
    change ("," +:+ ?x) with (String "," x).
    rewrite skip_ws_head by reflexivity. rewrite expect_same.
    rewrite <- (sapp_assoc newline inner).
    change (member_text inner y :: map (member_text inner) ys)
      with (map (member_text inner) (y :: ys)).
    rewrite set_field_fresh by exact Hfresh.
    rewrite (IH ltac:(discriminate)
               (fun z Hz => Hreads z (list_elem_of_further _ _ _ Hz))
               fuel (newline +:+ inner) inner indent rest (acc ++ [(k, x)])).
    + now rewrite <- app_assoc.
    + apply ws_only_app; [apply ws_only_newline | exact Hinner].
    + exact Hinner.
    + exact Hindent.
    + now rewrite <- app_assoc.
    + simpl in Hfuel |- *. lia.
Qed.

Lemma value_head indent v :
  json_ok v = true ->
  exists c t, stringify_at indent v = String c t /\
              is_ws c = false /\ c <> "]"%char.
Proof.
  intros Hok. destruct v as [|b|n|s|items|fields].
  - exists "n"%char, "ull". split; [reflexivity|]. split; [reflexivity|discriminate].
  - destruct b; [exists "t"%char, "rue" | exists "f"%char, "alse"];
      (split; [reflexivity|]); split; (reflexivity || discriminate).
  - simpl in Hok. unfold number_ok in Hok.
    destruct (parse_number (number_to_string n)) as [[n' r]|] eqn:E; [|discriminate].
    destruct (parse_number_head _ _ _ E) as (c & t & Hs & Hc).
    destruct (number_start c Hc) as (Hw & _ & _ & _ & _ & _ & _ & Hb & _).
    exists c, t. simpl. auto.
  - exists dquote, (quote_body s).
    split; [reflexivity|]. split; [reflexivity|discriminate].
  - destruct items; eexists "["%char, _; (split; [reflexivity|]);
      split; (reflexivity || discriminate).
  - destruct fields; eexists "{"%char, _; (split; [reflexivity|]);
      split; (reflexivity || discriminate).
Qed.

Lemma join_head sep a l : exists u, join sep (a :: l) = a +:+ u.
Proof.
  destruct l as [|b l]; [exists EmptyString; now rewrite sapp_nil_r|].
  eexists. apply join_cons.
Qed.

Lemma stringify_array indent x xs :
  stringify_at indent (JArray (x :: xs)) =
  String "["
    ((newline +:+ indent +:+ "  ") +:+
     join (separator (indent +:+ "  "))
          (map (stringify_at (indent +:+ "  ")) (x :: xs)) +:+
     newline +:+ indent +:+ "]").
Proof.
  cbn [stringify_at]. cbv zeta. now rewrite !sapp_assoc.
Qed.

Lemma stringify_object indent x xs :
  stringify_at indent (JObject (x :: xs)) =
  String "{"
    ((newline +:+ indent +:+ "  ") +:+
     join (separator (indent +:+ "  "))
          (map (member_text (indent +:+ "  ")) (x :: xs)) +:+
     newline +:+ indent +:+ "}").
Proof.
  cbn [stringify_at]. cbv zeta. now rewrite !sapp_assoc.
Qed.

Lemma reads_all n : forall v, json_size v <= n -> json_ok v = true -> reads v.
Proof.
  induction n as [|n IH]; intros v Hsize Hok.
  { destruct v; simpl in Hsize; lia. }
  intros indent rest fuel Hindent Hrest Hfuel.
  destruct fuel as [|fuel]; [destruct v; simpl in Hfuel; lia|].
  destruct v as [|b|num|s|items|fields].
  - reflexivity.
  - destruct b; reflexivity.
  - now apply parse_value_number.
  - cbn [stringify_at]. unfold quote. rewrite sapp_cons.
    cbn [parse_value]. rewrite skip_ws_head by reflexivity.
    rewrite !decide_False by discriminate. rewrite decide_True by reflexivity.
    now rewrite parse_quote_body.
  - destruct items as [|x xs]; [reflexivity|].
    rewrite stringify_array.
    assert (Hw : ws_only (newline +:+ indent +:+ "  "))
      by (apply ws_only_app; [apply ws_only_newline | now apply ws_only_indent]).
    set (w := newline +:+ indent +:+ "  ") in *.
    rewrite sapp_cons, !sapp_assoc.
    cbn [parse_value]. rewrite skip_ws_head by reflexivity.
    rewrite !decide_False by discriminate. rewrite decide_True by reflexivity.
    simpl in Hok. apply andb_true_iff in Hok as [Hx Hxs].
    assert (Hexp : forall y, expect "]"
              (skip_ws (w +:+
                        join (separator (indent +:+ "  "))
                          (map (stringify_at (indent +:+ "  ")) (x :: xs)) +:+ y))
              = None).
    { intros y. rewrite skip_ws_app by exact Hw.
      cbn [map].
      destruct (join_head (separator (indent +:+ "  "))
                  (stringify_at (indent +:+ "  ") x)
                  (map (stringify_at (indent +:+ "  ")) xs)) as [u ->].
      destruct (value_head (indent +:+ "  ") x Hx) as (c & t & -> & Hcw & Hc).
      rewrite !sapp_cons, skip_ws_head by exact Hcw.
      now apply expect_other. }
    rewrite Hexp.
    rewrite (parse_elements_text (x :: xs)).
    + reflexivity.
    + discriminate.
    + intros y Hy. apply IH.
      * pose proof (size_elem (x :: xs) y Hy) as Hy'.
        change (json_size (JArray (x :: xs)))
          with (S (list_sum (map (fun x => S (json_size x)) (x :: xs)))) in Hsize.
        lia.
      * apply elem_of_cons in Hy as [->|Hy]; [exact Hx|].
        rewrite forallb_forall in Hxs. apply Hxs. now apply list_elem_of_In.
    + exact Hw.
    + now apply ws_only_indent.
    + exact Hindent.
    + change (json_size (JArray (x :: xs)))
        with (S (list_sum (map (fun x => S (json_size x)) (x :: xs)))) in Hfuel.
      lia.
  - destruct fields as [|x xs]; [reflexivity|].
    rewrite stringify_object.
    assert (Hw : ws_only (newline +:+ indent +:+ "  "))
      by (apply ws_only_app; [apply ws_only_newline | now apply ws_only_indent]).
    set (w := newline +:+ indent +:+ "  ") in *.
    rewrite sapp_cons, !sapp_assoc.
    cbn [parse_value]. rewrite skip_ws_head by reflexivity.
    rewrite !decide_False by discriminate. rewrite decide_True by reflexivity.
    cbn [json_ok] in Hok. apply andb_true_iff in Hok as [Hdup Hxs].
    apply bool_decide_eq_true in Hdup.
    assert (Hexp : forall y, expect "}"
              (skip_ws (w +:+
                        join (separator (indent +:+ "  "))
                          (map (member_text (indent +:+ "  ")) (x :: xs)) +:+ y))
              = None).
    { intros y. rewrite skip_ws_app by exact Hw.
      cbn [map].
      destruct (join_head (separator (indent +:+ "  "))
                  (member_text (indent +:+ "  ") x)
                  (map (member_text (indent +:+ "  ")) xs)) as [u ->].
      unfold member_text, quote. rewrite !sapp_cons.
      rewrite skip_ws_head by reflexivity.
      now apply expect_other. }
    rewrite Hexp.
    rewrite (parse_members_text (x :: xs)).
    + reflexivity.
    + discriminate.
    + intros y Hy. apply IH.
      * pose proof (size_member (x :: xs) y Hy) as Hy'.
        change (json_size (JObject (x :: xs)))
          with (S (list_sum (map (fun kv => S (json_size (snd kv))) (x :: xs)))) in Hsize.
        lia.
      * rewrite forallb_forall in Hxs. apply (Hxs y). now apply list_elem_of_In.
    + exact Hw.
    + now apply ws_only_indent.
    + exact Hindent.
    + exact Hdup.
    + change (json_size (JObject (x :: xs)))
        with (S (list_sum (map (fun kv => S (json_size (snd kv))) (x :: xs)))) in Hfuel.
      lia.
Qed.

Lemma sum_cons a l : list_sum (a :: l) = a + list_sum l.
Proof. reflexivity. Qed.

Lemma length_join_elements (sep : string) (str : json -> string) items :
  1 <= String.length sep -> items <> [] ->
  (forall x, x ∈ items -> json_size x <= String.length (str x)) ->
  list_sum (map (fun x => S (json_size x)) items)
    <= S (String.length (join sep (map str items))).
Proof.
  intros Hsep. induction items as [|x xs IH]; [congruence|].
  intros _ Hall. pose proof (Hall x ltac:(left)) as Hx.
  destruct xs as [|y ys]; [simpl; lia|].
  cbn [map]. rewrite join_cons, !slength_app.
  change (stringify_at ?i y :: map ?f ys) with (map f (y :: ys)).
  assert (IH' := IH ltac:(discriminate)
                   (fun z Hz => Hall z (list_elem_of_further _ _ _ Hz))).
  cbn [map] in IH'. rewrite !sum_cons in *. lia.
Qed.

Lemma length_join_members (sep : string) (str : json -> string)
    (fields : list (string * json)) :
  1 <= String.length sep -> fields <> [] ->
  (forall kv, kv ∈ fields -> json_size kv.2 <= String.length (str kv.2)) ->
  list_sum (map (fun kv => S (json_size (snd kv))) fields)
    <= S (String.length
            (join sep (map (fun kv => quote kv.1 +:+ ": " +:+ str kv.2) fields))).
Proof.
  intros Hsep. induction fields as [|x xs IH]; [congruence|].
  intros _ Hall. pose proof (Hall x ltac:(left)) as Hx.
  destruct xs as [|y ys].
  { cbn [map join list_sum]. rewrite !slength_app. simpl. lia. }
  cbn [map]. rewrite join_cons, !slength_app.
  assert (IH' := IH ltac:(discriminate)
                   (fun z Hz => Hall z (list_elem_of_further _ _ _ Hz))).
  cbn [map] in IH'. rewrite !sum_cons in *. lia.
Qed.

Lemma size_le_length n : forall v indent,
  json_size v <= n -> json_ok v = true ->
  json_size v <= String.length (stringify_at indent v).
Proof.
  induction n as [|n IH]; intros v indent Hsize Hok.
  { destruct v; simpl in Hsize; lia. }
  destruct v as [|b|num|s|items|fields].
  - simpl. lia.
  - destruct b; simpl; lia.
  - destruct (value_head indent (JNumber num) Hok) as (c & t & -> & _). simpl. lia.
  - simpl. lia.
  - destruct items as [|x xs]; [simpl; lia|].
    rewrite stringify_array.
    change (json_size (JArray (x :: xs)))
      with (S (list_sum (map (fun x => S (json_size x)) (x :: xs)))) in *.
    simpl in Hok. apply andb_true_iff in Hok as [Hx Hxs].
    pose proof (length_join_elements (separator (indent +:+ "  "))
                  (stringify_at (indent +:+ "  ")) (x :: xs)) as Hlen.
    cbn [String.length]. rewrite !slength_app.
    assert (Hnl : String.length newline = 1) by reflexivity.
    assert (Hsep : 1 <= String.length (separator (indent +:+ "  "))).
    { unfold separator. rewrite !slength_app. simpl. lia. }
    specialize (Hlen Hsep ltac:(discriminate)).
    assert (Hall : forall y, y ∈ x :: xs ->
              json_size y <= String.length (stringify_at (indent +:+ "  ") y)).
    { intros y Hy. apply IH.
      - pose proof (size_elem (x :: xs) y Hy). lia.
      - apply elem_of_cons in Hy as [->|Hy]; [exact Hx|].
        rewrite forallb_forall in Hxs. apply Hxs. now apply list_elem_of_In. }
    specialize (Hlen Hall). rewrite !Hnl. lia.
  - destruct fields as [|x xs]; [simpl; lia|].
    rewrite stringify_object.
    change (json_size (JObject (x :: xs)))
      with (S (list_sum (map (fun kv => S (json_size (snd kv))) (x :: xs)))) in *.
    cbn [json_ok] in Hok. apply andb_true_iff in Hok as [_ Hxs].
    pose proof (length_join_members (separator (indent +:+ "  "))
                  (stringify_at (indent +:+ "  ")) (x :: xs)) as Hlen.
    cbn [String.length]. rewrite !slength_app.
    assert (Hnl : String.length newline = 1) by reflexivity.
    assert (Hsep : 1 <= String.length (separator (indent +:+ "  "))).
    { unfold separator. rewrite !slength_app. simpl. lia. }
    specialize (Hlen Hsep ltac:(discriminate)).
    assert (Hall : forall kv, kv ∈ x :: xs ->
              json_size kv.2 <= String.length (stringify_at (indent +:+ "  ") kv.2)).
    { intros y Hy. apply IH.
      - pose proof (size_member (x :: xs) y Hy). lia.
      - rewrite forallb_forall in Hxs. apply (Hxs y). now apply list_elem_of_In. }
    specialize (Hlen Hall). unfold member_text. lia.
Qed.

(** The text round trip: [JSON.parse(JSON.stringify(v, null, 2))] is
    [v]. *)
Theorem parse_stringify v : json_ok v = true -> parse (stringify v) = Some v.
Proof.
  intros Hok. unfold parse, stringify.
  pose proof (size_le_length (json_size v) v EmptyString (le_n _) Hok) as Hlen.
  pose proof (reads_all (json_size v) v (le_n _) Hok EmptyString EmptyString
                (S (String.length (stringify_at EmptyString v)))
                eq_refl I ltac:(lia)) as Hread.
  rewrite sapp_nil_r in Hread. rewrite Hread. reflexivity.
Qed.
End JsonTextProofs.

(** ** The retry engine *)

Module RetryProofs.
Import JsString Regex Js Retry JsStringFacts.

Section Traversal.
Variable h : heap.
Variable root : value.

Abbreviation inv := (traversal_inv h root).
Abbreviation pot := (potential h).

(** Popping a value that is not followed. *)
Lemma inv_pop current stack visited messages codes :
  inv (current :: stack) visited messages codes ->
  (forall a, current = VRef a -> a ∈ visited \/ h !! a = None) ->
  inv stack visited messages codes.
Proof.
  intros [Hn Hr] Hcur. split.
  - intros a Ha. destruct (Hn a Ha) as (o & Ho & Hm & Hc & Hb).
    exists o. repeat split; auto.
    intros b Hbo. destruct (Hb b Hbo) as [?|[Hin|?]]; auto.
    apply elem_of_cons in Hin as [Heq|?]; auto.
    symmetry in Heq. destruct (Hcur b Heq); auto.
  - destruct Hr as [Hin|Hr]; [|auto].
    apply elem_of_cons in Hin as [Heq|?]; auto.
    right. intros a Ha. apply Hcur. congruence.
Qed.

Lemma inv_more_messages stack visited messages codes s :
  inv stack visited messages codes ->
  inv stack visited (messages ++ [s]) codes.
Proof.
  intros [Hn Hr]. split; [|exact Hr].
  intros a Ha. destruct (Hn a Ha) as (o & Ho & Hm & Hc & Hb).
  exists o. repeat split; auto.
  intros m Hmo. apply elem_of_app. left. auto.
Qed.

Lemma inv_visit a o stack visited messages codes :
  inv (VRef a :: stack) visited messages codes ->
  h !! a = Some o -> a ∉ visited ->
  inv (reverse (filter (fun v => Is_true (followed a v)) (possibleNestedErrors o))
         ++ stack)
      ({[a]} ∪ visited)
      (match get o "message" with VStr m => messages ++ [m] | _ => messages end)
      (match get o "code" with VStr c => codes ++ [c] | _ => codes end).
Proof.
  intros [Hn Hr] Ho Hna.
  set (messages' := match get o "message" with VStr m => messages ++ [m] | _ => messages end).
  set (codes' := match get o "code" with VStr c => codes ++ [c] | _ => codes end).
  assert (Hmsub : forall m, m ∈ messages -> m ∈ messages').
  { intros m Hm. subst messages'. destruct (get o "message"); auto.
    apply elem_of_app; auto. }
  assert (Hcsub : forall c, c ∈ codes -> c ∈ codes').
  { intros c Hc. subst codes'. destruct (get o "code"); auto.
    apply elem_of_app; auto. }
  split.
  - intros a' Ha'. apply elem_of_union in Ha' as [Ha'|Ha'].
    + apply elem_of_singleton in Ha'. subst a'.
      exists o. split; [exact Ho|]. split; [|split].
      * intros m Hm. subst messages'. rewrite Hm.
        apply elem_of_app. right. apply list_elem_of_singleton. reflexivity.
      * intros c Hc. subst codes'. rewrite Hc.
        apply elem_of_app. right. apply list_elem_of_singleton. reflexivity.
      * intros b Hb. destruct (decide (b = a)) as [->|Hne].
        { left. apply elem_of_union. left. now apply elem_of_singleton. }
        right. left. apply elem_of_app. left. apply elem_of_reverse.
        apply list_elem_of_filter. split; [|exact Hb].
        unfold followed. simpl. rewrite bool_decide_eq_false_2 by congruence.
        exact I.
    + destruct (Hn a' Ha') as (o' & Ho' & Hm & Hc & Hb).
      exists o'. repeat split; auto.
      intros b Hbo. destruct (Hb b Hbo) as [?|[Hin|?]]; auto.
      * left. apply elem_of_union. now right.
      * apply elem_of_cons in Hin as [Heq|?].
        { left. apply elem_of_union. left. apply elem_of_singleton. congruence. }
        right. left. apply elem_of_app. now right.
  - destruct Hr as [Hin|Hr].
    + apply elem_of_cons in Hin as [Heq|?].
      * right. intros a' Ha'. left. apply elem_of_union. left.
        apply elem_of_singleton. congruence.
      * left. apply elem_of_app. now right.
    + right. intros a' Ha'. destruct (Hr a' Ha'); auto.
      left. apply elem_of_union. now right.
Qed.

Lemma potential_visit a o stack visited :
  h !! a = Some o -> a ∉ visited ->
  (pot (reverse (filter (fun v => Is_true (followed a v))
                         (possibleNestedErrors o)) ++ stack)
             ({[a]} ∪ visited)
   < pot (VRef a :: stack) visited)%nat.
Proof.
  intros Ho Hna. unfold Retry.potential.
  rewrite length_app, length_reverse.
  pose proof (length_filter (fun v => Is_true (followed a v))
                (possibleNestedErrors o)) as Hlen.
  simpl in Hlen |- *.
  assert (Ha : a ∈ (set_seq 0 (length h) ∖ visited : gset nat)).
  { apply elem_of_difference. split; [|exact Hna].
    apply elem_of_set_seq. split; [lia|].
    simpl. apply lookup_lt_is_Some. eauto. }
  assert (Heq : (set_seq 0 (length h) ∖ ({[a]} ∪ visited) : gset nat) =
                (set_seq 0 (length h) ∖ visited) ∖ {[a]}).
  { apply set_eq. intros x. set_solver. }
  rewrite Heq.
  rewrite size_difference by (apply singleton_subseteq_l; exact Ha).
  rewrite size_singleton.
  assert (0 < size (set_seq 0 (length h) ∖ visited : gset nat))%nat.
  { destruct (size (set_seq 0 (length h) ∖ visited : gset nat)) eqn:E; [|lia].
    apply size_empty_inv in E. set_solver. }
  lia.
Qed.

Lemma collect_loop_inv fuel : forall stack visited messages codes,
  inv stack visited messages codes ->
  (pot stack visited < fuel)%nat ->
  exists visited' messages' codes',
    collect_loop fuel h stack visited messages codes = Some (messages', codes') /\
    inv [] visited' messages' codes'.
Proof.
  induction fuel as [|fuel IH]; intros stack visited messages codes Hinv Hfuel;
    [lia|].
  destruct stack as [|current stack]; simpl.
  { eauto. }
  assert (Hpop : (pot stack visited < fuel)%nat).
  { unfold Retry.potential in *. simpl in Hfuel. lia. }
  destruct current as [| |b|n|s|a].
  - apply IH; [|exact Hpop]. eapply inv_pop; [exact Hinv|]. discriminate.
  - apply IH; [|exact Hpop]. eapply inv_pop; [exact Hinv|]. discriminate.
  - apply IH; [|exact Hpop]. eapply inv_pop; [exact Hinv|]. discriminate.
  - apply IH; [|exact Hpop]. eapply inv_pop; [exact Hinv|]. discriminate.
  - apply IH; [|exact Hpop]. apply inv_more_messages.
    eapply inv_pop; [exact Hinv|]. discriminate.
  - destruct (h !! a) as [o|] eqn:Ho.
    + destruct (decide (a ∈ visited)) as [Hv|Hv].
      * apply IH; [|exact Hpop]. eapply inv_pop; [exact Hinv|].
        intros ? [= <-]. now left.
      * apply IH.
        -- now apply inv_visit.
        -- pose proof (potential_visit a o stack visited Ho Hv). lia.
    + apply IH; [|exact Hpop]. eapply inv_pop; [exact Hinv|].
      intros ? [= <-]. now right.
Qed.

Lemma chain_visited visited messages codes a :
  inv [] visited messages codes ->
  in_chain h root a -> is_Some (h !! a) -> a ∈ visited.
Proof.
  intros [Hn Hr] Hchain. induction Hchain as [a Hroot|a b o Hchain IH Ho Hb];
    intros Hsome.
  - destruct Hr as [Hin|Hr]; [inversion Hin|].
    destruct (Hr a Hroot) as [?|Hnone]; auto.
    rewrite Hnone in Hsome. now destruct Hsome.
  - assert (Ha : a ∈ visited) by (apply IH; eauto).
    destruct (Hn a Ha) as (o' & Ho' & _ & _ & Hnest).
    assert (o' = o) by congruence. subst o'.
    destruct (Hnest b Hb) as [?|[Hin|Hnone]]; auto.
    + inversion Hin.
    + rewrite Hnone in Hsome. now destruct Hsome.
Qed.

(** The traversal terminates within its fuel and collects the message
    and the code of every object of the chain. *)
Lemma collectErrorDetails_complete :
  exists messages codes,
    collectErrorDetails h root = Some (messages, codes) /\
    forall a o, in_chain h root a -> h !! a = Some o ->
      (forall m, get o "message" = VStr m -> m ∈ messages) /\
      (forall c, get o "code" = VStr c -> c ∈ codes).
Proof.
  destruct (collect_loop_inv (collect_fuel h) [root] ∅ [] [])
    as (visited & messages & codes & Hrun & Hinv).
  - split; [set_solver|]. left. apply list_elem_of_singleton. reflexivity.
  - unfold Retry.potential, collect_fuel. simpl.
    assert (size (set_seq 0 (length h) ∖ ∅ : gset nat) <= length h)%nat.
    { rewrite difference_empty_L, size_set_seq. lia. }
    lia.
  - exists messages, codes. split; [exact Hrun|].
    intros a o Hchain Ho.
    assert (Ha : a ∈ visited) by (eapply chain_visited; eauto).
    destruct Hinv as [Hn _].
    destruct (Hn a Ha) as (o' & Ho' & Hm & Hc & _).
    assert (o' = o) by congruence. subst o'. auto.
Qed.
End Traversal.

Lemma phrases_lower p : p ∈ TRANSIENT_ERROR_PHRASES -> toLowerCase p = p.
Proof.
  unfold TRANSIENT_ERROR_PHRASES. intros H.
  repeat (apply elem_of_cons in H as [->|H]; [reflexivity|]).
  inversion H.
Qed.

Lemma classify_phrase messages codes m phrase :
  m ∈ messages -> phrase ∈ TRANSIENT_ERROR_PHRASES ->
  includes (toLowerCase m) phrase = true ->
  classify messages codes = true.
Proof.
  intros Hm Hp Hinc. unfold classify.
  replace (existsb some_phrase (map toLowerCase messages)) with true; [reflexivity|].
  symmetry. apply existsb_exists. exists (toLowerCase m). split.
  - apply in_map, list_elem_of_In, Hm.
  - unfold some_phrase. apply existsb_exists. exists phrase.
    split; [apply list_elem_of_In, Hp | exact Hinc].
Qed.

Lemma classify_regex messages codes m r :
  m ∈ messages -> r ∈ TRANSIENT_ERROR_REGEXES -> test true r m = true ->
  classify messages codes = true.
Proof.
  intros Hm Hr Ht. unfold classify.
  destruct (existsb some_phrase (map toLowerCase messages)); [reflexivity|].
  replace (existsb some_regex messages) with true; [reflexivity|].
  symmetry. apply existsb_exists. exists m. split; [apply list_elem_of_In, Hm|].
  unfold some_regex. apply existsb_exists. exists r.
  split; [apply list_elem_of_In, Hr | exact Ht].
Qed.

Lemma classify_code messages codes c :
  c ∈ codes -> toUpperCase c ∈ TRANSIENT_ERROR_CODES ->
  classify messages codes = true.
Proof.
  intros Hc Hin. unfold classify.
  destruct (existsb some_phrase (map toLowerCase messages)); [reflexivity|].
  destruct (existsb some_regex messages); [reflexivity|].
  replace (existsb _ (map toUpperCase codes)) with true; [reflexivity|].
  symmetry. apply existsb_exists. exists (toUpperCase c). split.
  - apply in_map, list_elem_of_In, Hc.
  - now apply bool_decide_eq_true.
Qed.

Lemma stream_interruption_code h message details cause :
  let '(h', e) := createStreamInterruptionError h message details cause in
  exists a o, e = VRef a /\ h' !! a = Some o /\
    get o "code" = VStr STREAM_INTERRUPTED_ERROR_CODE.
Proof.
  unfold createStreamInterruptionError, alloc.
  eexists _, _. split; [reflexivity|]. split.
  - apply list_lookup_middle. reflexivity.
  - unfold get. simpl.
    destruct (truthy details); destruct (truthy cause && _);
      now simplify_map_eq.
Qed.

(** C2. An error whose chain contains an object with a transient code
    (after upper-casing), or with a message that contains a transient
    phrase or matches a transient regex, is classified as transient, and
    so is every error made by [createStreamInterruptionError]. *)
Theorem transient_chain_classified :
  (forall (h : heap) (root : value) (a : nat) (o : object),
      in_chain h root a -> h !! a = Some o -> transient_node o ->
      isNetworkTransientError h root = Some true)
  /\
  (forall (h : heap) (message : string) (details cause : value),
      let '(h', e) := createStreamInterruptionError h message details cause in
      isNetworkTransientError h' e = Some true).
Proof.
  assert (Hmain : forall h root a o,
             in_chain h root a -> h !! a = Some o -> transient_node o ->
             isNetworkTransientError h root = Some true).
  { intros h root a o Hchain Ho Hnode.
    destruct (collectErrorDetails_complete h root)
      as (messages & codes & Hrun & Hall).
    destruct (Hall a o Hchain Ho) as [Hm Hc].
    unfold isNetworkTransientError. rewrite Hrun. f_equal.
    destruct Hnode as [(c & Hcode & Hin)|[(m & p & Hmsg & Hp & Hinc)|(m & r & Hmsg & Hr & Ht)]].
    - eapply classify_code; eauto.
    - eapply classify_phrase; eauto.
      destruct Hinc as [Hinc|Hinc]; [|exact Hinc].
      rewrite <- (phrases_lower p Hp). now apply includes_lower.
    - eapply classify_regex; eauto. }
  split; [exact Hmain|].
  intros h message details cause.
  pose proof (stream_interruption_code h message details cause) as Hc.
  destruct (createStreamInterruptionError h message details cause) as [h' e].
  destruct Hc as (a & o & -> & Ho & Hcode).
  apply (Hmain h' (VRef a) a o); [now constructor | exact Ho |].
  left. exists STREAM_INTERRUPTED_ERROR_CODE. split; [exact Hcode|].
  vm_compute. reflexivity.
Qed.

Section Engine.
Context {T : Type}.
Variable Date_parse : string -> option Z.
Variable Date_now : nat -> Z.
Variable random : nat -> Q.
Variable h : heap.
Variable fn : nat -> outcome T.
Variable options : option PartialRetryOptions.

Abbreviation loop := (retry_loop Date_parse Date_now random h fn options).
Abbreviation opts := (merged h options).

(** One failed attempt that is retried: the loop goes round with the
    counters advanced. *)
Lemma retry_loop_retry fuel st error :
  fn (calls st) = Threw error ->
  attempt st + 1 < maxAttempts opts ->
  shouldRetry opts error = true ->
  exists st',
    loop (S fuel) st = loop fuel st' /\
    attempt st' = attempt st + 1 /\ calls st' = S (calls st).
Proof.
  intros Hfn Hlt Hre. cbn [retry_loop].
  replace (attempt st <? maxAttempts opts) with true
    by (symmetry; apply Z.ltb_lt; lia).
  rewrite Hfn, Hre.
  replace (attempt st + 1 >=? maxAttempts opts) with false
    by (symmetry; rewrite Z.geb_leb; apply Z.leb_gt; lia).
  cbn [orb negb].
  destruct (getDelayDurationAndStatus Date_parse _ h error) as [d s].
  destruct (0 <? d); eexists; split; try reflexivity; simpl; auto.
Qed.

Lemma retry_loop_prefix k : forall fuel st,
  (forall j, (j < k)%nat ->
     exists e, fn (calls st + j)%nat = Threw e /\ shouldRetry opts e = true) ->
  attempt st + Z.of_nat k < maxAttempts opts ->
  exists st',
    loop (k + fuel)%nat st = loop fuel st' /\
    attempt st' = attempt st + Z.of_nat k /\
    calls st' = (calls st + k)%nat.
Proof.
  induction k as [|k IH]; intros fuel st Hprior Hlt.
  - exists st. simpl. split; [reflexivity|]. split; lia.
  - destruct (Hprior O ltac:(lia)) as (e & He & Hre).
    rewrite Nat.add_0_r in He.
    destruct (retry_loop_retry (k + fuel) st e He ltac:(lia) Hre)
      as (st1 & Hstep & Ha & Hc).
    destruct (IH fuel st1) as (st' & Hloop & Ha' & Hc').
    + intros j Hj. destruct (Hprior (S j) ltac:(lia)) as (e' & He' & Hre').
      exists e'. split; [|exact Hre'].
      rewrite Hc. now replace (S (calls st) + j)%nat with (calls st + S j)%nat by lia.
    + lia.
    + exists st'. change (S k + fuel)%nat with (S (k + fuel)).
      rewrite Hstep, Hloop. split; [reflexivity|]. split; lia.
Qed.

Lemma retry_loop_returned fuel st v :
  fn (calls st) = Returned v ->
  attempt st < maxAttempts opts ->
  exists st',
    loop (S fuel) st = Some (Resolved v, st') /\ calls st' = S (calls st) /\
    trace st' = trace st ++ [EvInvoke].
Proof.
  intros Hfn Hlt. cbn [retry_loop].
  replace (attempt st <? maxAttempts opts) with true
    by (symmetry; apply Z.ltb_lt; lia).
  rewrite Hfn. eexists; split; [reflexivity|]. simpl; auto.
Qed.

Lemma retry_loop_final fuel st e :
  fn (calls st) = Threw e ->
  attempt st < maxAttempts opts ->
  maxAttempts opts <= attempt st + 1 \/ shouldRetry opts e = false ->
  exists st',
    loop (S fuel) st = Some (Rejected (ThrownError e), st') /\
    calls st' = S (calls st) /\ trace st' = trace st ++ [EvInvoke].
Proof.
  intros Hfn Hlt Hstop. cbn [retry_loop].
  replace (attempt st <? maxAttempts opts) with true
    by (symmetry; apply Z.ltb_lt; lia).
  rewrite Hfn.
  replace ((attempt st + 1 >=? maxAttempts opts) || negb (shouldRetry opts e))
    with true.
  - eexists; split; [reflexivity|]. simpl; auto.
  - symmetry. apply orb_true_iff. destruct Hstop as [H|H].
    + left. rewrite Z.geb_leb. apply Z.leb_le. lia.
    + right. now rewrite H.
Qed.

Abbreviation run := (retryWithBackoff Date_parse Date_now random h fn options).

Lemma run_unfold k :
  Z.of_nat k < maxAttempts opts ->
  exists fuel, S (Z.to_nat (maxAttempts opts)) = (k + S fuel)%nat.
Proof.
  intros H. exists (Z.to_nat (maxAttempts opts) - k)%nat. lia.
Qed.

(** C3. [retryWithBackoff] returns the value of the first invocation
    that succeeds; it re-raises the error of an invocation that fails
    when [shouldRetry] rejects it or the attempts are used up; with
    [maxAttempts = 1] the error of the single invocation is re-raised
    and [fn] is invoked once. *)
Theorem retryWithBackoff_contract :
  (forall (k : nat) (v : T),
      Z.of_nat k < maxAttempts opts ->
      (forall j, (j < k)%nat ->
         exists e, fn j = Threw e /\ shouldRetry opts e = true) ->
      fn k = Returned v ->
      exists st', run = Some (Resolved v, st') /\ calls st' = S k)
  /\
  (forall (k : nat) (e : value),
      Z.of_nat k < maxAttempts opts ->
      (forall j, (j < k)%nat ->
         exists e', fn j = Threw e' /\ shouldRetry opts e' = true) ->
      fn k = Threw e ->
      maxAttempts opts <= Z.of_nat k + 1 \/ shouldRetry opts e = false ->
      exists st', run = Some (Rejected (ThrownError e), st') /\ calls st' = S k)
  /\
  (forall e : value,
      maxAttempts opts = 1 ->
      fn O = Threw e ->
      exists st',
        run = Some (Rejected (ThrownError e), st') /\
        calls st' = 1%nat /\ trace st' = [EvInvoke]).
Proof.
  assert (Hpre : forall k,
             Z.of_nat k < maxAttempts opts ->
             (forall j, (j < k)%nat ->
                exists e, fn j = Threw e /\ shouldRetry opts e = true) ->
             exists fuel st,
               run = loop (S fuel) st /\ attempt st = Z.of_nat k /\
               calls st = k).
  { intros k Hk Hprior.
    destruct (run_unfold k Hk) as [fuel Hfuel].
    destruct (retry_loop_prefix k (S fuel) (initial_state h options))
      as (st & Hloop & Ha & Hc).
    - intros j Hj. simpl. now apply Hprior.
    - simpl. lia.
    - exists fuel, st. unfold retryWithBackoff. rewrite Hfuel, Hloop.
      simpl in Ha, Hc. auto. }
  split; [|split].
  - intros k v Hk Hprior Hfn.
    destruct (Hpre k Hk Hprior) as (fuel & st & Hrun & Ha & Hc).
    destruct (retry_loop_returned fuel st v) as (st' & Hres & Hc' & _).
    + now rewrite Hc.
    + lia.
    + exists st'. rewrite Hrun, Hres, Hc', Hc. auto.
  - intros k e Hk Hprior Hfn Hstop.
    destruct (Hpre k Hk Hprior) as (fuel & st & Hrun & Ha & Hc).
    destruct (retry_loop_final fuel st e) as (st' & Hres & Hc' & _).
    + now rewrite Hc.
    + lia.
    + rewrite Ha. exact Hstop.
    + exists st'. rewrite Hrun, Hres, Hc', Hc. auto.
  - intros e Hmax Hfn.
    destruct (retry_loop_final (Z.to_nat (maxAttempts opts)) (initial_state h options) e)
      as (st' & Hres & Hc' & Ht); simpl; auto; try lia.
    exists st'. unfold retryWithBackoff. rewrite Hres. auto.
Qed.

Lemma jitter_bound (d u : Q) :
  (0 <= u)%Q -> (u < 1)%Q ->
  (Qabs (d * (3 # 10) * (u * 2 - 1)) <= (3 # 10) * Qabs d)%Q.
Proof.
  intros H0 H1.
  rewrite !Qabs_Qmult.
  assert (Hu : (Qabs (u * 2 - 1) <= 1)%Q).
  { apply Qabs_Qle_condition. split; lra. }
  assert (Hd : (0 <= Qabs d)%Q) by apply Qabs_nonneg.
  assert (H3 : (Qabs (3 # 10) == 3 # 10)%Q) by reflexivity.
  rewrite H3.
  set (A := Qabs d) in *. set (B := Qabs (u * 2 - 1)) in *.
  assert (HB : (0 <= B)%Q) by apply Qabs_nonneg.
  nra.
Qed.


Lemma getRetryAfterDelayMs_digits now error hdr :
  retryAfterHeader h error = Some (VStr hdr) ->
  all_digits hdr = true ->
  getRetryAfterDelayMs Date_parse now h error = decimal_value hdr * 1000.
Proof.
  unfold retryAfterHeader, getRetryAfterDelayMs.
  destruct (as_object h error) as [o|]; [|discriminate]. simpl.
  destruct (as_object h (get o "response")) as [r|]; [|discriminate]. simpl.
  destruct (as_object h (get r "headers")) as [hs|]; [|discriminate]. simpl.
  intros [= ->] Hd. now rewrite (parseInt10_digits hdr Hd).
Qed.

End Engine.

Import RetryExamples.

Lemma transient_chain_classified_witness :
  isNetworkTransientError store (VRef 3%nat) = Some true /\
  (let '(h', e) :=
     createStreamInterruptionError store "stream ended" VUndefined (VRef 3%nat) in
   isNetworkTransientError h' e = Some true).
Proof.
  destruct transient_chain_classified as [Hchain Hstream].
  split; [|apply Hstream].
  apply (Hchain store (VRef 3%nat) 4%nat connection_reset).
  - apply (chain_nested store (VRef 3%nat) 3%nat 4%nat request_failed).
    + now apply chain_root.
    + reflexivity.
    + apply list_elem_of_In. vm_compute. now left.
  - reflexivity.
  - left. exists "econnreset". split; vm_compute; reflexivity.
Defined.

Lemma retryWithBackoff_contract_witness :
  (exists st',
      retryWithBackoff no_date epoch quarter store throttled_then_ok (attempts 3)
        = Some (Resolved "ok", st') /\ calls st' = 2%nat)
  /\
  (exists st',
      retryWithBackoff no_date epoch quarter store always_unavailable (attempts 2)
        = Some (Rejected (ThrownError unavailable), st') /\ calls st' = 2%nat)
  /\
  (exists st',
      retryWithBackoff no_date epoch quarter store always_unavailable (attempts 1)
        = Some (Rejected (ThrownError unavailable), st') /\
      calls st' = 1%nat /\ trace st' = [EvInvoke]).
Proof.
  split; [|split].
  - apply (proj1 (retryWithBackoff_contract no_date epoch quarter store
                    throttled_then_ok (attempts 3)) 1%nat "ok").
    + vm_compute. reflexivity.
    + intros j Hj. assert (j = 0%nat) as -> by lia.
      exists throttled. split; vm_compute; reflexivity.
    + reflexivity.
  - apply (proj1 (proj2 (retryWithBackoff_contract no_date epoch quarter store
                           always_unavailable (attempts 2))) 1%nat unavailable).
    + vm_compute. reflexivity.
    + intros j Hj. exists unavailable. split; vm_compute; reflexivity.
    + reflexivity.
    + left. vm_compute. discriminate.
  - apply (proj2 (proj2 (retryWithBackoff_contract no_date epoch quarter store
                           always_unavailable (attempts 1))) unavailable);
      reflexivity.
Defined.


End RetryProofs.

(** ** The template engine *)

Module TemplateProofs.
Import JsString Js TemplateEngine JsStringFacts.
Local Open Scope nat_scope.

Section Loop.
Variable env_DEBUG : option string.
Variable options : option TemplateProcessingOptions.
Variable vars : TemplateVariables.

Abbreviation body content := (loop_body env_DEBUG options content vars).
Abbreviation loop content := (process_loop env_DEBUG options content vars).

Lemma body_shift content pos result log :
  pos <= String.length content ->
  body content result pos log =
  shifted result pos log (body (drop pos content) EmptyString 0 []).
Proof.
  intros Hpos. unfold loop_body.
  set (content' := drop pos content).
  assert (H1 : indexOf "{{" content pos =
               (fun k => pos + k) <$> indexOf "{{" content' 0).
  { rewrite <- (Nat.add_0_r pos) at 1. apply indexOf_drop. lia. }
  rewrite H1.
  destruct (indexOf "{{" content' 0) as [o|] eqn:Eo; simpl.
  2:{ subst content'. now rewrite List.app_nil_r. }
  apply indexOf_bound in Eo as Hb; [|lia].
  subst content'. rewrite str_length_drop in Hb. simpl in Hb.
  set (content' := drop pos content) in *.
  assert (H2 : indexOf "}}" content (pos + o + 2) =
               (fun k => pos + k) <$> indexOf "}}" content' (o + 2)).
  { rewrite <- Nat.add_assoc. apply indexOf_drop. lia. }
  rewrite H2.
  assert (H3 : substring pos (pos + o) content = substring 0 o content').
  { rewrite <- (Nat.add_0_r pos) at 1. apply substring_drop. }
  rewrite H3, str_app_assoc.
  assert (H7 : drop (pos + o) content = drop o content') by apply str_drop_add.
  destruct (indexOf "}}" content' (o + 2)) as [c|] eqn:Ec; simpl.
  2:{ now rewrite H7, str_app_assoc, List.app_nil_r. }
  assert (H4 : substring (pos + o + 2) (pos + c) content =
               substring (o + 2) c content').
  { rewrite <- Nat.add_assoc. apply substring_drop. }
  assert (H5 : substring (pos + o) (pos + c + 2) content =
               substring o (c + 2) content').
  { rewrite <- Nat.add_assoc. apply substring_drop. }
  assert (H6 : substring (pos + o) (pos + o + 2) content =
               substring o (o + 2) content').
  { rewrite <- Nat.add_assoc. apply substring_drop. }
  rewrite H4, H5, H6.
  rewrite <- !(Nat.add_assoc pos).
  destruct (String.eqb _ EmptyString); simpl.
  { now rewrite !str_app_assoc, List.app_nil_r. }
  destruct (includes _ "{{" || includes _ "}}"); simpl.
  { now rewrite !str_app_assoc, List.app_nil_r. }
  destruct (vars !! _) as [[| |v]|]; simpl;
    rewrite ?str_app_assoc, ?List.app_nil_r, <- ?List.app_assoc; reflexivity.
Qed.

Lemma body_progress content piece p lg :
  body content EmptyString 0 [] = Continue piece p lg ->
  0 < p <= String.length content.
Proof.
  unfold loop_body.
  destruct (indexOf "{{" content 0) as [o|] eqn:Eo; [|discriminate].
  apply indexOf_bound in Eo as Hb; [|lia]. simpl in Hb.
  destruct (indexOf "}}" content (o + 2)) as [c|] eqn:Ec; [|discriminate].
  apply indexOf_bound in Ec as Hc; [|lia]. simpl in Hc.
  destruct (String.eqb _ EmptyString); [intros [= <- <- <-]; lia|].
  destruct (includes _ "{{" || includes _ "}}"); [intros [= <- <- <-]; lia|].
  destruct (vars !! _) as [[| |v]|]; intros [= <- <- <-]; lia.
Qed.

Lemma loop_shift fuel : forall content pos result log,
  pos <= String.length content ->
  loop content fuel result pos log =
  extend result log <$> loop (drop pos content) fuel EmptyString 0 [].
Proof.
  induction fuel as [|fuel IH]; intros content pos result log Hpos;
    [reflexivity|].
  cbn [process_loop]. rewrite str_length_drop.
  destruct (Nat.ltb_spec pos (String.length content)) as [Hlt|Hge].
  - replace (0 <? String.length content - pos) with true
      by (symmetry; apply Nat.ltb_lt; lia).
    rewrite body_shift by exact Hpos.
    destruct (body (drop pos content) EmptyString 0 []) as [o lg|piece p lg] eqn:Eb;
      simpl; [reflexivity|].
    apply body_progress in Eb as Hp. rewrite str_length_drop in Hp.
    rewrite (IH content (pos + p)) by lia.
    rewrite (IH (drop pos content) p) by (rewrite str_length_drop; lia).
    rewrite str_drop_drop.
    destruct (loop (drop (pos + p) content) fuel EmptyString 0 []) as [[o l]|];
      simpl; [|reflexivity].
    unfold extend. simpl. now rewrite str_app_assoc, List.app_assoc.
  - replace (0 <? String.length content - pos) with false
      by (symmetry; apply Nat.ltb_ge; lia).
    simpl. unfold extend. simpl. now rewrite str_app_nil_r, List.app_nil_r.
Qed.

Lemma loop_total fuel : forall content,
  String.length content < fuel ->
  is_Some (loop content fuel EmptyString 0 []).
Proof.
  induction fuel as [|fuel IH]; intros content Hfuel; [lia|].
  cbn [process_loop].
  destruct (0 <? String.length content); [|eauto].
  destruct (body content EmptyString 0 []) as [o lg|piece p lg] eqn:Eb; [eauto|].
  apply body_progress in Eb as Hp.
  rewrite loop_shift by lia.
  destruct (IH (drop p content)) as [x Hx].
  { rewrite str_length_drop. lia. }
  rewrite Hx. simpl. eauto.
Qed.

Lemma loop_mono fuel : forall fuel' content result pos log x,
  loop content fuel result pos log = Some x -> fuel <= fuel' ->
  loop content fuel' result pos log = Some x.
Proof.
  induction fuel as [|fuel IH]; intros fuel' content result pos log x H Hle;
    [discriminate|].
  destruct fuel' as [|fuel']; [lia|].
  cbn [process_loop] in *.
  destruct (pos <? String.length content); [|exact H].
  destruct (body content result pos log); [exact H|].
  apply IH; [exact H | lia].
Qed.

Abbreviation rendered content := (render env_DEBUG options content vars).

Lemma render_loop content :
  rendered content =
  fst <$> loop content (S (String.length content)) EmptyString 0 [].
Proof.
  unfold render, processTemplate. simpl.
  destruct (loop content (S (String.length content)) EmptyString 0 [])
    as [[r l]|] eqn:E; simpl in E |- *; rewrite E; reflexivity.
Qed.

Lemma render_total content : is_Some (rendered content).
Proof.
  rewrite render_loop.
  destruct (loop_total (S (String.length content)) content) as [x Hx]; [lia|].
  rewrite Hx. simpl. eauto.
Qed.

Lemma render_break content o lg :
  body content EmptyString 0 [] = Break o lg ->
  rendered content = Some o.
Proof.
  intros Hb. rewrite render_loop. cbn [process_loop].
  destruct (Nat.ltb_spec 0 (String.length content)) as [Hlt|Hge].
  - now rewrite Hb.
  - destruct content; [|simpl in Hge; lia].
    unfold loop_body in Hb. rewrite indexOf_0 in Hb. simpl in Hb.
    now injection Hb as <- <-.
Qed.

Lemma render_continue content piece p lg :
  body content EmptyString 0 [] = Continue piece p lg ->
  rendered content = (fun out => piece +:+ out) <$> rendered (drop p content).
Proof.
  intros Hb. apply body_progress in Hb as Hp.
  destruct (loop_total (S (String.length (drop p content))) (drop p content))
    as [[o l] Hx]; [lia|].
  rewrite (render_loop (drop p content)), Hx. simpl.
  rewrite render_loop. cbn [process_loop].
  replace (0 <? String.length content) with true
    by (symmetry; apply Nat.ltb_lt; lia).
  rewrite Hb, loop_shift by lia.
  rewrite (loop_mono _ (String.length content) _ _ _ _ _ Hx)
    by (rewrite str_length_drop; lia).
  reflexivity.
Qed.

Lemma braces_app tail : "{{" +:+ tail = String "{" (String "{" tail).
Proof. reflexivity. Qed.

Lemma drop_past_opener pre tail n :
  drop (String.length pre + 2 + n) (pre +:+ "{{" +:+ tail) = drop n tail.
Proof.
  rewrite <- Nat.add_assoc, str_drop_add, str_drop_app, braces_app.
  reflexivity.
Qed.

(** The iteration at the first opener of [pre {{ tail]. *)
Lemma body_at_opener pre tail :
  indexOf "{{" (pre +:+ "{{" +:+ tail) 0 = Some (String.length pre) ->
  body (pre +:+ "{{" +:+ tail) EmptyString 0 [] =
  match indexOf "}}" tail 0 with
  | None => Break (pre +:+ "{{" +:+ tail) []
  | Some c =>
      let variableName := trim (take c tail) in
      if String.eqb variableName EmptyString then
        Continue (pre +:+ "{{" +:+ take (c + 2) tail) (String.length pre + 2 + c + 2) []
      else if includes variableName "{{" || includes variableName "}}" then
        Continue (pre +:+ "{{") (String.length pre + 2) []
      else
        match vars !! variableName with
        | Some (TString v) =>
            Continue (pre +:+ v) (String.length pre + 2 + c + 2)
              (logSubstitution env_DEBUG options variableName v)
        | Some TNull | Some TUndefined =>
            Continue pre (String.length pre + 2 + c + 2) []
        | None =>
            Continue pre (String.length pre + 2 + c + 2)
              (logSubstitution env_DEBUG options variableName EmptyString)
        end
  end.
Proof.
  intros Hopen. unfold loop_body. rewrite Hopen.
  set (content := pre +:+ "{{" +:+ tail).
  set (lp := String.length pre).
  assert (Hlen : String.length content = lp + 2 + String.length tail).
  { subst content lp. rewrite !str_length_app. simpl. lia. }
  assert (Hpre : substring 0 lp content = pre).
  { rewrite substring_0. apply str_take_app. }
  assert (Hclose : indexOf "}}" content (lp + 2) =
                   (fun k => lp + 2 + k) <$> indexOf "}}" tail 0).
  { rewrite <- (Nat.add_0_r (lp + 2)) at 1.
    rewrite indexOf_drop by lia.
    subst content lp. now rewrite <- (Nat.add_0_r (_ + 2)), drop_past_opener, str_drop_0. }
  rewrite Hpre, Hclose. simpl.
  assert (Hdrop : drop lp content = "{{" +:+ tail) by apply str_drop_app.
  destruct (indexOf "}}" tail 0) as [c|]; simpl.
  2:{ now rewrite Hdrop. }
  assert (Hname : substring (lp + 2) (lp + 2 + c) content = take c tail).
  { rewrite <- (Nat.add_0_r (lp + 2)) at 1. rewrite substring_drop, substring_0.
    subst content lp. now rewrite <- (Nat.add_0_r (_ + 2)), drop_past_opener, str_drop_0. }
  assert (Hwhole : substring lp (lp + 2 + c + 2) content = "{{" +:+ take (c + 2) tail).
  { unfold substring. rewrite Hdrop, braces_app.
    replace (lp + 2 + c + 2 - lp) with (S (S (c + 2))) by lia. reflexivity. }
  assert (Hbr : substring lp (lp + 2) content = "{{").
  { unfold substring. rewrite Hdrop, braces_app.
    replace (lp + 2 - lp) with 2 by lia. reflexivity. }
  rewrite Hname, Hwhole, Hbr.
  destruct (String.eqb _ EmptyString); [reflexivity|].
  destruct (includes _ "{{" || includes _ "}}"); [reflexivity|].
  destruct (vars !! _) as [[| |v]|]; reflexivity.
Qed.
End Loop.

Lemma no_white_open : no_white "{{". Proof. reflexivity. Qed.
Lemma no_white_close : no_white "}}". Proof. reflexivity. Qed.

(** The text before the next closer does not contain a closer. *)
Lemma body_without_closer body rest :
  indexOf "}}" (body +:+ "}}" +:+ rest) 0 = Some (String.length body) ->
  includes (trim body) "}}" = false.
Proof.
  intros H. rewrite includes_trim by (apply no_white_close || discriminate).
  destruct (includes body "}}") eqn:E; [|reflexivity].
  destruct (includes_indexOf body "}}" ("}}" +:+ rest) ltac:(discriminate) E)
    as (k & Hk & Hlt).
  rewrite indexOf_0, Hk in H. injection H as ->. lia.
Qed.


Section Determinism.
Variables env1 env2 : option string.
Variables options1 options2 : option TemplateProcessingOptions.
Variable content : string.
Variable vars : TemplateVariables.

(** Two iterations that differ in the environment and the options end
    alike, up to the console lines. *)
Lemma loop_body_same result pos log1 log2 :
  match loop_body env1 options1 content vars result pos log1,
        loop_body env2 options2 content vars result pos log2 with
  | Break r1 _, Break r2 _ => r1 = r2
  | Continue r1 p1 _, Continue r2 p2 _ => r1 = r2 /\ p1 = p2
  | _, _ => False
  end.
Proof.
  unfold loop_body.
  destruct (indexOf "{{" content pos) as [o|]; [|reflexivity].
  destruct (indexOf "}}" content (o + 2)) as [c|]; [|reflexivity].
  destruct (String.eqb _ EmptyString); [auto|].
  destruct (includes _ "{{" || includes _ "}}"); [auto|].
  destruct (vars !! _) as [[| |v]|]; auto.
Qed.

Lemma process_loop_same fuel : forall result pos log1 log2,
  fst <$> process_loop env1 options1 content vars fuel result pos log1 =
  fst <$> process_loop env2 options2 content vars fuel result pos log2.
Proof.
  induction fuel as [|fuel IH]; intros result pos log1 log2; [reflexivity|].
  cbn [process_loop].
  destruct (pos <? String.length content); [|reflexivity].
  pose proof (loop_body_same result pos log1 log2) as H.
  destruct (loop_body env1 options1 content vars result pos log1),
           (loop_body env2 options2 content vars result pos log2);
    try contradiction.
  - now subst.
  - destruct H as [-> ->]. apply IH.
Qed.
End Determinism.

(** C9. The value returned by [processTemplate] is a function of the
    template and of the variable map alone: two calls on the same
    content and map return the same value whatever [process.env.DEBUG]
    and the options are. *)
Theorem processTemplate_deterministic
    (env1 env2 : option string)
    (options1 options2 : option TemplateProcessingOptions)
    (content : value) (variables : option TemplateVariables) :
  fst <$> processTemplate env1 content variables options1 =
  fst <$> processTemplate env2 content variables options2.
Proof.
  destruct content as [| |b|n|s|a]; try reflexivity.
  unfold processTemplate.
  pose proof (process_loop_same env1 env2 options1 options2 s
                (default ∅ variables) (S (String.length s)) EmptyString 0 [] [])
    as H.
  destruct (process_loop env1 _ _ _ _ _ _ _) as [[r1 l1]|],
           (process_loop env2 _ _ _ _ _ _ _) as [[r2 l2]|];
    simpl in *; congruence.
Qed.

Import TemplateExamples.

End TemplateProofs.

(** ** The profile manager *)

Module ProfileProofs.
Import JsString Json ProfileManager JsStringFacts.

Section Manager.
Variable path_join : list string -> string.
Variable JSON_stringify : json -> string.
Variable JSON_parse : string -> string + json.
Variable this : ProfileManager.

Abbreviation save := (saveProfile path_join JSON_stringify this).
Abbreviation load := (loadProfile path_join JSON_parse this).
Abbreviation path_of name := (profile_path path_join this name).

Lemma try_valid fs name content p :
  fs !! path_of name = Some content ->
  JSON_parse content = inr p ->
  required_fields_truthy p = true ->
  is_one (prop p "version") = true ->
  loadProfile_try JSON_parse fs (path_of name) = inr p.
Proof.
  intros Hfs Hparse Hreq Hone.
  unfold loadProfile_try, readFile. rewrite Hfs, Hparse.
  unfold required_fields_truthy in Hreq.
  repeat (apply andb_true_iff in Hreq as [Hreq ?]).
  destruct p; try discriminate.
  repeat match goal with H : truthy _ = true |- _ => rewrite H; clear H end.
  rewrite Hone. reflexivity.
Qed.

(** A profile of version 1 whose five required fields are truthy, and
    which [JSON.parse] reads back from its [JSON.stringify] text, is
    returned by [loadProfile] after [saveProfile] under the same
    name, whatever the codec of the platform. *)
Lemma saveProfile_loadProfile_codec (fs : filesystem) (name : string) (p : json) :
  JSON_parse (JSON_stringify p) = inr p ->
  required_fields_truthy p = true ->
  is_one (prop p "version") = true ->
  load (save fs name p) name = inr p.
Proof.
  intros Hrt Hreq Hone. unfold loadProfile.
  rewrite (try_valid _ name (JSON_stringify p) p); auto.
  unfold saveProfile, writeFile. apply lookup_insert_eq.
Qed.

(** The errors of [loadProfile], path by path.  It throws an error that
    names the profile when the file is missing ("not found"), when the
    text is not JSON ("corrupted", for a parser message without
    [ENOENT]) and when the value read is not [null] and lacks a
    required field ("invalid: missing required fields").  A profile
    that has the required fields and a version other than 1 makes it
    throw "unsupported profile version", which the [catch] block
    rethrows as it is. *)
Lemma loadProfile_error_paths (fs : filesystem) (name : string) :
  (fs !! path_of name = None ->
     load fs name = inl (JsError ClsError ("Profile '" +:+ name +:+ "' not found")))
  /\
  (forall content msg,
     fs !! path_of name = Some content ->
     JSON_parse content = inl msg ->
     includes msg "ENOENT" = false ->
     load fs name = inl (JsError ClsError ("Profile '" +:+ name +:+ "' is corrupted")))
  /\
  (forall content p,
     fs !! path_of name = Some content ->
     JSON_parse content = inr p ->
     p <> JNull ->
     required_fields_truthy p = false ->
     load fs name =
       inl (JsError ClsError
              ("Profile '" +:+ name +:+ "' is invalid: missing required fields")))
  /\
  (forall content p,
     fs !! path_of name = Some content ->
     JSON_parse content = inr p ->
     required_fields_truthy p = true ->
     is_one (prop p "version") = false ->
     load fs name = inl (JsError ClsError "unsupported profile version"))
  /\
  (includes ("Profile '" +:+ name +:+ "' not found") name = true /\
   includes ("Profile '" +:+ name +:+ "' is corrupted") name = true /\
   includes ("Profile '" +:+ name +:+ "' is invalid: missing required fields") name
     = true).
Proof.
  split; [|split; [|split; [|split]]].
  - intros Hfs. unfold loadProfile, loadProfile_try, readFile. rewrite Hfs.
    reflexivity.
  - intros content msg Hfs Hparse Hno.
    unfold loadProfile, loadProfile_try, readFile. rewrite Hfs, Hparse.
    simpl. rewrite Hno. reflexivity.
  - intros content p Hfs Hparse Hnull Hreq.
    unfold loadProfile, loadProfile_try, readFile. rewrite Hfs, Hparse.
    unfold required_fields_truthy in Hreq.
    assert (Hor : negb (truthy (prop p "version")) ||
                  negb (truthy (prop p "provider")) ||
                  negb (truthy (prop p "model")) ||
                  negb (truthy (prop p "modelParams")) ||
                  negb (truthy (prop p "ephemeralSettings")) = true).
    { destruct (truthy (prop p "version")), (truthy (prop p "provider")),
        (truthy (prop p "model")), (truthy (prop p "modelParams")),
        (truthy (prop p "ephemeralSettings")); simpl in *; congruence. }
    destruct p; try contradiction; rewrite Hor; reflexivity.
  - intros content p Hfs Hparse Hreq Hone.
    unfold loadProfile, loadProfile_try, readFile. rewrite Hfs, Hparse.
    unfold required_fields_truthy in Hreq.
    repeat (apply andb_true_iff in Hreq as [Hreq ?]).
    destruct p; try discriminate.
    repeat match goal with H : truthy _ = true |- _ => rewrite H; clear H end.
    rewrite Hone. reflexivity.
  - repeat split; apply includes_name.
Qed.
End Manager.


Import NodePlatform JsonText.




(** The three errors that name the profile, on the platform above. *)
Example loadProfile_named_errors :
  load ∅ "demo" = inl (JsError ClsError "Profile 'demo' not found")
  /\
  load {[ demo_path := "{oops" ]} "demo" =
    inl (JsError ClsError "Profile 'demo' is corrupted")
  /\
  load {[ demo_path := stringify no_provider ]} "demo" =
    inl (JsError ClsError "Profile 'demo' is invalid: missing required fields").
Proof.
  split; [|split].
  - apply (proj1 (loadProfile_error_paths path_join JSON_parse manager ∅ "demo")).
    reflexivity.
  - apply (proj1 (proj2 (loadProfile_error_paths path_join JSON_parse manager
                           {[ demo_path := "{oops" ]} "demo"))
             "{oops" "Unexpected token in JSON"); vm_compute; reflexivity.
  - apply (proj1 (proj2 (proj2 (loadProfile_error_paths path_join JSON_parse manager
                           {[ demo_path := stringify no_provider ]} "demo")))
             (stringify no_provider) no_provider);
      vm_compute; (reflexivity || discriminate).
Qed.

(** C8. The claim holds on the three paths above and breaks on a stored
    profile of version 2: [loadProfile] reads the file [demo.json], finds
    the five required fields, and throws "unsupported profile version",
    a message that does not contain the name of the profile. *)
Theorem loadProfile_unsupported_version :
  load {[ demo_path := stringify version_two ]} "demo" =
    inl (JsError ClsError "unsupported profile version") /\
  includes "unsupported profile version" "demo" = false.
Proof. repeat split; vm_compute; reflexivity. Qed.
End ProfileProofs.

(** ** The provider manager *)

Module ProviderManagerProofs.
Import JsString ProviderManager.

Lemma clamp_nonneg c : 0 <= clamp c.
Proof. unfold clamp. lia. Qed.

Lemma clamp_of_nonneg n : 0 <= n -> clamp (CNum n) = n.
Proof. unfold clamp; simpl. lia. Qed.

Lemma apply_op_consistent m op :
  consistent (sessionTokenUsage m) ->
  consistent (sessionTokenUsage (apply_op m op)).
Proof.
  unfold consistent. intros (Hi & Ho & Hc & Ht & Hth & Htot & Hsum).
  destruct op as [n u|]; simpl.
  - pose proof (clamp_nonneg (u_input u)). pose proof (clamp_nonneg (u_output u)).
    pose proof (clamp_nonneg (u_cache u)). pose proof (clamp_nonneg (u_tool u)).
    pose proof (clamp_nonneg (u_thought u)). lia.
  - lia.
Qed.

Lemma run_consistent ops : forall m,
  consistent (sessionTokenUsage m) ->
  consistent (sessionTokenUsage (run m ops)).
Proof.
  induction ops as [|op ops IH]; intros m Hm; simpl.
  - exact Hm.
  - apply IH. now apply apply_op_consistent.
Qed.

Lemma getSessionTokenUsage_id m :
  getSessionTokenUsage m = sessionTokenUsage m.
Proof. unfold getSessionTokenUsage. now destruct (sessionTokenUsage m). Qed.


Lemma providers_has_true ps n :
  providers_has ps n = true <-> exists p, providers_get ps n = Some p.
Proof.
  unfold providers_has. rewrite bool_decide_eq_true. reflexivity.
Qed.

Lemma providers_get_elem ps n :
  is_Some (providers_get ps n) <-> n ∈ map fst ps.
Proof.
  induction ps as [|[k p] ps IH]; simpl.
  - split; [intros [? ?]; discriminate | intros H; inversion H].
  - destruct (String.eqb k n) eqn:E.
    + apply String.eqb_eq in E; subst. split; [left | eauto].
    + apply String.eqb_neq in E. rewrite IH, elem_of_cons. split; [tauto | intros [?|?]; [congruence|tauto]].
Qed.

Lemma providers_has_elem ps n :
  providers_has ps n = bool_decide (n ∈ map fst ps).
Proof. apply bool_decide_ext, providers_get_elem. Qed.

Lemma setActiveProvider_settings m n m' :
  setActiveProvider m n = inr m' ->
  settings m' !! "activeProvider" = Some n /\ providers m' = providers m.
Proof.
  unfold setActiveProvider.
  destruct (providers_has (providers m) n); simpl; [|discriminate].
  intros [= <-].
  repeat match goal with
  | |- context [if ?b then _ else _] => destruct b
  | |- context [match ?x with _ => _ end] => destruct x
  end; simpl; rewrite ?lookup_insert_eq; auto.
Qed.

Lemma setActiveProvider_registered m n :
  providers_has (providers m) n = true -> exists m', setActiveProvider m n = inr m'.
Proof.
  intros H. unfold setActiveProvider. rewrite H. simpl. eauto.
Qed.

Lemma fallbackName_ladder m :
  fallbackName m =
  default EmptyString
    (ladder_spec None ((config m ≫= getProvider) ≫= set_name) (map fst (providers m))).
Proof.
  unfold fallbackName, ladder_spec.
  rewrite !providers_has_elem.
  destruct (config m ≫= getProvider) as [c|] eqn:Ec; simpl.
  - unfold set_name. destruct (nonempty c) eqn:En; simpl.
    + destruct (bool_decide (c ∈ map fst (providers m))); [reflexivity|].
      destruct (bool_decide ("openai" ∈ map fst (providers m))); [reflexivity|].
      now destruct (providers m) as [|[k p] ps].
    + destruct (bool_decide ("openai" ∈ map fst (providers m))); [reflexivity|].
      now destruct (providers m) as [|[k p] ps].
  - destruct (bool_decide ("openai" ∈ map fst (providers m))); [reflexivity|].
    now destruct (providers m) as [|[k p] ps].
Qed.

Lemma fallbackName_registered m :
  nonempty (fallbackName m) = true ->
  providers_has (providers m) (fallbackName m) = true.
Proof.
  unfold fallbackName.
  destruct (nonempty _ && providers_has _ _) eqn:E1.
  - apply andb_true_iff in E1 as [_ ?]. auto.
  - destruct (providers_has (providers m) "openai") eqn:E2; [auto|].
    destruct (providers m) as [|[k p] ps]; [discriminate|].
    intros _. rewrite providers_has_elem. apply bool_decide_eq_true. left.
Qed.

(** C6. [getActiveProvider] resolves the name by the ladder of the
    specification: the settings key when set (then nothing is written);
    otherwise [config.getProvider()] when registered, else ["openai"] when
    registered, else the first registered provider, and this name is
    written to the settings by [setActiveProvider] in the state in which
    the provider is returned.  When no name is resolved the call throws
    and the state is unchanged. *)
Theorem getActiveProvider_ladder (m : manager) :
  let active := settings_activeProvider m in
  let chosen :=
    default EmptyString
      (ladder_spec (set_name active) ((config m ≫= getProvider) ≫= set_name)
                   (map fst (providers m))) in
  if nonempty chosen then
    if nonempty active then
      chosen = active /\
      getActiveProvider m =
        (match providers_get (providers m) active with
         | Some p => inr p
         | None => inl "Active provider not found"
         end, m)
    else
      exists p m',
        providers_get (providers m) chosen = Some p /\
        setActiveProvider m chosen = inr m' /\
        settings m' !! "activeProvider" = Some chosen /\
        getActiveProvider m = (inr p, m')
  else getActiveProvider m = (inl "No active provider set", m).
Proof.
  intros active chosen.
  assert (Hfall : nonempty active = false -> chosen = fallbackName m).
  { intros Ea. subst chosen. unfold set_name at 1. rewrite Ea.
    symmetry. apply fallbackName_ladder. }
  assert (Hset : nonempty active = true -> chosen = active).
  { intros Ea. subst chosen. unfold set_name at 1. now rewrite Ea. }
  clearbody chosen.
  unfold getActiveProvider. fold active.
  destruct (nonempty active) eqn:Ea.
  - rewrite (Hset eq_refl). rewrite Ea. simpl. rewrite Ea. simpl.
    split; [reflexivity|]. now destruct (providers_get (providers m) active).
  - rewrite (Hfall eq_refl). simpl.
    destruct (nonempty (fallbackName m)) eqn:Ef.
    + pose proof (fallbackName_registered m Ef) as Hreg.
      destruct (setActiveProvider_registered m _ Hreg) as [m' Hm'].
      destruct (setActiveProvider_settings m _ m' Hm') as [Hs Hp].
      apply providers_has_true in Hreg as [p Hget].
      exists p, m'. rewrite Hm'. simpl. rewrite Ef. simpl.
      rewrite Hp, Hget. auto.
    + simpl. rewrite Ef. reflexivity.
Qed.

End ProviderManagerProofs.

(** ** The retry loop as a whole *)

Module RetryLoopProofs.
Import JsString Js Retry RetryTrace JsStringFacts.

Lemma sleeps_app a b : sleeps (a ++ b) = sleeps a ++ sleeps b.
Proof. apply omap_app. Qed.
Lemma tracks_app a b : tracks (a ++ b) = tracks a ++ tracks b.
Proof. apply omap_app. Qed.
Lemma invocations_app a b : invocations (a ++ b) = (invocations a + invocations b)%nat.
Proof. unfold invocations. now rewrite omap_app, length_app. Qed.

Section Engine.
Context {T : Type}.
Variable Date_parse : string -> option Z.
Variable Date_now : nat -> Z.
Variable random : nat -> Q.
Variable h : heap.
Variable fn : nat -> outcome T.
Variable options : option PartialRetryOptions.

Abbreviation loop := (retry_loop Date_parse Date_now random h fn options).
Abbreviation opts := (merged h options).
Abbreviation run := (retryWithBackoff Date_parse Date_now random h fn options).
Abbreviation next := (retried Date_parse Date_now random h options).
Abbreviation again := (retries h fn options).
Abbreviation ends := (settles h fn options).

(** One iteration of the loop. *)
Lemma loop_step fuel st :
  loop (S fuel) st =
  if attempt st <? maxAttempts opts then
    match fn (calls st) with
    | Returned v => Some (Resolved v, invoked st)
    | Threw error =>
        if (attempt st + 1 >=? maxAttempts opts) || negb (shouldRetry opts error)
        then Some (Rejected (ThrownError error), invoked st)
        else loop fuel (next st error)
    end
  else Some (Rejected RetryAttemptsExhausted, st).
Proof.
  cbn [retry_loop]. destruct (attempt st <? maxAttempts opts); [|reflexivity].
  destruct (fn (calls st)) as [v|error]; [reflexivity|].
  destruct ((attempt st + 1 >=? maxAttempts opts) || negb (shouldRetry opts error));
    [reflexivity|].
  unfold retried.
  destruct (getDelayDurationAndStatus Date_parse _ h error) as [d s]. simpl.
  now destruct (0 <? d).
Qed.

Lemma next_counters st error :
  attempt (next st error) = attempt st + 1 /\
  calls (next st error) = S (calls st).
Proof. unfold retried. now destruct (0 <? _). Qed.

(** The loop settles when it is given more iterations than attempts
    are left. *)
Lemma retry_loop_total fuel : forall st,
  (Z.to_nat (maxAttempts opts - attempt st) < fuel)%nat ->
  is_Some (loop fuel st).
Proof.
  induction fuel as [|fuel IH]; intros st Hfuel; [lia|].
  rewrite loop_step.
  destruct (attempt st <? maxAttempts opts) eqn:E; [|eauto].
  apply Z.ltb_lt in E.
  destruct (fn (calls st)) as [v|error]; [eauto|].
  destruct (_ || _); [eauto|].
  apply IH. destruct (next_counters st error) as [-> _]. lia.
Qed.

(** A property kept by every retried failure holds in the state from
    which the loop settles. *)
Lemma loop_invariant (P : loop_state -> Prop) :
  (forall st error, P st -> again st error -> P (next st error)) ->
  forall fuel st res st',
    P st -> loop fuel st = Some (res, st') ->
    exists st0, P st0 /\ ends st0 res st'.
Proof.
  intros Hkeep. induction fuel as [|fuel IH]; intros st res st' HP Hrun;
    [discriminate|].
  rewrite loop_step in Hrun.
  destruct (attempt st <? maxAttempts opts) eqn:E.
  - apply Z.ltb_lt in E.
    destruct (fn (calls st)) as [v|error] eqn:Hfn.
    + injection Hrun as <- <-. exists st. split; [exact HP|].
      right. split; [exact E|]. split; [reflexivity|]. left. eauto.
    + destruct ((attempt st + 1 >=? maxAttempts opts) ||
                negb (shouldRetry opts error)) eqn:Hstop.
      * injection Hrun as <- <-. exists st. split; [exact HP|].
        right. split; [exact E|]. split; [reflexivity|]. right.
        exists error. split; [exact Hfn|]. split; [reflexivity|].
        apply orb_true_iff in Hstop as [Hs|Hs].
        -- left. rewrite Z.geb_leb in Hs. apply Z.leb_le in Hs. lia.
        -- right. now destruct (shouldRetry opts error).
      * apply orb_false_iff in Hstop as [Hs1 Hs2].
        rewrite Z.geb_leb in Hs1. apply Z.leb_gt in Hs1.
        apply (IH (next st error)); [|exact Hrun].
        apply Hkeep; [exact HP|]. split; [lia|]. split; [exact Hfn|].
        now destruct (shouldRetry opts error).
  - apply Z.ltb_ge in E. injection Hrun as <- <-. exists st.
    split; [exact HP|]. left. auto.
Qed.

Lemma run_total : is_Some run.
Proof. apply retry_loop_total. simpl. lia. Qed.

Lemma track_sleeps ms : sleeps (track options ms) = [].
Proof. unfold track. now destruct (tracker options). Qed.
Lemma track_tracks ms :
  tracks (track options ms) = if tracker options then [ms] else [].
Proof. unfold track. now destruct (tracker options). Qed.
Lemma track_invocations ms : invocations (track options ms) = 0%nat.
Proof. unfold track. now destruct (tracker options). Qed.

(** The trace added by a retried failure: one invocation, one sleep,
    and the report of that sleep. *)
Lemma next_trace st error :
  exists ms : Q,
    (0 <= ms)%Q /\
    trace (next st error) = trace st ++ [EvInvoke; EvSleep ms] ++ track options ms.
Proof.
  unfold retried. destruct (0 <? _) eqn:E; simpl.
  - eexists. split; cycle 1.
    + now rewrite <- !List.app_assoc.
    + apply Z.ltb_lt in E. change 0%Q with (inject_Z 0).
      rewrite <- Zle_Qle. simpl in E. lia.
  - eexists. split; cycle 1.
    + now rewrite <- !List.app_assoc.
    + apply Q.le_max_l.
Qed.

(** X1. [retryWithBackoff] always settles.  [fn] is invoked at most
    [maxAttempts] times, with exactly one wait between two
    invocations; the error "Retry attempts exhausted" is thrown
    exactly when [maxAttempts] is not positive, and then [fn] is not
    invoked at all. *)
Theorem retryWithBackoff_budget :
  exists (res : result T) (st' : loop_state),
    run = Some (res, st') /\
    Z.of_nat (calls st') <= Z.max 0 (maxAttempts opts) /\
    invocations (trace st') = calls st' /\
    length (sleeps (trace st')) = Nat.pred (calls st') /\
    (res = Rejected RetryAttemptsExhausted <-> maxAttempts opts <= 0) /\
    (maxAttempts opts <= 0 -> trace st' = []).
Proof.
  destruct run_total as [[res st'] Hrun]. exists res, st'.
  split; [exact Hrun|].
  set (P := fun st : loop_state =>
              attempt st = Z.of_nat (calls st) /\
              invocations (trace st) = calls st /\
              length (sleeps (trace st)) = calls st /\
              (calls st = 0%nat -> trace st = []) /\
              (calls st <> 0%nat -> attempt st < maxAttempts opts)).
  assert (Hkeep : forall st error, P st -> again st error -> P (next st error));
    [|assert (Hinit : P (initial_state h options));
      [|destruct (loop_invariant P Hkeep _ _ _ _ Hinit Hrun) as (st0 & HP & Hend)]].
  - intros st error (Ha & Hi & Hs & _ & _) (Hlt & _ & _).
    destruct (next_counters st error) as [Ha' Hc'].
    destruct (next_trace st error) as (ms & _ & Ht).
    unfold P. rewrite Ha', Hc', Ht.
    rewrite invocations_app, sleeps_app, length_app. cbn [app].
    change (EvInvoke :: EvSleep ms :: track options ms)
      with ([EvInvoke; EvSleep ms] ++ track options ms).
    rewrite invocations_app, sleeps_app, length_app.
    rewrite track_invocations, track_sleeps. simpl.
    repeat split; try lia.
  - unfold P. simpl. repeat split; auto; lia.
  - destruct HP as (Ha & Hi & Hs & Hnil & Hlt).
    destruct Hend as [(Hge & -> & ->)|(Hlt0 & -> & Hres)].
    + assert (calls st0 = 0%nat) as Hc0.
      { destruct (decide (calls st0 = 0%nat)) as [|Hne]; [auto|].
        specialize (Hlt Hne). lia. }
      rewrite Hc0 in *. simpl in Ha. rewrite Ha in Hge.
      repeat split; auto; try lia.
    + simpl. rewrite invocations_app, sleeps_app, length_app.
      simpl. unfold invocations at 2. simpl.
      repeat split; try lia.
      destruct Hres as [(v & _ & ->)|(e & _ & -> & _)]; discriminate.
Qed.

(** X2. Every wait is reported: when [trackThrottleWaitTime] is given
    it receives the durations of the waits, each once and in order;
    when it is absent nothing is reported. *)
Theorem retryWithBackoff_tracking (res : result T) (st' : loop_state) :
  run = Some (res, st') ->
  tracks (trace st') = if tracker options then sleeps (trace st') else [].
Proof.
  intros Hrun.
  set (P := fun st : loop_state =>
              tracks (trace st) = if tracker options then sleeps (trace st) else []).
  assert (Hkeep : forall st error, P st -> again st error -> P (next st error));
    [|assert (Hinit : P (initial_state h options));
      [|destruct (loop_invariant P Hkeep _ _ _ _ Hinit Hrun) as (st0 & HP & Hend)]].
  - intros st error HPst _. unfold P in *.
    destruct (next_trace st error) as (ms & _ & ->).
    rewrite tracks_app, sleeps_app, HPst.
    change (EvInvoke :: EvSleep ms :: track options ms)
      with ([EvInvoke; EvSleep ms] ++ track options ms).
    rewrite tracks_app, sleeps_app, track_tracks, track_sleeps. simpl.
    now destruct (tracker options).
  - unfold P. simpl. now destruct (tracker options).
  - unfold P in HP.
    destruct Hend as [(_ & _ & ->)|(_ & -> & _)]; [exact HP|].
    simpl. rewrite tracks_app, sleeps_app, HP. simpl.
    now rewrite !List.app_nil_r.
Qed.

(** X3. No wait has a negative duration. *)
Theorem retryWithBackoff_sleeps_nonneg (res : result T) (st' : loop_state) :
  run = Some (res, st') ->
  Forall (fun ms => (0 <= ms)%Q) (sleeps (trace st')).
Proof.
  intros Hrun.
  set (P := fun st : loop_state => Forall (fun ms => (0 <= ms)%Q) (sleeps (trace st))).
  assert (Hkeep : forall st error, P st -> again st error -> P (next st error));
    [|assert (Hinit : P (initial_state h options));
      [|destruct (loop_invariant P Hkeep _ _ _ _ Hinit Hrun) as (st0 & HP & Hend)]].
  - intros st error HPst _. unfold P in *.
    destruct (next_trace st error) as (ms & Hms & ->).
    rewrite sleeps_app.
    change (EvInvoke :: EvSleep ms :: track options ms)
      with ([EvInvoke; EvSleep ms] ++ track options ms).
    rewrite sleeps_app, track_sleeps. simpl.
    apply Forall_app. split; [exact HPst|]. now constructor.
  - constructor.
  - unfold P in HP.
    destruct Hend as [(_ & _ & ->)|(_ & -> & _)]; [exact HP|].
    simpl. rewrite sleeps_app. simpl. now rewrite List.app_nil_r.
Qed.

Lemma base_delay_next k :
  (0 <= initialDelayMs opts)%Q -> (0 <= maxDelayMs opts)%Q ->
  forall d : Q, (d == base_delay opts k)%Q ->
  (Qmin (maxDelayMs opts) (d * 2) == base_delay opts (S k))%Q.
Proof.
  intros HI HM d Hd.
  set (M := maxDelayMs opts) in *. set (I := initialDelayMs opts) in *.
  assert (Hpow : forall j, (inject_Z (2 ^ Z.of_nat (S j))
                            == inject_Z (2 ^ Z.of_nat j) * 2)%Q).
  { intros j. rewrite Nat2Z.inj_succ, Z.pow_succ_r by lia.
    rewrite inject_Z_mult. change (inject_Z 2) with 2%Q. lra. }
  assert (Hpos : forall j, (0 <= inject_Z (2 ^ Z.of_nat j))%Q).
  { intros j. change 0%Q with (inject_Z 0). rewrite <- Zle_Qle.
    apply Z.pow_nonneg. lia. }
  cbn [base_delay]. fold M I.
  destruct k as [|k].
  - cbn [base_delay] in Hd. fold I in Hd.
    change (inject_Z (2 ^ Z.of_nat 1)) with 2%Q.
    destruct (Q.min_spec M (d * 2)) as [[H1 ->]|[H1 ->]];
      destruct (Q.min_spec M (I * 2)) as [[H2 ->]|[H2 ->]]; lra.
  - cbn [base_delay] in Hd. fold M I in Hd.
    pose proof (Hpow (S k)) as Hp. pose proof (Hpos (S k)) as Hq.
    set (x := inject_Z (2 ^ Z.of_nat (S k))) in *.
    set (y := inject_Z (2 ^ Z.of_nat (S (S k)))) in *.
    assert (Hx : (0 <= I * x)%Q) by nra.
    assert (Hy : (I * y == I * x * 2)%Q) by (rewrite Hp; lra).
    destruct (Q.min_spec M (I * x)) as [[H0 H0']|[H0 H0']];
      rewrite H0' in Hd;
      destruct (Q.min_spec M (d * 2)) as [[H1 ->]|[H1 ->]];
      destruct (Q.min_spec M (I * y)) as [[H2 ->]|[H2 ->]]; lra.
Qed.

(** X4. The schedule of the exponential backoff.  When no failure
    carries a usable [Retry-After] delay, the [k]-th wait (from 0)
    lasts between 70% and 130% of [initialDelayMs * 2^k] capped by
    [maxDelayMs] (of [initialDelayMs] itself for the first wait), for
    non-negative delays and [Math.random()] in [0, 1). *)
Theorem retryWithBackoff_schedule (res : result T) (st' : loop_state) :
  (0 <= initialDelayMs opts)%Q -> (0 <= maxDelayMs opts)%Q ->
  (forall n, (0 <= random n)%Q /\ (random n < 1)%Q) ->
  (forall n e, fn n = Threw e ->
     fst (getDelayDurationAndStatus Date_parse (Date_now n) h e) <= 0) ->
  run = Some (res, st') ->
  forall (k : nat) (ms : Q),
    sleeps (trace st') !! k = Some ms ->
    ((7 # 10) * base_delay opts k <= ms)%Q /\
    (ms <= (13 # 10) * base_delay opts k)%Q.
Proof.
  intros HI HM Hrand Hno Hrun.
  set (P := fun st : loop_state =>
              length (sleeps (trace st)) = draws st /\
              (currentDelay st == base_delay opts (draws st))%Q /\
              forall k ms, sleeps (trace st) !! k = Some ms ->
                ((7 # 10) * base_delay opts k <= ms)%Q /\
                (ms <= (13 # 10) * base_delay opts k)%Q).
  assert (Hbase : forall k, (0 <= base_delay opts k)%Q).
  { intros [|k]; [exact HI|]. cbn [base_delay].
    apply Q.min_glb; [exact HM|].
    assert (0 <= inject_Z (2 ^ Z.of_nat (S k)))%Q.
    { change 0%Q with (inject_Z 0). rewrite <- Zle_Qle.
      apply Z.pow_nonneg. lia. }
    nra. }
  assert (Hkeep : forall st error, P st -> again st error -> P (next st error)).
  { intros st error (Hlen & Hcur & Hall) (_ & Hfn & _).
    specialize (Hno _ _ Hfn). unfold retried.
    replace (0 <? _) with false by (symmetry; apply Z.ltb_ge; exact Hno).
    unfold P. cbn [trace draws currentDelay].
    rewrite !sleeps_app, track_sleeps, List.app_nil_r. simpl.
    split; [rewrite length_app; simpl; lia|].
    split; [now apply base_delay_next|].
    intros k ms Hk.
    destruct (decide (k < draws st)%nat) as [Hlt|Hge].
    - rewrite lookup_app_l in Hk by lia. now apply Hall.
    - rewrite lookup_app_r in Hk by lia.
      rewrite Hlen in Hk.
      destruct (k - draws st)%nat as [|j] eqn:Ej; [|discriminate].
      assert (k = draws st) as -> by lia.
      simpl in Hk. injection Hk as <-.
      destruct (Hrand (draws st)) as [H0 H1].
      pose proof (Hbase (draws st)) as Hb.
      set (d := currentDelay st) in *. set (u := random (draws st)) in *.
      set (b := base_delay opts (draws st)) in *.
      assert (Hd : (0 <= d)%Q) by lra.
      assert (Hj1 : (- ((3 # 10) * d) <= d * (3 # 10) * (u * 2 - 1))%Q) by nra.
      assert (Hj2 : (d * (3 # 10) * (u * 2 - 1) <= (3 # 10) * d)%Q) by nra.
      set (j := (d * (3 # 10) * (u * 2 - 1))%Q) in *.
      assert (Hmax : (Qmax 0 (d + j) == d + j)%Q) by (apply Q.max_r; lra).
      rewrite Hmax. split; lra. }
  assert (Hinit : P (initial_state h options)).
  { unfold P. simpl. split; [reflexivity|]. split; [reflexivity|].
    intros k ms Hk. discriminate. }
  destruct (loop_invariant P Hkeep _ _ _ _ Hinit Hrun) as (st0 & (_ & _ & Hall) & Hend).
  destruct Hend as [(_ & _ & ->)|(_ & -> & _)]; [exact Hall|].
  simpl. rewrite sleeps_app. simpl. now rewrite List.app_nil_r.
Qed.

Lemma loop_retried fuel st error :
  again st error -> loop (S fuel) st = loop fuel (next st error).
Proof.
  intros (Hlt & Hfn & Hre). rewrite loop_step.
  replace (attempt st <? maxAttempts opts) with true
    by (symmetry; apply Z.ltb_lt; lia).
  rewrite Hfn, Hre.
  replace (attempt st + 1 >=? maxAttempts opts) with false
    by (symmetry; rewrite Z.geb_leb; apply Z.leb_gt; lia).
  reflexivity.
Qed.

Lemma read_digits_prefix ds rest : forall acc,
  forallb is_digit (list_ascii_of_string ds) = true ->
  JsonText.no_digit_head rest ->
  read_digits acc (ds +:+ rest) = read_digits acc ds.
Proof.
  induction ds as [|c ds IH]; intros acc Hds Hrest.
  - rewrite str_app_nil_l. destruct rest as [|c r]; [reflexivity|].
    simpl in *. now rewrite Hrest.
  - rewrite str_app_cons. simpl in *.
    apply andb_true_iff in Hds as [Hc Hds]. rewrite Hc. now apply IH.
Qed.

Lemma parseInt10_prefix ds rest :
  all_digits ds = true -> JsonText.no_digit_head rest ->
  parseInt10 (ds +:+ rest) = Some (decimal_value ds).
Proof.
  intros Hds Hrest. rewrite <- (parseInt10_digits ds Hds).
  unfold all_digits in Hds. apply andb_true_iff in Hds as [Hne Hds].
  destruct ds as [|c ds]; [discriminate|].
  unfold parseInt10. rewrite str_app_cons.
  simpl in Hds. apply andb_true_iff in Hds as [Hc Hds].
  cbn [trimStart]. rewrite (digit_not_white c Hc).
  assert (Hread : read_digits None (String c (ds +:+ rest)) =
                  read_digits None (String c ds)).
  { rewrite <- str_app_cons. apply read_digits_prefix; [|exact Hrest].
    simpl. now rewrite Hc. }
  destruct c as [[] [] [] [] [] [] [] []]; try discriminate Hc; exact Hread.
Qed.


End Engine.

Import RetryExamples.

Lemma retryWithBackoff_budget_witness :
  exists (res : result string) (st' : loop_state),
    retryWithBackoff no_date epoch quarter store always_unavailable (attempts 0)
      = Some (res, st') /\
    res = Rejected RetryAttemptsExhausted /\ trace st' = [].
Proof.
  destruct (retryWithBackoff_budget no_date epoch quarter store always_unavailable
              (attempts 0)) as (res & st' & Hrun & _ & _ & _ & Hex & Hnil).
  exists res, st'. split; [exact Hrun|]. split.
  - apply Hex. vm_compute. discriminate.
  - apply Hnil. vm_compute. discriminate.
Defined.

Lemma retryWithBackoff_tracking_witness :
  exists (res : result string) (st' : loop_state),
    retryWithBackoff no_date epoch quarter store always_unavailable (attempts 3)
      = Some (res, st') /\
    tracks (trace st') = sleeps (trace st') /\ length (tracks (trace st')) = 2%nat.
Proof.
  eexists _, _. split; [vm_compute; reflexivity|].
  split; [|vm_compute; reflexivity].
  apply (retryWithBackoff_tracking no_date epoch quarter store always_unavailable
           (attempts 3) _ _ eq_refl).
Defined.

Lemma retryWithBackoff_sleeps_nonneg_witness :
  exists (res : result string) (st' : loop_state),
    retryWithBackoff no_date epoch quarter store throttled_then_ok (attempts 3)
      = Some (res, st') /\
    Forall (fun ms => (0 <= ms)%Q) (sleeps (trace st')).
Proof.
  eexists _, _. split; [vm_compute; reflexivity|].
  apply (retryWithBackoff_sleeps_nonneg no_date epoch quarter store
           throttled_then_ok (attempts 3) _ _ eq_refl).
Defined.

Lemma retryWithBackoff_schedule_witness :
  exists (res : result string) (st' : loop_state) (ms : Q),
    retryWithBackoff no_date epoch quarter store always_unavailable (attempts 3)
      = Some (res, st') /\
    sleeps (trace st') !! 1%nat = Some ms /\
    base_delay (merged store (attempts 3)) 1 = Qmin 30000 (5000 * 2) /\
    ((7 # 10) * base_delay (merged store (attempts 3)) 1 <= ms)%Q /\
    (ms <= (13 # 10) * base_delay (merged store (attempts 3)) 1)%Q.
Proof.
  eexists _, _, _. split; [vm_compute; reflexivity|].
  split; [vm_compute; reflexivity|].
  split; [reflexivity|].
  eapply (retryWithBackoff_schedule no_date epoch quarter store always_unavailable
            (attempts 3)).
  - vm_compute. discriminate.
  - vm_compute. discriminate.
  - intros n. split; vm_compute; (reflexivity || discriminate).
  - intros n e [= <-]. vm_compute. discriminate.
  - vm_compute. reflexivity.
  - vm_compute. reflexivity.
Defined.

Import RetryAfterExamples.


End RetryLoopProofs.

(** ** The classification of errors *)

Module RetryChainProofs.
Import JsString Regex Js Retry RetryChain JsStringFacts RetryProofs.

Section Traversal.
Variable h : heap.
Variable root : value.

Abbreviation inv := (traversal_inv h root).
Abbreviation kept := (collected_inv h root).

Lemma reachable_chain a : reachable h root (VRef a) -> in_chain h root a.
Proof.
  inversion 1 as [Hroot|b o v Hb Ho Hv]; subst.
  - now apply chain_root.
  - eapply chain_nested; eauto.
Qed.

Lemma kept_pop current stack visited messages codes :
  kept (current :: stack) visited messages codes ->
  (forall s, current <> VStr s) ->
  kept stack visited messages codes.
Proof.
  intros (Ha & Hb & Hc & Hd & He) Hcur. repeat split; auto.
  - intros v Hv. apply Ha. now right.
  - intros s Hs. destruct (Hd s Hs) as [?|Hin]; auto.
    apply elem_of_cons in Hin as [Heq|?]; auto.
    symmetry in Heq. now apply Hcur in Heq.
  - intros a o s Hv Ho Hs Hne. destruct (He a o s Hv Ho Hs Hne) as [?|Hin]; auto.
    apply elem_of_cons in Hin as [Heq|?]; auto.
    symmetry in Heq. now apply Hcur in Heq.
Qed.

Lemma kept_string s0 stack visited messages codes :
  kept (VStr s0 :: stack) visited messages codes ->
  kept stack visited (messages ++ [s0]) codes.
Proof.
  intros (Ha & Hb & Hc & Hd & He). repeat split; auto.
  - intros v Hv. apply Ha. now right.
  - intros m Hm. apply elem_of_app in Hm as [Hm|Hm]; auto.
    apply list_elem_of_singleton in Hm. subst m. left. apply Ha. now left.
  - intros s Hs. destruct (Hd s Hs) as [?|Hin].
    + left. apply elem_of_app. now left.
    + apply elem_of_cons in Hin as [[= ->]|?]; auto.
      left. apply elem_of_app. right. now apply list_elem_of_singleton.
  - intros a o s Hv Ho Hs Hne. destruct (He a o s Hv Ho Hs Hne) as [?|Hin].
    + left. apply elem_of_app. now left.
    + apply elem_of_cons in Hin as [[= ->]|?]; auto.
      left. apply elem_of_app. right. now apply list_elem_of_singleton.
Qed.

Lemma kept_visit a o stack visited messages codes :
  kept (VRef a :: stack) visited messages codes ->
  h !! a = Some o ->
  kept (reverse (filter (fun v => Is_true (followed a v)) (possibleNestedErrors o))
          ++ stack)
       ({[a]} ∪ visited)
       (match get o "message" with VStr m => messages ++ [m] | _ => messages end)
       (match get o "code" with VStr c => codes ++ [c] | _ => codes end).
Proof.
  intros (Ha & Hb & Hc & Hd & He) Ho.
  assert (Hchain : in_chain h root a).
  { apply reachable_chain, Ha. now left. }
  set (messages' := match get o "message" with VStr m => messages ++ [m] | _ => messages end).
  set (codes' := match get o "code" with VStr c => codes ++ [c] | _ => codes end).
  assert (Hmsub : forall m, m ∈ messages -> m ∈ messages').
  { intros m Hm. subst messages'. destruct (get o "message"); auto.
    apply elem_of_app; auto. }
  repeat split.
  - intros v Hv. apply elem_of_app in Hv as [Hv|Hv].
    + apply elem_of_reverse, list_elem_of_filter in Hv as [_ Hv].
      eapply reach_nested; eauto.
    + apply Ha. now right.
  - intros m Hm. subst messages'.
    destruct (get o "message") as [| | | |m0|] eqn:Em; auto.
    apply elem_of_app in Hm as [Hm|Hm]; auto.
    apply list_elem_of_singleton in Hm. subst m. right. eauto.
  - intros c Hcc. subst codes'.
    destruct (get o "code") as [| | | |c0|] eqn:Ec; auto.
    apply elem_of_app in Hcc as [Hcc|Hcc]; auto.
    apply list_elem_of_singleton in Hcc. subst c. red. eauto.
  - intros s Hs. destruct (Hd s Hs) as [?|Hin]; auto.
    apply elem_of_cons in Hin as [Heq|?]; [discriminate|].
    right. apply elem_of_app. now right.
  - intros a' o' s Hv Ho' Hs Hne.
    apply elem_of_union in Hv as [Hv|Hv].
    + apply elem_of_singleton in Hv. subst a'.
      assert (o' = o) by congruence. subst o'.
      right. apply elem_of_app. left. apply elem_of_reverse.
      apply list_elem_of_filter. split; [|exact Hs].
      unfold followed. simpl.
      destruct (String.eqb s EmptyString) eqn:E.
      * apply String.eqb_eq in E. contradiction.
      * exact I.
    + destruct (He a' o' s Hv Ho' Hs Hne) as [?|Hin]; auto.
      apply elem_of_cons in Hin as [Heq|?]; [discriminate|].
      right. apply elem_of_app. now right.
Qed.

Lemma collect_loop_kept fuel : forall stack visited messages codes messages' codes',
  inv stack visited messages codes ->
  kept stack visited messages codes ->
  collect_loop fuel h stack visited messages codes = Some (messages', codes') ->
  exists visited',
    inv [] visited' messages' codes' /\ kept [] visited' messages' codes'.
Proof.
  induction fuel as [|fuel IH];
    intros stack visited messages codes messages' codes' Hinv Hkept Hrun;
    [discriminate|].
  destruct stack as [|current stack]; simpl in Hrun.
  { injection Hrun as <- <-. eauto. }
  destruct current as [| |b|n|s|a].
  - eapply IH; [| |exact Hrun].
    + eapply inv_pop; [exact Hinv|]. discriminate.
    + eapply kept_pop; [exact Hkept|]. discriminate.
  - eapply IH; [| |exact Hrun].
    + eapply inv_pop; [exact Hinv|]. discriminate.
    + eapply kept_pop; [exact Hkept|]. discriminate.
  - eapply IH; [| |exact Hrun].
    + eapply inv_pop; [exact Hinv|]. discriminate.
    + eapply kept_pop; [exact Hkept|]. discriminate.
  - eapply IH; [| |exact Hrun].
    + eapply inv_pop; [exact Hinv|]. discriminate.
    + eapply kept_pop; [exact Hkept|]. discriminate.
  - eapply IH; [| |exact Hrun].
    + apply inv_more_messages. eapply inv_pop; [exact Hinv|]. discriminate.
    + now apply kept_string.
  - destruct (h !! a) as [o|] eqn:Ho.
    + destruct (decide (a ∈ visited)) as [Hv|Hv].
      * eapply IH; [| |exact Hrun].
        -- eapply inv_pop; [exact Hinv|]. intros ? [= <-]. now left.
        -- eapply kept_pop; [exact Hkept|]. discriminate.
      * eapply IH; [| |exact Hrun].
        -- now apply inv_visit.
        -- now apply kept_visit.
    + eapply IH; [| |exact Hrun].
      * eapply inv_pop; [exact Hinv|]. intros ? [= <-]. now right.
      * eapply kept_pop; [exact Hkept|]. discriminate.
Qed.

(** The traversal collects the non-empty strings and the codes of the
    chain, and nothing else. *)
Lemma collectErrorDetails_exact :
  exists messages codes,
    collectErrorDetails h root = Some (messages, codes) /\
    (forall m, m ∈ messages -> chain_text h root m) /\
    (forall c, c ∈ codes -> chain_code h root c) /\
    (forall m, chain_text h root m -> m <> EmptyString -> m ∈ messages) /\
    (forall c, chain_code h root c -> c ∈ codes).
Proof.
  destruct (collectErrorDetails_complete h root) as (messages & codes & Hrun & Hall).
  exists messages, codes. split; [exact Hrun|].
  destruct (collect_loop_kept (collect_fuel h) [root] ∅ [] [] messages codes)
    as (visited & Hinv & (Ha & Hb & Hc & Hd & He)).
  - split; [set_solver|]. left. apply list_elem_of_singleton. reflexivity.
  - repeat split.
    + intros v Hv. apply list_elem_of_singleton in Hv. subst v. constructor.
    + intros m Hm. inversion Hm.
    + intros c Hc. inversion Hc.
    + intros s Hs. right. apply list_elem_of_singleton. now symmetry.
    + intros a o s Hv. set_solver.
  - exact Hrun.
  - split; [exact Hb|]. split; [exact Hc|]. split.
    + intros m [Hreach|(a & o & Hchain & Ho & Hm)] Hne.
      * inversion Hreach as [Hroot|a o v Hchain Ho Hv]; subst.
        -- destruct (Hd m eq_refl) as [?|Hin]; [auto|inversion Hin].
        -- assert (Hvis : a ∈ visited) by (eapply chain_visited; eauto).
           destruct (He a o m Hvis Ho Hv Hne) as [?|Hin]; [auto|inversion Hin].
      * now apply (proj1 (Hall a o Hchain Ho)).
    + intros c (a & o & Hchain & Ho & Hcode).
      now apply (proj2 (Hall a o Hchain Ho)).
Qed.
End Traversal.

Lemma classify_true messages codes :
  classify messages codes = true <->
  (exists m, m ∈ messages /\ transient_text m = true) \/
  (exists c, c ∈ codes /\ toUpperCase c ∈ TRANSIENT_ERROR_CODES).
Proof.
  unfold classify, transient_text. split.
  - destruct (existsb some_phrase (map toLowerCase messages)) eqn:E1.
    { intros _. left. apply existsb_exists in E1 as (x & Hx & Hp).
      apply in_map_iff in Hx as (m & <- & Hm). exists m.
      split; [now apply list_elem_of_In|]. now rewrite Hp. }
    destruct (existsb some_regex messages) eqn:E2.
    { intros _. left. apply existsb_exists in E2 as (m & Hm & Hr). exists m.
      split; [now apply list_elem_of_In|]. rewrite Hr. apply orb_true_r. }
    destruct (existsb _ (map toUpperCase codes)) eqn:E3; [|discriminate].
    intros _. right. apply existsb_exists in E3 as (x & Hx & Hc).
    apply in_map_iff in Hx as (c & <- & Hcin). exists c.
    split; [now apply list_elem_of_In|]. now apply bool_decide_eq_true in Hc.
  - intros [(m & Hm & Ht)|(c & Hc & Hin)].
    + apply orb_true_iff in Ht as [Ht|Ht].
      * replace (existsb some_phrase (map toLowerCase messages)) with true;
          [reflexivity|].
        symmetry. apply existsb_exists. exists (toLowerCase m).
        split; [|exact Ht]. apply in_map. now apply list_elem_of_In.
      * destruct (existsb some_phrase (map toLowerCase messages)); [reflexivity|].
        replace (existsb some_regex messages) with true; [reflexivity|].
        symmetry. apply existsb_exists. exists m.
        split; [|exact Ht]. now apply list_elem_of_In.
    + now apply (classify_code messages codes c).
Qed.

(** X7. [isNetworkTransientError] is exact on the error chain.  It
    answers for every error, cyclic chains included, and it answers
    [true] exactly when a string of the chain (the [message] of an
    object reached through [cause], [originalError] and [error], or a
    string found in place of such an object) contains a transient
    phrase or matches a transient regex, or the [code] of an object of
    the chain is a transient code.  Objects outside the chain have no
    influence. *)
Theorem isNetworkTransientError_exact (h : heap) (root : value) :
  exists b : bool,
    isNetworkTransientError h root = Some b /\
    (b = true <->
     (exists s, chain_text h root s /\ transient_text s = true) \/
     (exists c, chain_code h root c /\ toUpperCase c ∈ TRANSIENT_ERROR_CODES)).
Proof.
  destruct (collectErrorDetails_exact h root)
    as (messages & codes & Hrun & Hm & Hc & Hm' & Hc').
  exists (classify messages codes). unfold isNetworkTransientError.
  rewrite Hrun. split; [reflexivity|].
  rewrite classify_true. split.
  - intros [(m & Hin & Ht)|(c & Hin & Ht)]; [left|right]; eauto.
  - intros [(s & Hs & Ht)|(c & Hcc & Ht)]; [left|right]; [|eauto].
    exists s. split; [|exact Ht]. apply Hm'; [exact Hs|].
    intros ->. discriminate Ht.
Qed.

(** The code that [getErrorCode] reports is a code of the chain. *)
Lemma getErrorCode_chain (h : heap) (error : value) (c : string) :
  getErrorCode h error = Some c -> chain_code h error c.
Proof.
  unfold getErrorCode. intros Hcode.
  destruct error as [| |b0|n0|s0|a]; try discriminate Hcode.
  cbn [as_object] in Hcode.
  destruct (h !! a) as [o|] eqn:Ho; [|discriminate Hcode].
  assert (Hroot : in_chain h (VRef a) a) by now apply chain_root.
  destruct (get o "code") as [| |b1|n1|c1|r1] eqn:Ec.
  5:{ injection Hcode as ->. exists a, o. auto. }
  all: destruct (get o "error") as [| |b2|n2|s2|b] eqn:Ee;
    try discriminate Hcode; cbn [as_object] in Hcode;
    destruct (h !! b) as [inner|] eqn:Hb; [|discriminate Hcode];
    destruct (get inner "code") as [| |b3|n3|c3|r3] eqn:Ec3;
    try discriminate Hcode; injection Hcode as ->;
    exists b, inner; split; [|auto];
    apply (chain_nested h (VRef a) a b o Hroot Ho);
    unfold possibleNestedErrors; rewrite Ee;
    apply list_elem_of_In; simpl; auto.
Qed.

(** X8. A code that [getErrorCode] reports is a code of the chain: when
    it is a transient code, in any letter case, the error is classified
    as transient. *)
Theorem getErrorCode_transient (h : heap) (error : value) (c : string) :
  getErrorCode h error = Some c ->
  toUpperCase c ∈ TRANSIENT_ERROR_CODES ->
  isNetworkTransientError h error = Some true.
Proof.
  intros Hcode Hin.
  apply getErrorCode_chain in Hcode.
  destruct (collectErrorDetails_exact h error)
    as (messages & codes & Hrun & _ & _ & _ & Hcodes).
  unfold isNetworkTransientError. rewrite Hrun. f_equal.
  apply (classify_code messages codes c); [|exact Hin].
  apply Hcodes, Hcode.
Qed.

Lemma lower_lower c : lower_char (lower_char c) = lower_char c.
Proof. destruct c as [[] [] [] [] [] [] [] []]; reflexivity. Qed.
Lemma upper_lower c : upper_char (lower_char c) = upper_char c.
Proof. destruct c as [[] [] [] [] [] [] [] []]; reflexivity. Qed.
Lemma digit_lower c : is_digit (lower_char c) = is_digit c.
Proof. destruct c as [[] [] [] [] [] [] [] []]; reflexivity. Qed.
Lemma line_terminator_lower c :
  is_line_terminator (lower_char c) = is_line_terminator c.
Proof. destruct c as [[] [] [] [] [] [] [] []]; reflexivity. Qed.

Lemma toUpperCase_lower s : toUpperCase (toLowerCase s) = toUpperCase s.
Proof. induction s as [|c s IH]; simpl; [reflexivity|]. now rewrite upper_lower, IH. Qed.

Lemma toLowerCase_lower s : toLowerCase (toLowerCase s) = toLowerCase s.
Proof. induction s as [|c s IH]; simpl; [reflexivity|]. now rewrite lower_lower, IH. Qed.

Lemma deriv_lower a r : deriv true (lower_char a) r = deriv true a r.
Proof.
  induction r as [| |c| | |r1 IH1 r2 IH2|r1 IH1 r2 IH2|r IH]; simpl;
    rewrite ?lower_lower, ?digit_lower, ?line_terminator_lower, ?IH1, ?IH2, ?IH;
    reflexivity.
Qed.

Lemma matches_prefix_lower s : forall r,
  matches_prefix true r (toLowerCase s) = matches_prefix true r s.
Proof.
  induction s as [|a s IH]; intros r; simpl; [reflexivity|].
  now rewrite deriv_lower, IH.
Qed.

Lemma test_lower r s : test true r (toLowerCase s) = test true r s.
Proof.
  induction s as [|a s IH]; [reflexivity|].
  change (toLowerCase (String a s)) with (String (lower_char a) (toLowerCase s)).
  cbn [test]. rewrite IH. f_equal.
  apply (matches_prefix_lower (String a s)).
Qed.

Lemma some_regex_lower s : some_regex (toLowerCase s) = some_regex s.
Proof.
  unfold some_regex. induction TRANSIENT_ERROR_REGEXES as [|r rs IH]; simpl;
    [reflexivity|]. now rewrite test_lower, IH.
Qed.

Lemma existsb_map {A B} (f : B -> bool) (g : A -> B) l :
  existsb f (map g l) = existsb (fun x => f (g x)) l.
Proof. induction l as [|x l IH]; simpl; [reflexivity|]. now rewrite IH. Qed.

Lemma classify_lower messages codes :
  classify messages codes =
  classify (map toLowerCase messages) (map toLowerCase codes).
Proof.
  unfold classify. rewrite !existsb_map.
  assert (H1 : existsb (fun x => some_phrase (toLowerCase (toLowerCase x))) messages
               = existsb (fun x => some_phrase (toLowerCase x)) messages).
  { induction messages as [|m ms IH]; cbn [existsb]; [reflexivity|].
    now rewrite IH, toLowerCase_lower. }
  assert (H2 : existsb (fun x => some_regex (toLowerCase x)) messages
               = existsb some_regex messages).
  { clear H1. induction messages as [|m ms IH]; cbn [existsb]; [reflexivity|].
    now rewrite some_regex_lower, IH. }
  assert (H3 : existsb (fun x => bool_decide (toUpperCase (toLowerCase x)
                                                ∈ TRANSIENT_ERROR_CODES)) codes
               = existsb (fun x => bool_decide (toUpperCase x ∈ TRANSIENT_ERROR_CODES))
                   codes).
  { clear H1 H2. induction codes as [|c cs IH]; cbn [existsb]; [reflexivity|].
    now rewrite toUpperCase_lower, IH. }
  now rewrite H1, H2, H3.
Qed.

(** X9. The classification ignores the letter case: two lists of
    messages and of codes that differ only in the case of their ASCII
    letters receive the same verdict. *)
Theorem classify_case_insensitive (messages messages' codes codes' : list string) :
  map toLowerCase messages = map toLowerCase messages' ->
  map toLowerCase codes = map toLowerCase codes' ->
  classify messages codes = classify messages' codes'.
Proof.
  intros Hm Hc.
  rewrite (classify_lower messages codes), (classify_lower messages' codes').
  now rewrite Hm, Hc.
Qed.

Lemma classify_case_insensitive_witness :
  classify ["TCP Connection was RESET"] ["Epipe"] =
  classify ["tcp connection WAS reset"] ["EPIPE"].
Proof.
  apply (classify_case_insensitive ["TCP Connection was RESET"]
           ["tcp connection WAS reset"] ["Epipe"] ["EPIPE"]); reflexivity.
Defined.

Lemma isNetworkTransientError_exact_witness :
  isNetworkTransientError chain_store (VRef 0%nat) = Some true /\
  isNetworkTransientError chain_store (VRef 2%nat) = Some false.
Proof.
  split.
  - destruct (isNetworkTransientError_exact chain_store (VRef 0%nat))
      as (b & Hrun & Hiff).
    rewrite Hrun. f_equal. apply Hiff. left. exists "Socket Hang Up". split.
    + left. apply (reach_nested chain_store (VRef 0%nat) 1%nat wrapped).
      * apply (chain_nested chain_store (VRef 0%nat) 0%nat 1%nat upload_failed).
        -- now apply chain_root.
        -- reflexivity.
        -- apply list_elem_of_In. vm_compute. auto.
      * reflexivity.
      * apply list_elem_of_In. vm_compute. auto.
    + vm_compute. reflexivity.
  - destruct (isNetworkTransientError_exact chain_store (VRef 2%nat))
      as (b & Hrun & Hiff).
    rewrite Hrun. vm_compute in Hrun. now injection Hrun as <-.
Defined.

Lemma getErrorCode_transient_witness :
  isNetworkTransientError RetryExamples.store (VRef 4%nat) = Some true.
Proof.
  apply (getErrorCode_transient RetryExamples.store (VRef 4%nat) "econnreset");
    vm_compute; reflexivity.
Defined.
End RetryChainProofs.

(** ** Templates without patterns, literal prefixes and the console *)

Module TemplateTextProofs.
Import JsString Js TemplateEngine JsStringFacts TemplateProofs.
Local Open Scope nat_scope.

Lemma indexOf_from_none p s :
  includes s p = false -> indexOf_from p s 0 = None.
Proof.
  induction s as [|c s IH]; simpl; intros H.
  - apply orb_false_iff in H as [-> _]. reflexivity.
  - apply orb_false_iff in H as [-> H].
    rewrite indexOf_from_shift, (IH H). reflexivity.
Qed.

Section Engine.
Variable env_DEBUG : option string.
Variable options : option TemplateProcessingOptions.

(** X10. A template without an opening pair of braces is returned as
    it is, and nothing is written to the console. *)
Theorem processTemplate_plain (content : string)
    (variables : option TemplateVariables) :
  includes content "{{" = false ->
  processTemplate env_DEBUG (VStr content) variables options =
    Some (VStr content, []).
Proof.
  intros H. unfold processTemplate. cbn [process_loop].
  destruct (Nat.ltb_spec 0 (String.length content)) as [Hlt|Hge].
  - unfold loop_body. rewrite indexOf_0, (indexOf_from_none _ _ H).
    reflexivity.
  - destruct content; [reflexivity|simpl in Hge; lia].
Qed.

Lemma logSubstitution_off variable value :
  env_DEBUG <> Some "1"%string -> options ≫= debug <> Some true ->
  logSubstitution env_DEBUG options variable value = [].
Proof.
  intros H1 H2. unfold logSubstitution.
  now rewrite !bool_decide_eq_false_2.
Qed.

Lemma process_loop_silent content vars fuel : forall result pos out log,
  env_DEBUG <> Some "1"%string -> options ≫= debug <> Some true ->
  process_loop env_DEBUG options content vars fuel result pos [] = Some (out, log) ->
  log = [].
Proof.
  induction fuel as [|fuel IH]; intros result pos out log H1 H2 Hrun;
    [discriminate|].
  cbn [process_loop] in Hrun.
  destruct (pos <? String.length content); [|now injection Hrun as _ <-].
  unfold loop_body in Hrun.
  destruct (indexOf "{{" content pos) as [o|]; [|now injection Hrun as _ <-].
  destruct (indexOf "}}" content (o + 2)) as [c|]; [|now injection Hrun as _ <-].
  destruct (String.eqb _ EmptyString); [now apply IH in Hrun|].
  destruct (includes _ "{{" || includes _ "}}"); [now apply IH in Hrun|].
  destruct (vars !! _) as [[| |v]|];
    rewrite ?logSubstitution_off in Hrun by assumption;
    now apply IH in Hrun.
Qed.

(** X11. Unless [process.env.DEBUG] is ["1"] or the option [debug] is
    [true], [processTemplate] writes nothing to the console. *)
Theorem processTemplate_silent (content : value)
    (variables : option TemplateVariables) (out : value) (log : list string) :
  env_DEBUG <> Some "1"%string -> options ≫= debug <> Some true ->
  processTemplate env_DEBUG content variables options = Some (out, log) ->
  log = [].
Proof.
  intros H1 H2. unfold processTemplate.
  destruct content as [| |b|n|s|a]; try (now intros [= _ <-]).
  destruct (process_loop _ _ _ _ _ _ _ _) as [[r l]|] eqn:E; [|discriminate].
  intros [= _ <-]. eapply process_loop_silent; eauto.
Qed.

Variable vars : TemplateVariables.

Abbreviation rendered content := (render env_DEBUG options content vars).
Abbreviation body_of content :=
  (loop_body env_DEBUG options content vars EmptyString 0 []).

(** A literal prefix moves the first opener. *)
Lemma indexOf_literal a b :
  includes (a +:+ "{") "{{" = false ->
  indexOf_from "{{" (a +:+ b) 0 =
  (fun k => String.length a + k) <$> indexOf_from "{{" b 0.
Proof.
  induction a as [|c a IH]; intros H.
  - rewrite str_app_nil_l. now destruct (indexOf_from "{{" b 0).
  - rewrite str_app_cons in H. cbn [includes] in H.
    apply orb_false_iff in H as [Hs H].
    assert (Hsb : startsWith "{{" (String c (a +:+ b)) = false).
    { simpl in Hs |- *. destruct (decide ("{"%char = c)) as [<-|]; [|reflexivity].
      destruct a as [|d a]; [discriminate Hs|].
      rewrite str_app_cons in *. simpl in Hs |- *.
      destruct (decide ("{"%char = d)); [discriminate Hs|reflexivity]. }
    rewrite str_app_cons. cbn [indexOf_from]. rewrite Hsb.
    rewrite indexOf_from_shift, (IH H).
    destruct (indexOf_from "{{" b 0); simpl; [f_equal; lia|reflexivity].
Qed.

Lemma includes_literal a :
  includes (a +:+ "{") "{{" = false -> includes a "{{" = false.
Proof.
  intros H. destruct (includes a "{{") eqn:E; [|reflexivity].
  destruct (includes_indexOf a "{{" "{" ltac:(discriminate) E) as (k & Hk & _).
  now rewrite (indexOf_from_none _ _ H) in Hk.
Qed.

(** The text on both sides of the first opener. *)
Lemma split_at_opener b k :
  indexOf_from "{{" b 0 = Some k ->
  b = take k b +:+ "{{" +:+ drop (k + 2) b /\ String.length (take k b) = k.
Proof.
  intros H. apply indexOf_from_bound in H as [Hlen Hs]. simpl in Hlen.
  assert (Hk : String.length (take k b) = k).
  { clear Hs. revert b Hlen. induction k as [|k IH]; intros [|c b] Hlen;
      simpl in *; try lia. f_equal. apply IH. lia. }
  split; [|exact Hk].
  rewrite <- (str_take_drop k b) at 1. f_equal.
  rewrite str_drop_add.
  destruct (drop k b) as [|x r]; [discriminate Hs|].
  simpl in Hs. destruct (decide ("{"%char = x)) as [<-|]; [|discriminate].
  destruct r as [|y r]; [discriminate Hs|].
  destruct (decide ("{"%char = y)) as [<-|]; [|discriminate].
  reflexivity.
Qed.

(** X12. Literal text in front of a template is copied: when [a]
    contains no opening pair of braces and does not end with a brace,
    the rendering of [a] followed by [b] is [a] followed by the
    rendering of [b]. *)
Theorem processTemplate_literal_prefix (a b : string) :
  includes (a +:+ "{") "{{" = false ->
  rendered (a +:+ b) = (fun out => a +:+ out) <$> rendered b.
Proof.
  intros Ha.
  pose proof (indexOf_literal a b Ha) as Hopen.
  destruct (indexOf_from "{{" b 0) as [k|] eqn:Ek; simpl in Hopen.
  2:{ assert (Hb : body_of b = Break b []).
      { unfold loop_body. now rewrite indexOf_0, Ek. }
      assert (Hab : body_of (a +:+ b) = Break (a +:+ b) []).
      { unfold loop_body. now rewrite indexOf_0, Hopen. }
      now rewrite (render_break _ _ _ _ _ _ Hb), (render_break _ _ _ _ _ _ Hab). }
  destruct (split_at_opener b k Ek) as [Hsplit Hlen].
  set (pre := take k b) in *. set (tail := drop (k + 2) b) in *.
  assert (Hbo : indexOf "{{" (pre +:+ "{{" +:+ tail) 0 = Some (String.length pre)).
  { rewrite indexOf_0, <- Hsplit, Hlen. exact Ek. }
  assert (Habo : indexOf "{{" ((a +:+ pre) +:+ "{{" +:+ tail) 0
                 = Some (String.length (a +:+ pre))).
  { rewrite indexOf_0, str_app_assoc, <- Hsplit, Hopen, str_length_app, Hlen.
    reflexivity. }
  pose proof (body_at_opener env_DEBUG options vars pre tail Hbo) as Hb.
  pose proof (body_at_opener env_DEBUG options vars (a +:+ pre) tail Habo) as Hab.
  rewrite Hsplit.
  rewrite <- str_app_assoc.
  assert (Hdrop : forall n,
             drop (String.length (a +:+ pre) + n) ((a +:+ pre) +:+ "{{" +:+ tail)
             = drop (String.length pre + n) (pre +:+ "{{" +:+ tail)).
  { intros n. now rewrite !str_drop_add, !str_drop_app. }
  assert (Hcont : forall piece' piece n lg lg',
             piece' = a +:+ piece ->
             body_of ((a +:+ pre) +:+ "{{" +:+ tail)
               = Continue piece' (String.length (a +:+ pre) + n) lg ->
             body_of (pre +:+ "{{" +:+ tail)
               = Continue piece (String.length pre + n) lg' ->
             rendered ((a +:+ pre) +:+ "{{" +:+ tail) =
             (fun out => a +:+ out) <$> rendered (pre +:+ "{{" +:+ tail)).
  { intros piece' piece n lg lg' -> H1 H2.
    rewrite (render_continue _ _ _ _ _ _ _ H1), (render_continue _ _ _ _ _ _ _ H2).
    rewrite Hdrop.
    destruct (rendered (drop _ _)); simpl; [|reflexivity].
    now rewrite str_app_assoc. }
  destruct (indexOf "}}" tail 0) as [c|].
  2:{ rewrite (render_break _ _ _ _ _ _ Hb), (render_break _ _ _ _ _ _ Hab).
      simpl. now rewrite str_app_assoc. }
  cbv zeta in Hb, Hab.
  destruct (String.eqb (trim (take c tail)) EmptyString).
  { rewrite <- !Nat.add_assoc in Hb, Hab.
    eapply Hcont; [|exact Hab|exact Hb]. apply str_app_assoc. }
  destruct (includes _ "{{" || includes _ "}}").
  { eapply Hcont; [|exact Hab|exact Hb]. apply str_app_assoc. }
  rewrite <- !Nat.add_assoc in Hb, Hab.
  destruct (vars !! _) as [[| |v]|];
    (eapply Hcont; [|exact Hab|exact Hb]);
    first [apply str_app_assoc | reflexivity].
Qed.

Lemma render_plain content :
  includes content "{{" = false -> rendered content = Some content.
Proof.
  intros H. apply (render_break env_DEBUG options vars content content []).
  unfold loop_body. now rewrite indexOf_0, (indexOf_from_none _ _ H).
Qed.

(** A pattern whose name is written without white space and braces,
    between literal texts. *)
Lemma render_placeholder (pre name rest : string) :
  includes (pre +:+ "{") "{{" = false ->
  includes rest "{{" = false ->
  name <> EmptyString ->
  forallb (fun c => negb (is_white c) && negb (bool_decide (c = "{"%char))
                    && negb (bool_decide (c = "}"%char)))
          (list_ascii_of_string name) = true ->
  rendered (pre +:+ "{{" +:+ name +:+ "}}" +:+ rest) =
  Some (pre +:+ match vars !! name with
                | Some (TString v) => v
                | _ => EmptyString
                end +:+ rest).
Proof.
  intros Hpre Hrest Hne Hname.
  set (tail := name +:+ "}}" +:+ rest).
  assert (Hopen : indexOf "{{" (pre +:+ "{{" +:+ tail) 0 = Some (String.length pre)).
  { rewrite indexOf_0, (indexOf_literal pre _ Hpre). simpl. f_equal. lia. }
  pose proof (body_at_opener env_DEBUG options vars pre tail Hopen) as Hb.
  assert (Hclose : indexOf "}}" tail 0 = Some (String.length name)).
  { rewrite indexOf_0. subst tail. clear -Hname.
    induction name as [|c n IH]; [reflexivity|].
    simpl in Hname. apply andb_true_iff in Hname as [Hc Hn].
    apply andb_true_iff in Hc as [Hc Hc2]. apply andb_true_iff in Hc as [_ Hc1].
    rewrite str_app_cons. cbn [indexOf_from].
    assert (Hs : startsWith "}}" (String c (n +:+ "}}" +:+ rest)) = false).
    { simpl. destruct (decide ("}"%char = c)) as [<-|]; [discriminate Hc2|reflexivity]. }
    rewrite Hs, indexOf_from_shift, (IH Hn). reflexivity. }
  assert (Htake : take (String.length name) tail = name) by apply str_take_app.
  assert (Htrim : trim name = name).
  { clear -Hname Hne. unfold trim.
    assert (H1 : trimStart name = name).
    { destruct name as [|c n]; [reflexivity|]. simpl in *.
      apply andb_true_iff in Hname as [Hc _].
      apply andb_true_iff in Hc as [Hc _]. apply andb_true_iff in Hc as [Hc _].
      now destruct (is_white c). }
    rewrite H1. clear H1 Hne.
    induction name as [|c n IH]; [reflexivity|]. simpl in *.
    apply andb_true_iff in Hname as [Hc Hn].
    apply andb_true_iff in Hc as [Hc _]. apply andb_true_iff in Hc as [Hc _].
    rewrite (IH Hn). destruct n; [|reflexivity].
    now destruct (is_white c). }
  assert (Hno : forall p, (p = "{{" \/ p = "}}")%string -> includes name p = false).
  { intros p Hp. clear -Hname Hp.
    induction name as [|c n IH]; [destruct Hp as [->| ->]; reflexivity|].
    simpl in Hname. apply andb_true_iff in Hname as [Hc Hn].
    apply andb_true_iff in Hc as [Hc Hc2]. apply andb_true_iff in Hc as [_ Hc1].
    cbn [includes]. rewrite (IH Hn), orb_false_r.
    destruct Hp as [->| ->]; simpl.
    - destruct (decide ("{"%char = c)) as [<-|]; [discriminate Hc1|reflexivity].
    - destruct (decide ("}"%char = c)) as [<-|]; [discriminate Hc2|reflexivity]. }
  rewrite Hclose in Hb. cbv zeta in Hb. rewrite Htake, Htrim in Hb.
  replace (String.eqb name EmptyString) with false in Hb
    by (symmetry; now apply String.eqb_neq).
  rewrite !Hno in Hb by auto. simpl orb in Hb. cbv iota in Hb.
  assert (Hdrop : drop (String.length pre + 2 + String.length name + 2)
                    (pre +:+ "{{" +:+ tail) = rest).
  { rewrite <- Nat.add_assoc, drop_past_opener. subst tail.
    now rewrite str_drop_add, str_drop_app. }
  destruct (vars !! name) as [[| |v]|];
    rewrite (render_continue _ _ _ _ _ _ _ Hb), Hdrop, (render_plain rest Hrest);
    simpl; rewrite ?str_app_assoc; reflexivity.
Qed.
End Engine.

Import TemplateExamples.

Lemma processTemplate_plain_witness :
  processTemplate None (VStr "plain { text }") (Some model_only) None =
    Some (VStr "plain { text }", []).
Proof.
  apply (processTemplate_plain None None "plain { text }" (Some model_only)).
  reflexivity.
Defined.

Lemma processTemplate_silent_witness :
  exists out log,
    processTemplate (Some "0"%string) (VStr "{{MODEL}} {{TOOL}}") (Some model_only)
      (Some {| debug := Some false |}) = Some (out, log) /\ log = [].
Proof.
  eexists _, _. split; [vm_compute; reflexivity|].
  eapply (processTemplate_silent (Some "0"%string) (Some {| debug := Some false |})
            (VStr "{{MODEL}} {{TOOL}}") (Some model_only));
    [discriminate | discriminate | vm_compute; reflexivity].
Defined.

Lemma processTemplate_literal_prefix_witness :
  render None None ("{ model }: " +:+ "{{MODEL}}") model_only =
  (fun out => "{ model }: " +:+ out) <$> render None None "{{MODEL}}" model_only.
Proof.
  apply (processTemplate_literal_prefix None None model_only "{ model }: " "{{MODEL}}").
  reflexivity.
Defined.
End TemplateTextProofs.

(** ** The variables made from a prompt context *)

Module PromptVariablesProofs.
Import JsString Js TemplateEngine PromptVariables JsStringFacts TemplateProofs
  TemplateTextProofs.
Local Open Scope nat_scope.

Lemma lookup_assign k v m : assign k v m !! k = Some (TString v).
Proof. apply lookup_insert_eq. Qed.

Lemma lookup_assign_ne k k' v m : k <> k' -> assign k v m !! k' = m !! k'.
Proof. apply lookup_insert_ne. Qed.

Lemma lookup_assign_if_given_ne k k' v m :
  k <> k' -> assign_if_given k v m !! k' = m !! k'.
Proof.
  intros H. unfold assign_if_given. destruct (given v); [|reflexivity].
  now apply lookup_assign_ne.
Qed.

Lemma given_nonempty s : given s = true -> or_empty s <> EmptyString.
Proof.
  destruct s as [s|]; [|discriminate]. simpl.
  intros H ->. discriminate H.
Qed.

Lemma lookup_assign_cond (b : bool) k k' v1 v2 m :
  k <> k' ->
  (if b then assign k v1 m else assign k v2 m) !! k' = m !! k'.
Proof. intros H. destruct b; now apply lookup_assign_ne. Qed.

Ltac skip_assign :=
  repeat first
    [ rewrite lookup_assign_ne by discriminate
    | rewrite lookup_assign_if_given_ne by discriminate
    | rewrite lookup_assign_cond by discriminate ].

Section Platform.
Variable basename : string -> string.
Variable localeDate localeTime localeDateTime : string.
Variable platform : string.

Abbreviation from_environment := (environment_variables basename).
Abbreviation created :=
  (createVariablesFromContext basename localeDate localeTime localeDateTime
     platform).

(** The names that the environment block assigns. *)
Lemma environment_frame env m k :
  k ∉ [ "IS_GIT_REPO"; "IS_SANDBOXED"; "HAS_IDE"; "WORKING_DIRECTORY";
        "FOLDER_STRUCTURE"; "SANDBOX_TYPE"; "WORKSPACE_NAME";
        "WORKSPACE_ROOT"; "WORKSPACE_DIRECTORIES" ]%string ->
  from_environment env m !! k = m !! k.
Proof.
  intros Hk.
  assert (Hne : forall k', In k' [ "IS_GIT_REPO"; "IS_SANDBOXED"; "HAS_IDE";
                                    "WORKING_DIRECTORY"; "FOLDER_STRUCTURE";
                                    "SANDBOX_TYPE"; "WORKSPACE_NAME";
                                    "WORKSPACE_ROOT"; "WORKSPACE_DIRECTORIES" ]%string ->
                           k' <> k).
  { intros k' Hin ->. apply Hk. now apply list_elem_of_In. }
  unfold environment_variables. cbv zeta.
  repeat first
    [ rewrite lookup_assign_cond by (apply Hne; simpl; tauto)
    | rewrite lookup_assign_if_given_ne by (apply Hne; simpl; tauto)
    | rewrite lookup_assign_ne by (apply Hne; simpl; tauto) ].
  reflexivity.
Qed.

Lemma app_empty a b : a +:+ b = EmptyString -> a = EmptyString /\ b = EmptyString.
Proof. destruct a; [auto|discriminate]. Qed.

Lemma join_empty l :
  JsonText.join ", " l = EmptyString <-> l = [] \/ l = [EmptyString].
Proof.
  split.
  - destruct l as [|x [|y l]]; simpl; auto.
    + intros ->. auto.
    + intros H. apply app_empty in H as [_ H]. discriminate H.
  - intros [->| ->]; reflexivity.
Qed.

(** X13. The variables of the environment never render as nothing.
    When the context has an environment, the three flags are ["true"]
    or ["false"], and [SANDBOX_TYPE], [WORKSPACE_NAME] and
    [WORKSPACE_ROOT] are non-empty, falling back to ["none"] or
    ["unknown"]; [WORKSPACE_DIRECTORIES] is empty only when the
    context lists the single directory [''] . *)
Theorem environment_variables_defaults (context : PromptContext)
    (env : PromptEnvironment) (tool : option string) :
  environment context = Some env ->
  let variables := created (Some context) tool in
  variables !! "IS_GIT_REPO"%string = Some (TString (bool_text (isGitRepository env))) /\
  variables !! "IS_SANDBOXED"%string = Some (TString (bool_text (isSandboxed env))) /\
  variables !! "HAS_IDE"%string = Some (TString (bool_text (hasIdeCompanion env))) /\
  (exists v, variables !! "SANDBOX_TYPE"%string = Some (TString v) /\
             v <> EmptyString /\
             (given (sandboxType env) = false ->
              v = if isSandboxed env then "unknown"%string else "none"%string)) /\
  (exists v, variables !! "WORKSPACE_NAME"%string = Some (TString v) /\
             v <> EmptyString) /\
  (exists v, variables !! "WORKSPACE_ROOT"%string = Some (TString v) /\
             v <> EmptyString) /\
  (exists v, variables !! "WORKSPACE_DIRECTORIES"%string = Some (TString v) /\
             (v = EmptyString <-> workspaceDirectories env = Some [EmptyString])).
Proof.
  intros Henv variables. subst variables.
  unfold createVariablesFromContext. rewrite Henv.
  assert (Houter : forall k m,
             k ∉ [ "PROVIDER_UPPER"; "MODEL_SAFE"; "CURRENT_DATE"; "CURRENT_TIME";
                   "CURRENT_DATETIME"; "PLATFORM" ]%string ->
             assign "PLATFORM" platform
               (assign "CURRENT_DATETIME" localeDateTime
                  (assign "CURRENT_TIME" localeTime
                     (assign "CURRENT_DATE" localeDate
                        (if given (model context)
                         then assign "MODEL_SAFE" (sanitize (or_empty (model context)))
                                (if given (provider context)
                                 then assign "PROVIDER_UPPER"
                                        (toUpperCase (or_empty (provider context))) m
                                 else m)
                         else
                           (if given (provider context)
                            then assign "PROVIDER_UPPER"
                                   (toUpperCase (or_empty (provider context))) m
                            else m))))) !! k = m !! k).
  { intros k m Hk.
    destruct (given (model context)), (given (provider context));
      repeat rewrite lookup_assign_ne by (intros <-; apply Hk; set_solver);
      reflexivity. }
  cbv zeta. rewrite !Houter by set_solver.
  unfold environment_variables. cbv zeta.
  split; [|split; [|split; [|split; [|split; [|split]]]]].
  - skip_assign. apply lookup_assign.
  - skip_assign. apply lookup_assign.
  - skip_assign. apply lookup_assign.
  - destruct (given (sandboxType env)) eqn:Est.
    + exists (or_empty (sandboxType env)).
      split; [|split; [now apply given_nonempty | discriminate]].
      skip_assign. apply lookup_assign.
    + exists (if isSandboxed env then "unknown"%string else "none"%string).
      split; [|split; [now destruct (isSandboxed env) | reflexivity]].
      skip_assign. apply lookup_assign.
  - set (name := or_else (workspaceName env) _).
    destruct (given name) eqn:En.
    + exists (or_empty name). split; [|now apply given_nonempty].
      skip_assign. apply lookup_assign.
    + exists "unknown"%string. split; [|discriminate].
      skip_assign. apply lookup_assign.
  - set (root := or_else (workspaceRoot env) _).
    destruct (given root) eqn:En.
    + exists (or_empty root). split; [|now apply given_nonempty].
      skip_assign. apply lookup_assign.
    + exists "unknown"%string. split; [|discriminate].
      skip_assign. apply lookup_assign.
  - set (dirs := match workspaceDirectories env with Some d => d | None => _ end).
    destruct (0 <? length dirs) eqn:El.
    + exists (JsonText.join ", " dirs). split; [apply lookup_assign|].
      apply Nat.ltb_lt in El. rewrite join_empty. subst dirs.
      destruct (workspaceDirectories env) as [d|].
      * split; [intros [->| ->]; [simpl in El; lia|reflexivity] | intros [= ->]; auto].
      * destruct (given (workingDirectory env)) eqn:Ew; [|simpl in El; lia].
        apply given_nonempty in Ew.
        split; [intros [H|[= H]]; [discriminate H|contradiction] | discriminate].
    + exists "unknown"%string. split; [apply lookup_assign|].
      apply Nat.ltb_ge in El. subst dirs.
      split; [discriminate|].
      intros H. rewrite H in El. simpl in El. lia.
Qed.

Lemma sanitize_length s : String.length (sanitize s) = String.length s.
Proof. induction s as [|c s IH]; simpl; [reflexivity|]. now rewrite IH. Qed.

Lemma sanitize_safe s :
  forallb (fun c => is_alnum c || bool_decide (c = "_"%char))
          (list_ascii_of_string (sanitize s)) = true.
Proof.
  induction s as [|c s IH]; simpl; [reflexivity|]. rewrite IH, andb_true_r.
  destruct (is_alnum c) eqn:E; [now rewrite E|reflexivity].
Qed.

Lemma sanitize_alnum s :
  forallb is_alnum (list_ascii_of_string s) = true -> sanitize s = s.
Proof.
  induction s as [|c s IH]; simpl; [reflexivity|].
  intros H. apply andb_true_iff in H as [-> H]. now rewrite IH.
Qed.

Lemma created_only context k :
  k ∈ [ "PROVIDER_UPPER"; "MODEL_SAFE"; "TOOL_NAME" ]%string ->
  forall m0,
    (match environment context with
     | Some env => from_environment env m0
     | None => m0
     end) !! k = m0 !! k.
Proof.
  intros Hk m0. destruct (environment context) as [env|]; [|reflexivity].
  apply environment_frame.
  repeat (apply elem_of_cons in Hk as [->|Hk]; [set_solver|]). inversion Hk.
Qed.

(** X14. [MODEL_SAFE] is the model name with every character that is
    not an ASCII letter or digit replaced by an underscore: it has the
    length of the model name, consists of letters, digits and
    underscores, and is the model name itself when that is
    alphanumeric.  It is not defined when the model name is empty or
    absent. *)
Theorem MODEL_SAFE_sanitised (context : PromptContext) (tool : option string) :
  let variables := created (Some context) tool in
  let name := or_empty (model context) in
  (given (model context) = false -> variables !! "MODEL_SAFE"%string = None) /\
  (given (model context) = true ->
   exists v,
     variables !! "MODEL_SAFE"%string = Some (TString v) /\
     String.length v = String.length name /\
     forallb (fun c => is_alnum c || bool_decide (c = "_"%char))
             (list_ascii_of_string v) = true /\
     (forallb is_alnum (list_ascii_of_string name) = true -> v = name)).
Proof.
  intros variables name. subst variables name.
  unfold createVariablesFromContext. cbv zeta. split; intros Hm; rewrite Hm.
  - skip_assign.
    assert (Hup : forall m0 : TemplateVariables,
               (if given (provider context)
                then assign "PROVIDER_UPPER" (toUpperCase (or_empty (provider context))) m0
                else m0) !! "MODEL_SAFE"%string = m0 !! "MODEL_SAFE"%string).
    { intros m0. destruct (given (provider context)); [|reflexivity].
      now apply lookup_assign_ne. }
    rewrite Hup, created_only by set_solver.
    destruct (given tool && given (trim <$> tool)); skip_assign; reflexivity.
  - exists (sanitize (or_empty (model context))).
    split; [skip_assign; apply lookup_assign|].
    split; [apply sanitize_length|]. split; [apply sanitize_safe|].
    apply sanitize_alnum.
Qed.

Variable env_DEBUG : option string.
Variable options : option TemplateProcessingOptions.

Lemma created_core context tool :
  let variables := created (Some context) tool in
  substituted variables "MODEL" = or_empty (model context) /\
  substituted variables "PROVIDER" = or_empty (provider context) /\
  substituted variables "PROVIDER_UPPER" = toUpperCase (or_empty (provider context)) /\
  substituted variables "MODEL_SAFE" = sanitize (or_empty (model context)) /\
  substituted variables "TOOL_NAME" =
    (if given (trim <$> tool) then or_empty tool else EmptyString).
Proof.
  intros variables. subst variables.
  unfold substituted, createVariablesFromContext. cbv zeta.
  assert (Hfr : forall k m0,
             k ∈ [ "MODEL"; "PROVIDER"; "PROVIDER_UPPER"; "MODEL_SAFE";
                   "TOOL_NAME" ]%string ->
             (match environment context with
              | Some env => from_environment env m0
              | None => m0
              end) !! k = m0 !! k).
  { intros k m0 Hk. destruct (environment context) as [env|]; [|reflexivity].
    apply environment_frame.
    repeat (apply elem_of_cons in Hk as [->|Hk]; [set_solver|]). inversion Hk. }
  assert (Hg : forall s, given s = false -> or_empty s = EmptyString).
  { intros [s|]; [|reflexivity]. simpl. intros H.
    apply negb_false_iff, String.eqb_eq in H. exact H. }
  assert (Ht : given (trim <$> tool) = true -> given tool = true).
  { destruct tool as [[|c t]|]; simpl; auto. }
  repeat split.
  - skip_assign.
    destruct (given (model context)), (given (provider context)); skip_assign;
      rewrite Hfr by set_solver;
      destruct (given tool && given (trim <$> tool)); skip_assign;
      now rewrite lookup_assign.
  - skip_assign.
    destruct (given (model context)), (given (provider context)); skip_assign;
      rewrite Hfr by set_solver;
      destruct (given tool && given (trim <$> tool)); skip_assign;
      now rewrite lookup_assign.
  - skip_assign.
    destruct (given (model context)), (given (provider context)) eqn:Ep;
      skip_assign; rewrite ?lookup_assign; try reflexivity;
      rewrite Hfr by set_solver;
      (destruct (given tool && given (trim <$> tool)); skip_assign;
       rewrite lookup_empty, (Hg _ Ep); reflexivity).
  - skip_assign.
    destruct (given (model context)) eqn:Em; rewrite ?lookup_assign;
      [reflexivity|].
    destruct (given (provider context)); skip_assign;
      rewrite Hfr by set_solver;
      (destruct (given tool && given (trim <$> tool)); skip_assign;
       rewrite lookup_empty, (Hg _ Em); reflexivity).
  - skip_assign.
    destruct (given (model context)), (given (provider context)); skip_assign;
      rewrite Hfr by set_solver;
      (destruct (given (trim <$> tool)) eqn:Et;
       [rewrite (Ht eq_refl); simpl; now rewrite lookup_assign
       |rewrite andb_false_r; skip_assign; now rewrite lookup_empty]).
Qed.

(** X15. The variables of a context in a template.  Between literal
    texts, [{{MODEL}}] and [{{PROVIDER}}] render as the model and the
    provider of the context ([''] when absent), [{{PROVIDER_UPPER}}]
    as the provider in upper case, [{{MODEL_SAFE}}] as the sanitised
    model name, and [{{TOOL_NAME}}] as the current tool, or as nothing
    when the tool is absent or blank. *)
Theorem context_variables_rendered (context : PromptContext)
    (tool : option string) (pre rest : string) :
  includes (pre +:+ "{") "{{" = false ->
  includes rest "{{" = false ->
  let variables := created (Some context) tool in
  let rendered name :=
    render env_DEBUG options (pre +:+ "{{" +:+ name +:+ "}}" +:+ rest) variables in
  rendered "MODEL"%string = Some (pre +:+ or_empty (model context) +:+ rest) /\
  rendered "PROVIDER"%string = Some (pre +:+ or_empty (provider context) +:+ rest) /\
  rendered "PROVIDER_UPPER"%string =
    Some (pre +:+ toUpperCase (or_empty (provider context)) +:+ rest) /\
  rendered "MODEL_SAFE"%string =
    Some (pre +:+ sanitize (or_empty (model context)) +:+ rest) /\
  rendered "TOOL_NAME"%string =
    Some (pre +:+ (if given (trim <$> tool) then or_empty tool else EmptyString)
              +:+ rest).
Proof.
  intros Hpre Hrest variables rendered. subst rendered.
  destruct (created_core context tool) as (H1 & H2 & H3 & H4 & H5).
  fold variables in H1, H2, H3, H4, H5. unfold substituted in *.
  repeat split;
    (rewrite render_placeholder; [|assumption|assumption|discriminate|reflexivity]).
  - now rewrite H1.
  - now rewrite H2.
  - now rewrite H3.
  - now rewrite H4.
  - now rewrite H5.
Qed.
End Platform.

Lemma environment_variables_defaults_witness :
  variables_of (Some gpt_context) None !! "SANDBOX_TYPE"%string
    = Some (TString "unknown") /\
  exists v, variables_of (Some gpt_context) None !! "WORKSPACE_NAME"%string
              = Some (TString v) /\ v <> EmptyString.
Proof.
  destruct (environment_variables_defaults last_segment "Monday, November 2, 2026"
              "9:00:00 AM" "11/2/2026, 9:00:00 AM" "linux" gpt_context sandboxed None
              eq_refl) as (_ & _ & _ & _ & Hname & _).
  split; [reflexivity|exact Hname].
Defined.

Lemma MODEL_SAFE_sanitised_witness :
  exists v,
    variables_of (Some gpt_context) None !! "MODEL_SAFE"%string = Some (TString v) /\
    String.length v = 12.
Proof.
  destruct (proj2 (MODEL_SAFE_sanitised last_segment "Monday, November 2, 2026"
                     "9:00:00 AM" "11/2/2026, 9:00:00 AM" "linux" gpt_context None)
              eq_refl) as (v & Hv & Hlen & _).
  exists v. split; [exact Hv|exact Hlen].
Defined.

Lemma context_variables_rendered_witness :
  render None None ("model " +:+ "{{" +:+ "MODEL_SAFE" +:+ "}}" +:+ ".")
    (variables_of (Some gpt_context) None) = Some "model gpt_4_1_mini.".
Proof.
  apply (proj1 (proj2 (proj2 (proj2
           (context_variables_rendered last_segment "Monday, November 2, 2026"
              "9:00:00 AM" "11/2/2026, 9:00:00 AM" "linux" None None
              gpt_context None "model " "." eq_refl eq_refl))))).
Defined.
End PromptVariablesProofs.

(** ** The life of a profile file *)

Module ProfileStoreProofs.
Import JsString Json ProfileManager ProfileStore JsStringFacts.

Lemma includes_enoent a : includes ("ENOENT" +:+ a) "ENOENT" = true.
Proof. apply includes_prefix. Qed.

Section Manager.
Variable path_join : list string -> string.
Variable JSON_stringify : json -> string.
Variable JSON_parse : string -> string + json.
Variable this : ProfileManager.

Abbreviation save := (saveProfile path_join JSON_stringify this).
Abbreviation load := (loadProfile path_join JSON_parse this).
Abbreviation remove := (deleteProfile path_join this).
Abbreviation exists_ := (profileExists path_join this).
Abbreviation path_of name := (profile_path path_join this name).

Lemma load_missing fs name :
  fs !! path_of name = None -> load fs name = inl (not_found name).
Proof.
  intros H. unfold loadProfile, loadProfile_try, readFile. now rewrite H.
Qed.

Lemma remove_missing fs name :
  fs !! path_of name = None -> remove fs name = inl (not_found name).
Proof.
  intros H. unfold deleteProfile, unlink. now rewrite H.
Qed.

(** X16. The life of a profile.  After [saveProfile] the profile
    exists; saving again under the same name replaces it;
    [deleteProfile] then succeeds, after which the profile does not
    exist, [loadProfile] and a second [deleteProfile] fail with
    "Profile '<name>' not found", and when the name was free before
    the save the files are as they were. *)
Theorem profile_lifecycle (fs : filesystem) (name : string) (p p' : json) :
  exists_ (save fs name p) name = true /\
  save (save fs name p) name p' = save fs name p' /\
  exists fs',
    remove (save fs name p) name = inr fs' /\
    exists_ fs' name = false /\
    load fs' name = inl (not_found name) /\
    remove fs' name = inl (not_found name) /\
    (exists_ fs name = false -> fs' = fs).
Proof.
  unfold profileExists, access, saveProfile, writeFile.
  split; [|split].
  - apply bool_decide_eq_true. rewrite lookup_insert_eq. eauto.
  - apply insert_insert_eq.
  - exists (delete (path_of name) fs).
    assert (Hgone : delete (path_of name) fs !! path_of name = None)
      by apply lookup_delete_eq.
    split; [|split; [|split; [|split]]].
    + unfold deleteProfile, unlink. rewrite lookup_insert_eq.
      now rewrite delete_insert_eq.
    + apply bool_decide_eq_false. rewrite Hgone. now intros [? ?].
    + now apply load_missing.
    + now apply remove_missing.
    + intros H. apply bool_decide_eq_false in H.
      apply delete_id. destruct (fs !! path_of name) eqn:E; [|reflexivity].
      exfalso. apply H. eauto.
Qed.

(** X17. Profiles do not interfere: saving or deleting the profile
    [a] changes neither the existence nor the content read by
    [loadProfile] of a profile [b] stored in another file. *)
Theorem profiles_independent (fs : filesystem) (a b : string) (p : json) :
  path_of a <> path_of b ->
  load (save fs a p) b = load fs b /\
  exists_ (save fs a p) b = exists_ fs b /\
  (forall fs', remove fs a = inr fs' ->
     load fs' b = load fs b /\ exists_ fs' b = exists_ fs b).
Proof.
  intros Hne.
  assert (Hload : forall fs1 fs2,
             fs1 !! path_of b = fs2 !! path_of b -> load fs1 b = load fs2 b).
  { intros fs1 fs2 H. unfold loadProfile, loadProfile_try, readFile. now rewrite H. }
  assert (Hex : forall fs1 fs2,
             fs1 !! path_of b = fs2 !! path_of b -> exists_ fs1 b = exists_ fs2 b).
  { intros fs1 fs2 H. unfold profileExists, access. now rewrite H. }
  assert (Hsave : save fs a p !! path_of b = fs !! path_of b).
  { unfold saveProfile, writeFile. now apply lookup_insert_ne. }
  split; [now apply Hload|]. split; [now apply Hex|].
  intros fs' Hrm. unfold deleteProfile, unlink in Hrm.
  destruct (fs !! path_of a); [|destruct (includes _ _); discriminate].
  injection Hrm as <-.
  assert (Hdel : delete (path_of a) fs !! path_of b = fs !! path_of b)
    by now apply lookup_delete_ne.
  split; [now apply Hload | now apply Hex].
Qed.
End Manager.

Lemma endsWith_app name suffix : endsWith (name +:+ suffix) suffix = true.
Proof.
  unfold endsWith. rewrite str_length_app.
  apply andb_true_iff. split; [apply Nat.leb_le; lia|].
  replace (String.length name + String.length suffix - String.length suffix)%nat
    with (String.length name) by lia.
  rewrite str_drop_app. apply String.eqb_refl.
Qed.

Lemma endsWith_split s suffix :
  endsWith s suffix = true ->
  s = take (String.length s - String.length suffix) s +:+ suffix.
Proof.
  unfold endsWith. intros H. apply andb_true_iff in H as [_ H].
  apply String.eqb_eq in H.
  set (k := (String.length s - String.length suffix)%nat) in *.
  rewrite <- (str_take_drop k s) at 1. now rewrite H.
Qed.

(** X18. [listProfiles] lists the names under which a [.json] file lies
    in the profiles directory: a name is listed exactly when the
    directory holds the file [<name>.json], other files are ignored,
    and a directory that cannot be read yields the empty list. *)
Theorem listProfiles_names
    (readdir : filesystem -> string -> js_error + list string)
    (this : ProfileManager) (fs : filesystem) :
  (forall files name,
      readdir fs (profilesDir this) = inr files ->
      (name ∈ listProfiles readdir this fs <-> name +:+ ".json" ∈ files))
  /\
  (forall error,
      readdir fs (profilesDir this) = inl error ->
      listProfiles readdir this fs = []).
Proof.
  split.
  - intros files name Hdir. unfold listProfiles. rewrite Hdir.
    rewrite list_elem_of_fmap. split.
    + intros (file & -> & Hin). apply list_elem_of_In, filter_In in Hin as [Hin He].
      apply list_elem_of_In in Hin. unfold slice_0_minus5.
      pose proof (endsWith_split file ".json" He) as Hs.
      simpl String.length in Hs. now rewrite <- Hs.
    + intros Hin. exists (name +:+ ".json"). split.
      * unfold slice_0_minus5. rewrite str_length_app. simpl String.length.
        replace (String.length name + 5 - 5)%nat with (String.length name) by lia.
        now rewrite str_take_app.
      * apply list_elem_of_In, filter_In. split; [now apply list_elem_of_In|].
        apply endsWith_app.
  - intros error Hdir. unfold listProfiles. now rewrite Hdir.
Qed.

Import NodePlatform.

Lemma profiles_independent_witness :
  loadProfile path_join JSON_parse manager (save ∅ "demo" demo) "work"
    = loadProfile path_join JSON_parse manager ∅ "work".
Proof.
  apply (proj1 (profiles_independent path_join JsonText.stringify JSON_parse manager
                  ∅ "demo" "work" demo ltac:(vm_compute; discriminate))).
Defined.

Lemma profile_lifecycle_witness :
  exists fs',
    deleteProfile path_join manager (save ∅ "demo" demo) "demo" = inr fs' /\
    fs' = ∅ /\
    loadProfile path_join JSON_parse manager fs' "demo" = inl (not_found "demo").
Proof.
  destruct (profile_lifecycle path_join JsonText.stringify JSON_parse manager
              ∅ "demo" demo demo) as (_ & _ & fs' & Hrm & _ & Hload & _ & Hfree).
  exists fs'. split; [exact Hrm|]. split; [|exact Hload].
  apply Hfree. reflexivity.
Defined.

Lemma listProfiles_names_witness :
  "work" ∈ listProfiles listing manager ∅ /\
  ("notes" ∈ listProfiles listing manager ∅ -> False).
Proof.
  destruct (listProfiles_names listing manager ∅) as [Hnames _].
  split.
  - apply (Hnames [ "demo.json"; "notes.txt"; ".json"; "work.json" ] "work" eq_refl).
    set_solver.
  - intros H.
    apply (Hnames [ "demo.json"; "notes.txt"; ".json"; "work.json" ] "notes" eq_refl)
      in H.
    set_solver.
Defined.
End ProfileStoreProofs.
